(** * waves-lab: the signal-analysis core, embedded and verified

    A shallow embedding of the numeric core of the wave simulator:
    [FourierAnalyzer] (FourierAnalyzer.cpp / FourierAnalyzer.h),
    [WaveEngine] (WaveEngine.cpp / WaveEngine.h), the wave variants of
    WaveFunction.h and [InterferenceCalculator] (InterferenceCalculator.cpp).

    Numbers.  A C++ [double] is read as a real number ([R]): the development
    speaks about the algorithms in exact arithmetic, and [Physics::PI] is the
    number pi.  Two effects of the machine numbers decide whether a function
    returns at all, and are kept: a [double] converted to an [int] has to
    fit 32 bits ([toInt]), and a [double] above [2^62] is not changed by
    adding or subtracting 360.0 ([plus360], [minus360]), so that the loops
    of [calculatePhaseShift] do not end on it.  A [size_t] that only
    measures a vector is a [nat]; a [size_t] that takes part in subtraction
    (the bin arithmetic of the filters) is a [Z] in [0, 2^64) with the
    wrap-around written out.  An [int] loop bound is a [Z].  A [std::vector]
    is a [list]. *)

From Stdlib Require Import String.
From Stdlib Require Import Reals Lra Lia ZArith Bool Arith List.
From Stdlib Require Import Sorting.Sorted Sorting.Permutation.
From Equations Require Import Equations.
Import ListNotations.

Open Scope R_scope.

(* ===================================================================== *)
(** * Definitions                                                         *)
(* ===================================================================== *)

(** ** PhysicsConstants.h *)

Module Physics.
Definition PI : R := Rtrigo1.PI.
Definition TWO_PI : R := 2 * PI.
Definition DEG_TO_RAD : R := PI / 180.
Definition RAD_TO_DEG : R := 180 / PI.
End Physics.

(** ** FourierAnalyzer.h: the complex sample *)

Record Complex : Type := mkComplex { real : R; imag : R }.

Definition C0 : Complex := mkComplex 0 0.

(** [operator+], [operator-] and [operator*] of [struct Complex]. *)
Definition Cadd (a b : Complex) : Complex :=
  mkComplex (real a + real b) (imag a + imag b).

Definition Csub (a b : Complex) : Complex :=
  mkComplex (real a - real b) (imag a - imag b).

Definition Cmul (a b : Complex) : Complex :=
  mkComplex (real a * real b - imag a * imag b)
            (real a * imag b + imag a * real b).

(** [std::atan2(y, x)], total as in C. *)
Definition atan2 (y x : R) : R :=
  if Rlt_dec 0 x then atan (y / x)
  else if Rlt_dec x 0 then
         (if Rle_dec 0 y then atan (y / x) + Rtrigo1.PI
          else atan (y / x) - Rtrigo1.PI)
  else if Rlt_dec 0 y then Rtrigo1.PI / 2
  else if Rlt_dec y 0 then - (Rtrigo1.PI / 2)
  else 0.

Definition magnitude (c : Complex) : R :=
  sqrt (real c * real c + imag c * imag c).

Definition phase (c : Complex) : R := atan2 (imag c) (real c).

Record FrequencyBin : Type := mkBin {
  bin_frequency : R;
  bin_magnitude : R;
  bin_phase : R
}.

Record Harmonic : Type := mkHarmonic {
  h_frequency : R;
  h_amplitude : R;
  h_phase : R;
  h_order : Z
}.

Record FrequencySpectrum : Type := mkSpectrum {
  bins : list FrequencyBin;
  sampleRate : R;
  frequencyResolution : R;
  maxFrequency : R;
  harmonics : list Harmonic
}.

(** ** FourierAnalyzer.cpp: the transform *)

Module FourierAnalyzer.

(** [nextPowerOfTwo]: [while (power < n) power *= 2].  The loop doubles at
    most [n] times before [power >= n], so [n] units of fuel are enough
    ([pow2_loop_exit] below shows the loop leaves through its guard). *)
Fixpoint pow2_loop (fuel power n : nat) : nat :=
  match fuel with
  | O => power
  | S fuel' => if (power <? n)%nat then pow2_loop fuel' (power * 2) n else power
  end.

Definition nextPowerOfTwo (n : nat) : nat :=
  if (n <=? 1)%nat then 1%nat else pow2_loop n 1 n.

(** The two vectors [even] and [odd] filled by the dividing loop of
    [fftRecursive]: [x[0], x[2], ...] and [x[1], x[3], ...]. *)
Fixpoint evenIndexed (x : list Complex) : list Complex :=
  match x with
  | [] => []
  | a :: t => a :: match t with
                   | [] => []
                   | _ :: t' => evenIndexed t'
                   end
  end.

Definition oddIndexed (x : list Complex) : list Complex := evenIndexed (tl x).

(** The twiddle factor [w] of the combining loop, for index [k] and size [n]:
    [angle = -TWO_PI * k / n], [w = (cos angle, sin angle)]. *)
Definition twiddle (k n : nat) : Complex :=
  let angle := - Physics.TWO_PI * INR k / INR n in
  mkComplex (cos angle) (sin angle).

(** The combining loop.  [result] is created with [n] zero samples; for
    [k < n/2] the loop writes [result[k]] and [result[k + n/2]].  When [n] is
    odd the last sample is never written and stays zero.  Both reads
    [evenFFT[k]] and [oddFFT[k]] are in range, the vectors having
    [n - n/2] and [n/2] samples. *)
Definition combineStep (n : nat) (evenFFT oddFFT : list Complex) : list Complex :=
  let half := (n / 2)%nat in
  let t k := Cmul (twiddle k n) (nth k oddFFT C0) in
  map (fun k => Cadd (nth k evenFFT C0) (t k)) (seq 0 half)
  ++ map (fun k => Csub (nth k evenFFT C0) (t k)) (seq 0 half)
  ++ repeat C0 (n - 2 * half).

Equations? fftRecursive (x : list Complex) : list Complex
  by wf (length x) lt :=
  fftRecursive [] := [];
  fftRecursive [a] := [a];
  fftRecursive (a :: b :: t) :=
    combineStep (length (a :: b :: t))
                (fftRecursive (evenIndexed (a :: b :: t)))
                (fftRecursive (oddIndexed (a :: b :: t))).
Proof.
  all: assert (Hle : forall l : list Complex,
                  (length (evenIndexed l) <= length l
                   /\ length (evenIndexed (tl l)) <= length l)%nat)
         by (intros l; induction l as [|u [|v l'] IH]; simpl in *; lia).
  - destruct (Hle t). simpl; lia.
  - unfold oddIndexed; simpl.
    destruct (Hle t). destruct t; simpl in *; lia.
Qed.

(** [complexSignal.resize(n, Complex(0.0, 0.0))]. *)
Definition resize (n : nat) (v : list Complex) : list Complex :=
  firstn n v ++ repeat C0 (n - length v).

Definition fft (signal : list R) : list Complex :=
  let complexSignal := map (fun val => mkComplex val 0) signal in
  let n := nextPowerOfTwo (length signal) in
  fftRecursive (resize n complexSignal).

Definition ifft (spectrum : list Complex) : list Complex :=
  let conjugated := map (fun c => mkComplex (real c) (- imag c)) spectrum in
  let result := fftRecursive conjugated in
  let n := INR (length result) in
  map (fun c => mkComplex (real c / n) (- imag c / n)) result.

(** [applyWindow]: the sample of index [i] is multiplied by the window
    coefficient; [n - 1] is the [size_t] subtraction on the vector's size
    (the loop does not run when [n = 0]).  An unknown window name leaves the
    signal as it is. *)
Fixpoint mapi_from {A B : Type} (f : nat -> A -> B) (i : nat) (l : list A)
  : list B :=
  match l with
  | [] => []
  | a :: t => f i a :: mapi_from f (S i) t
  end.

Definition mapi {A B : Type} (f : nat -> A -> B) (l : list A) : list B :=
  mapi_from f 0 l.

Definition hanning (n i : nat) : R :=
  0.5 - 0.5 * cos (Physics.TWO_PI * INR i / INR (n - 1)).

Definition hamming (n i : nat) : R :=
  0.54 - 0.46 * cos (Physics.TWO_PI * INR i / INR (n - 1)).

Definition blackman (n i : nat) : R :=
  0.42 - 0.5 * cos (Physics.TWO_PI * INR i / INR (n - 1))
  + 0.08 * cos (4 * Physics.PI * INR i / INR (n - 1)).

Definition applyWindow (signal : list R) (windowType : string) : list R :=
  let n := length signal in
  if String.eqb windowType "hanning" then
    mapi (fun i v => v * hanning n i) signal
  else if String.eqb windowType "hamming" then
    mapi (fun i v => v * hamming n i) signal
  else if String.eqb windowType "blackman" then
    mapi (fun i v => v * blackman n i) signal
  else signal.

(** *** findHarmonics *)

(** The first loop: the running pair [(maxMagnitude, fundamentalFreq)],
    started at [(0.0, 0.0)] and updated on a strictly larger magnitude; the
    loop starts at index 1, skipping the DC bin. *)
Definition peakStep (st : R * R) (b : FrequencyBin) : R * R :=
  if Rgt_dec (bin_magnitude b) (fst st)
  then (bin_magnitude b, bin_frequency b)
  else st.

Definition findPeak (bs : list FrequencyBin) : R * R :=
  fold_left peakStep (tl bs) (0, 0).

(** The inner loop: the running pair [(closestBin, minDistance)], started at
    bin 0 and updated on a strictly smaller distance. *)
Fixpoint closestLoop (targetFreq : R) (i : nat) (bs : list FrequencyBin)
         (st : nat * R) : nat * R :=
  match bs with
  | [] => st
  | b :: t =>
      let distance := Rabs (bin_frequency b - targetFreq) in
      closestLoop targetFreq (S i) t
                  (if Rlt_dec distance (snd st) then (i, distance) else st)
  end.

Definition dummyBin : FrequencyBin := mkBin 0 0 0.

Definition findClosest (bs : list FrequencyBin) (targetFreq : R) : nat * R :=
  closestLoop targetFreq 1 (tl bs)
              (0%nat, Rabs (bin_frequency (nth 0 bs dummyBin) - targetFreq)).

(** The loop over the harmonic orders, [break] included: the orders still to
    visit are the list argument. *)
Fixpoint harmonicsLoop (sp : FrequencySpectrum) (threshold fundamentalFreq : R)
         (orders : list Z) : list Harmonic :=
  match orders with
  | [] => []
  | order :: rest =>
      let targetFreq := IZR order * fundamentalFreq in
      if Rgt_dec targetFreq (maxFrequency sp) then []
      else
        let toleranceHz := frequencyResolution sp * 2 in
        let '(closestBin, minDistance) := findClosest (bins sp) targetFreq in
        let b := nth closestBin (bins sp) dummyBin in
        (if Rle_dec minDistance toleranceHz then
           if Rge_dec (bin_magnitude b) threshold then
             [mkHarmonic (bin_frequency b) (bin_magnitude b) (bin_phase b) order]
           else []
         else [])
        ++ harmonicsLoop sp threshold fundamentalFreq rest
  end.

Definition orders_1_10 : list Z := [1; 2; 3; 4; 5; 6; 7; 8; 9; 10]%Z.

Definition findHarmonics (sp : FrequencySpectrum) (threshold : R)
  : list Harmonic :=
  match bins sp with
  | [] => []
  | _ :: _ =>
      let '(maxMagnitude, fundamentalFreq) := findPeak (bins sp) in
      if Req_dec_T fundamentalFreq 0 then []
      else if Rlt_dec maxMagnitude threshold then []
      else harmonicsLoop sp threshold fundamentalFreq orders_1_10
  end.

(** The default argument of [findHarmonics]. *)
Definition defaultThreshold : R := 0.1.

(** *** getSpectrum *)

(** One bin of the one-sided spectrum, for index [i] of an FFT of size
    [fftSize]. *)
Definition spectrumBin (fftResult : list Complex) (resolution : R) (i : nat)
  : FrequencyBin :=
  let fftSize := length fftResult in
  let frequency := INR i * resolution in
  let magnitude0 := magnitude (nth i fftResult C0) in
  let phase0 := phase (nth i fftResult C0) in
  let magnitude1 :=
    if ((0 <? i) && (i <? fftSize / 2))%nat
    then magnitude0 * (2 / INR fftSize)
    else magnitude0 / INR fftSize in
  mkBin frequency magnitude1 phase0.

(** The source returns a default-constructed [FrequencySpectrum] for the
    empty signal: no bins, no harmonics, and three doubles it never
    assigns; they are 0 here. *)
Definition emptySpectrum : FrequencySpectrum := mkSpectrum [] 0 0 0 [].

Definition getSpectrum (signal : list R) (rate : R) : FrequencySpectrum :=
  match signal with
  | [] => emptySpectrum
  | _ :: _ =>
      let windowedSignal := applyWindow signal "hanning" in
      let fftResult := fft windowedSignal in
      let fftSize := length fftResult in
      let resolution := rate / INR fftSize in
      let maxFreq := rate / 2 in
      let numBins := (fftSize / 2 + 1)%nat in
      let bs := map (spectrumBin fftResult resolution) (seq 0 numBins) in
      let sp := mkSpectrum bs rate resolution maxFreq [] in
      mkSpectrum bs rate resolution maxFreq (findHarmonics sp defaultThreshold)
  end.

(** *** The filters *)

(** [size_t] arithmetic: 64-bit, unsigned, wrapping. *)
Definition SIZE_MOD : Z := (2 ^ 64)%Z.

Definition size_sub (a b : Z) : Z := ((a - b) mod SIZE_MOD)%Z.

(** [static_cast<size_t>(d)]: the fractional part is dropped.  C++ defines
    the conversion only when the truncated value fits the type; there the
    model agrees with it. *)
Definition toSizeT (d : R) : Z :=
  if Rlt_dec d 0 then (- Int_part (- d))%Z else Int_part d.

(** A vector access.  [spectrum[i] = v] on a [std::vector] is defined only
    for [i < size()]; the model stops at the first access outside, recording
    the index.  [OutOfFuel] is the model's own: the loops below are run with
    a fuel that they never use up ([zeroRange_fuel], [zeroBelow_fuel]). *)
Inductive outcome (A : Type) : Type :=
| Done (a : A)
| OutOfBounds (index : Z)
| OutOfFuel.
Arguments Done {A} a.
Arguments OutOfBounds {A} index.
Arguments OutOfFuel {A}.

Definition bindOutcome {A B : Type} (m : outcome A) (f : A -> outcome B)
  : outcome B :=
  match m with
  | Done a => f a
  | OutOfBounds i => OutOfBounds i
  | OutOfFuel => OutOfFuel
  end.

Definition setNth {A : Type} (i : nat) (v : A) (s : list A) : list A :=
  firstn i s ++ v :: skipn (S i) s.

Definition writeAt {A : Type} (i : Z) (v : A) (s : list A) : outcome (list A) :=
  if ((0 <=? i) && (i <? Z.of_nat (length s)))%Z
  then Done (setNth (Z.to_nat i) v s)
  else OutOfBounds i.

(** [for (size_t i = from; i < bound; ++i) spectrum[i] = zero;] *)
Fixpoint zeroRange {A : Type} (zero : A) (fuel : nat) (i bound : Z)
         (s : list A) : outcome (list A) :=
  if (i <? bound)%Z then
    match fuel with
    | O => OutOfFuel
    | S fuel' =>
        bindOutcome (writeAt i zero s)
                    (fun s' => zeroRange zero fuel' ((i + 1) mod SIZE_MOD)%Z bound s')
    end
  else Done s.

(** [for (size_t i = from; i <= cutoffBin; ++i) { spectrum[i] = zero;
     if (i > 0) spectrum[spectrum.size() - i] = zero; }] *)
Fixpoint zeroBelow {A : Type} (zero : A) (fuel : nat) (i cutoffBin : Z)
         (s : list A) : outcome (list A) :=
  if (i <=? cutoffBin)%Z then
    match fuel with
    | O => OutOfFuel
    | S fuel' =>
        bindOutcome (writeAt i zero s) (fun s1 =>
        bindOutcome (if (0 <? i)%Z
                     then writeAt (size_sub (Z.of_nat (length s1)) i) zero s1
                     else Done s1) (fun s2 =>
        zeroBelow zero fuel' ((i + 1) mod SIZE_MOD)%Z cutoffBin s2))
    end
  else Done s.

(** The test of the band-pass loop at index [i], for a spectrum of [n]
    samples: [true] when [spectrum[i]] is overwritten with zero. *)
Definition bandPassZeroed (n lowBin highBin i : Z) : bool :=
  (((i <? lowBin) || (highBin <? i))
   && negb ((size_sub n highBin <? i) && (i <? size_sub n lowBin)))%Z.

(** [for (size_t i = 0; i < spectrum.size(); ++i)]: every index of the loop
    is an index of the vector. *)
Definition bandPassZero {A : Type} (zero : A) (lowBin highBin : Z)
           (s : list A) : list A :=
  let n := Z.of_nat (length s) in
  mapi (fun i c => if bandPassZeroed n lowBin highBin (Z.of_nat i)
                   then zero else c) s.

Definition realParts (filtered : list Complex) : list R := map real filtered.

Definition lowPassFilter (signal : list R) (cutoffFreq rate : R)
  : outcome (list R) :=
  let spectrum := fft signal in
  let size := Z.of_nat (length spectrum) in
  let cutoffBin := toSizeT (cutoffFreq * INR (length spectrum) / rate) in
  bindOutcome
    (zeroRange C0 (S (length spectrum)) cutoffBin (size_sub size cutoffBin)
               spectrum)
    (fun spectrum' => Done (realParts (ifft spectrum'))).

Definition highPassFilter (signal : list R) (cutoffFreq rate : R)
  : outcome (list R) :=
  let spectrum := fft signal in
  let cutoffBin := toSizeT (cutoffFreq * INR (length spectrum) / rate) in
  bindOutcome
    (zeroBelow C0 (S (length spectrum)) 0 cutoffBin spectrum)
    (fun spectrum' => Done (realParts (ifft spectrum'))).

Definition bandPassFilter (signal : list R) (lowFreq highFreq rate : R)
  : list R :=
  let spectrum := fft signal in
  let lowBin := toSizeT (lowFreq * INR (length spectrum) / rate) in
  let highBin := toSizeT (highFreq * INR (length spectrum) / rate) in
  realParts (ifft (bandPassZero C0 lowBin highBin spectrum)).

(** *** The analysis utilities *)

(** [findDominantFrequency]: the loop is that of [findHarmonics], and the
    frequency it ends with is returned. *)
Definition findDominantFrequency (sp : FrequencySpectrum) : R :=
  match bins sp with
  | [] => 0
  | _ :: _ => snd (findPeak (bins sp))
  end.

(** The loop of [calculateTHD]: the running pair
    [(fundamentalPower, harmonicPower)]; an order-1 harmonic overwrites the
    first, any other adds to the second. *)
Definition thdStep (st : R * R) (h : Harmonic) : R * R :=
  let power := h_amplitude h * h_amplitude h in
  if (h_order h =? 1)%Z then (power, snd st) else (fst st, snd st + power).

Definition calculateTHD (hs : list Harmonic) : R :=
  match hs with
  | [] => 0
  | _ :: _ =>
      let '(fundamentalPower, harmonicPower) := fold_left thdStep hs (0, 0) in
      if Req_dec_T fundamentalPower 0 then 0
      else sqrt (harmonicPower / fundamentalPower) * 100
  end.

Definition getFrequencyAxis (fftSize : nat) (rate : R) : list R :=
  let numBins := (fftSize / 2 + 1)%nat in
  let df := rate / INR fftSize in
  map (fun i => INR i * df) (seq 0 numBins).

End FourierAnalyzer.

(** ** WaveFunction.h / WaveFunction.cpp: the wave variants *)

Inductive WaveType : Type :=
| SINUSOIDAL | COSINE | SQUARE | TRIANGULAR | SAWTOOTH | CUSTOM.

(** The five concrete classes; each holds [amplitude_], [frequency_] and
    [phase_] (degrees). *)
Inductive WaveFunction : Type :=
| SinusoidalWave (amplitude_ frequency_ phase_ : R)
| CosineWave (amplitude_ frequency_ phase_ : R)
| SquareWave (amplitude_ frequency_ phase_ : R)
| TriangularWave (amplitude_ frequency_ phase_ : R)
| SawtoothWave (amplitude_ frequency_ phase_ : R).

Definition getAmplitude (w : WaveFunction) : R :=
  match w with
  | SinusoidalWave a _ _ | CosineWave a _ _ | SquareWave a _ _
  | TriangularWave a _ _ | SawtoothWave a _ _ => a
  end.

Definition getFrequency (w : WaveFunction) : R :=
  match w with
  | SinusoidalWave _ f _ | CosineWave _ f _ | SquareWave _ f _
  | TriangularWave _ f _ | SawtoothWave _ f _ => f
  end.

Definition getPhase (w : WaveFunction) : R :=
  match w with
  | SinusoidalWave _ _ p | CosineWave _ _ p | SquareWave _ _ p
  | TriangularWave _ _ p | SawtoothWave _ _ p => p
  end.

Definition getType (w : WaveFunction) : WaveType :=
  match w with
  | SinusoidalWave _ _ _ => SINUSOIDAL
  | CosineWave _ _ _ => COSINE
  | SquareWave _ _ _ => SQUARE
  | TriangularWave _ _ _ => TRIANGULAR
  | SawtoothWave _ _ _ => SAWTOOTH
  end.

(** [std::floor]. *)
Definition floorR (r : R) : R := IZR (Int_part r).

(** [evaluate(x, t)]; no variant reads the position [x]. *)
Definition evaluate (w : WaveFunction) (x t : R) : R :=
  match w with
  | SinusoidalWave a f p =>
      a * sin (Physics.TWO_PI * f * t + p * Physics.DEG_TO_RAD)
  | CosineWave a f p =>
      a * cos (Physics.TWO_PI * f * t + p * Physics.DEG_TO_RAD)
  | SquareWave a f p =>
      let arg := Physics.TWO_PI * f * t + p * Physics.DEG_TO_RAD in
      a * (if Rge_dec (sin arg) 0 then 1 else -1)
  | TriangularWave a f p =>
      let arg := f * t + p / 360 in
      let fractional_part := arg - floorR arg in
      if Rlt_dec fractional_part 0.25 then a * 4 * fractional_part
      else if Rlt_dec fractional_part 0.75 then a * (2 - 4 * fractional_part)
      else a * (4 * fractional_part - 4)
  | SawtoothWave a f p =>
      let arg := f * t + p / 360 in
      let fractional_part := arg - floorR arg in
      a * (2 * fractional_part - 1)
  end.

Definition getEnergy (w : WaveFunction) : R :=
  0.5 * getAmplitude w * getAmplitude w.

(** The derived properties of [WaveFunction]; [velocity] defaults to 1.0. *)
Definition getPeriod (w : WaveFunction) : R := 1 / getFrequency w.

Definition getWavelength (w : WaveFunction) (velocity : R) : R :=
  velocity / getFrequency w.

Definition getAngularFrequency (w : WaveFunction) : R :=
  Physics.TWO_PI * getFrequency w.

Definition getWaveNumber (w : WaveFunction) (velocity : R) : R :=
  Physics.TWO_PI / getWavelength w velocity.

(** The range of a 32-bit [int]. *)
Definition INT_MIN : Z := (- 2 ^ 31)%Z.
Definition INT_MAX : Z := (2 ^ 31 - 1)%Z.

(** [d] with its fractional part dropped. *)
Definition truncate (d : R) : Z :=
  if Rlt_dec d 0 then (- Int_part (- d))%Z else Int_part d.

(** [static_cast<int>(d)]: the fractional part is dropped.  C++ defines the
    conversion only when the truncated value fits an [int]; [None] is the
    conversion of a value that does not, after which the program has no
    defined result. *)
Definition toInt (d : R) : option Z :=
  let z := truncate d in
  if ((INT_MIN <=? z) && (z <=? INT_MAX))%Z then Some z else None.

(** [v.reserve(n)] with an [int n], before the work [k] that fills [v].  The
    count is converted to [size_t]; a negative [n] becomes a count above
    [max_size()] and [reserve] throws [std::length_error].  [None] is that
    exception, which no function of the core catches.  A count that is not
    negative is taken to be granted: the model sets no bound on memory. *)
Definition reserved {A : Type} (n : Z) (k : A) : option A :=
  if (n <? 0)%Z then None else Some k.

(** [*std::min_element] and [*std::max_element] of a vector with at least one
    sample (0 stands for the dereference of [end()]). *)
Definition std_min_element (l : list R) : R :=
  match l with
  | [] => 0
  | a :: t => fold_left (fun m v => if Rlt_dec v m then v else m) t a
  end.

Definition std_max_element (l : list R) : R :=
  match l with
  | [] => 0
  | a :: t => fold_left (fun m v => if Rlt_dec v m then m else v) t a
  end.

(** [std::accumulate] of the squares, from 0.0. *)
Definition sumSquares (data : list R) : R :=
  fold_left (fun sum val => sum + val * val) data 0.

(** The comparisons of two doubles, as the tests of compound conditions. *)
Definition Rltb (a b : R) : bool := if Rlt_dec a b then true else false.
Definition Rleb (a b : R) : bool := if Rle_dec a b then true else false.
Definition Rgtb (a b : R) : bool := Rltb b a.
Definition Rgeb (a b : R) : bool := Rleb b a.

(** [std::max(a, b)]: [b] when [a < b], else [a]. *)
Definition std_max (a b : R) : R := if Rlt_dec a b then b else a.

(** [std::numeric_limits<double>::max()]. *)
Definition DBL_MAX : R := (2 - / 2 ^ 52) * 2 ^ 1023.

(** [std::sort] on a vector of doubles: the ascending arrangement of its
    values, computed here by insertion. *)
Fixpoint insertSorted (v : R) (l : list R) : list R :=
  match l with
  | [] => [v]
  | a :: t => if Rle_dec v a then v :: a :: t else a :: insertSorted v t
  end.

Fixpoint std_sort (l : list R) : list R :=
  match l with
  | [] => []
  | a :: t => insertSorted a (std_sort t)
  end.

(** ** WaveEngine.h / WaveEngine.cpp *)

Module WaveEngine.

Record t : Type := mkEngine {
  waves_ : list WaveFunction;
  velocity_ : R;
  currentTime_ : R
}.

Definition addWave (wave : WaveFunction) (e : t) : t :=
  mkEngine (waves_ e ++ [wave]) (velocity_ e) (currentTime_ e).

(** [waves_.erase(waves_.begin() + index)], guarded by
    [index < waves_.size()]. *)
Definition removeWave (index : nat) (e : t) : t :=
  if (index <? length (waves_ e))%nat
  then mkEngine (firstn index (waves_ e) ++ skipn (S index) (waves_ e))
                (velocity_ e) (currentTime_ e)
  else e.

Definition clearWaves (e : t) : t :=
  mkEngine [] (velocity_ e) (currentTime_ e).

Definition getWaveCount (e : t) : nat := length (waves_ e).

(** The result is a pointer; [None] is [nullptr]. *)
Definition getWave (index : nat) (e : t) : option WaveFunction :=
  if (index <? length (waves_ e))%nat
  then nth_error (waves_ e) index
  else None.

Definition evaluateSuperposition (e : t) (x time : R) : R :=
  fold_left (fun result wave => result + evaluate wave x time) (waves_ e) 0.

(** The loop of [calculateBeatFrequency] over [frequencies[i-1]],
    [frequencies[i]], [i >= 1]; [prev] is [frequencies[i-1]]. *)
Fixpoint gapLoop (prev : R) (rest : list R) (minDiff : R) : R :=
  match rest with
  | [] => minDiff
  | f :: rest' =>
      let diff := f - prev in
      gapLoop f rest'
              (if Rgt_dec diff 0
               then if Rlt_dec diff minDiff then diff else minDiff
               else minDiff)
  end.

Definition calculateBeatFrequency (e : t) : R :=
  if (length (waves_ e) <? 2)%nat then 0
  else
    let frequencies := std_sort (map getFrequency (waves_ e)) in
    let minDiff :=
      match frequencies with
      | [] => DBL_MAX
      | f0 :: rest => gapLoop f0 rest DBL_MAX
      end in
    if Rlt_dec minDiff DBL_MAX then minDiff else 0.

Definition detectInterference (e : t) : bool :=
  (1 <? length (waves_ e))%nat.

(** The two nested loops of [detectPhenomenon]: is there [j > i] with
    [|frequencies[i] - frequencies[j]| < 0.01]? *)
Fixpoint closeToSome (fi : R) (later : list R) : bool :=
  match later with
  | [] => false
  | fj :: later' =>
      if Rlt_dec (Rabs (fi - fj)) 0.01 then true else closeToSome fi later'
  end.

Fixpoint hasResonance (frequencies : list R) : bool :=
  match frequencies with
  | [] => false
  | fi :: later => if closeToSome fi later then true else hasResonance later
  end.

Definition detectPhenomenon (e : t) : string :=
  if (length (waves_ e) =? 0)%nat then "No waves"%string
  else if (length (waves_ e) =? 1)%nat then "Single wave"%string
  else
    let beatFreq := calculateBeatFrequency e in
    if Rgtb beatFreq 0 && Rltb beatFreq 2 then "Beating"%string
    else if hasResonance (map getFrequency (waves_ e)) then "Resonance"%string
    else "Superposition"%string.

Definition calculateTotalEnergy (e : t) : R :=
  fold_left (fun totalEnergy wave => totalEnergy + getEnergy wave) (waves_ e) 0.

Definition getMaxAmplitude (e : t) : R :=
  fold_left (fun maxAmp wave => std_max maxAmp (getAmplitude wave))
            (waves_ e) 0.

Definition getDominantFrequency (e : t) : R :=
  snd (fold_left
         (fun (st : R * R) wave =>
            if Rgt_dec (getAmplitude wave) (fst st)
            then (getAmplitude wave, getFrequency wave) else st)
         (waves_ e) (0, 0)).

Definition evaluateWave (e : t) (waveIndex : nat) (x time : R) : R :=
  if (waveIndex <? length (waves_ e))%nat then
    match nth_error (waves_ e) waveIndex with
    | Some wave => evaluate wave x time
    | None => 0
    end
  else 0.





Definition generateSpatialSeries (e : t) (len rate time : R)
  : option (list R) :=
  let dx := 1 / rate in
  match toInt (len * rate) with
  | None => None
  | Some numSamples =>
      reserved numSamples
        (map (fun i => evaluateSuperposition e (INR i * dx) time)
             (seq 0 (Z.to_nat numSamples)))
  end.

Record WaveAnalysis : Type := mkAnalysis {
  maxAmplitude : R;
  minAmplitude : R;
  rmsAmplitude : R;
  an_frequency : R;
  an_period : R;
  an_energy : R;
  phenomenon : string
}.

(** [analyzeWaves]; the sample rate is not read. *)
Definition analyzeWaves (e : t) (data : list R) (rate : R) : WaveAnalysis :=
  match data with
  | [] => mkAnalysis 0 0 0 0 0 0 "No data"
  | _ :: _ =>
      let maxA := std_max_element data in
      let minA := std_min_element data in
      let rms := sqrt (sumSquares data / INR (length data)) in
      let energy := 0.5 * rms * rms in
      let freq := getDominantFrequency e in
      let period := if Rgt_dec freq 0 then 1 / freq else 0 in
      mkAnalysis maxA minA rms freq period energy (detectPhenomenon e)
  end.

End WaveEngine.

(** ** InterferenceCalculator.h / InterferenceCalculator.cpp *)

Module InterferenceCalculator.

Inductive InterferenceType : Type :=
| CONSTRUCTIVE | DESTRUCTIVE | PARTIAL | NO_INTERFERENCE.

Inductive NodeType : Type := NODE | ANTINODE.

Record InterferenceNode : Type := mkNode {
  node_position : R;
  node_amplitude : R;
  node_type : NodeType
}.

(** A description is what the source streams into its [ostringstream], piece
    by piece; the decimal rendering of a number is left to the stream. *)
Inductive piece : Type :=
| Text (s : string)
| Number (r : R)
| Count (n : nat).

Record InterferenceResult : Type := mkResult {
  type : InterferenceType;
  amplitude : R;
  phase : R;
  nodePositions : list R;
  antinodePositions : list R;
  beatFrequency : R;
  description : list piece
}.

Definition calculateBeatFrequency (f1 f2 : R) : R := Rabs (f1 - f2).

Definition calculateTotalAmplitude (waves : list WaveFunction)
           (position time : R) : R :=
  fold_left (fun total wave => total + evaluate wave position time) waves 0.

Definition classifyInterference (amplitude1 amplitude2 resultAmplitude
                                 tolerance : R) : InterferenceType :=
  let maxPossible := amplitude1 + amplitude2 in
  let minPossible := Rabs (amplitude1 - amplitude2) in
  if Rge_dec resultAmplitude (maxPossible - tolerance) then CONSTRUCTIVE
  else if Rle_dec resultAmplitude (minPossible + tolerance) then DESTRUCTIVE
  else PARTIAL.

(** [diff += 360.0] and [diff -= 360.0] on a [double].  Above [2^62] the
    doubles lie 1024 or more apart and 360 is less than half of that: the
    sum is rounded back to [diff], which stays as it was.  A real stands
    for the double nearest to it, and that double is above [2^62] exactly
    when the real is above [2^62 + 512], the bound [PHASE_STALL].  Up to
    that bound every step changes [diff] (below [2^62] the doubles lie at
    most 512 apart, less than twice 360), so that a loop ends, if only
    after some [|diff| / 360] passes; what the rounding of a step adds or
    takes is left out. *)
Definition PHASE_STALL : R := 4611686018427388416.

Definition plus360 (diff : R) : R :=
  if Rle_dec (Rabs diff) PHASE_STALL then diff + 360 else diff.

Definition minus360 (diff : R) : R :=
  if Rle_dec (Rabs diff) PHASE_STALL then diff - 360 else diff.

(** The two normalising loops of [calculatePhaseShift],
    [while (diff < 0) diff += 360.0] and [while (diff >= 360.0) diff -= 360.0].
    [None] is a loop that has not left through its guard when the fuel is
    used up.  With the fuel [turns diff] that they are given, the loops end
    whenever their steps change [diff] ([raiseLoop_exit], [lowerLoop_exit]
    below); when a step leaves [diff] as it was, the guard holds for ever,
    no fuel is enough and the source does not return ([raiseLoop_stalls],
    [lowerLoop_stalls]). *)
Fixpoint raiseLoop (fuel : nat) (diff : R) : option R :=
  if Rlt_dec diff 0 then
    match fuel with
    | O => None
    | S fuel' => raiseLoop fuel' (plus360 diff)
    end
  else Some diff.

Fixpoint lowerLoop (fuel : nat) (diff : R) : option R :=
  if Rge_dec diff 360 then
    match fuel with
    | O => None
    | S fuel' => lowerLoop fuel' (minus360 diff)
    end
  else Some diff.

Definition turns (diff : R) : nat := Z.to_nat (up (Rabs diff / 360)).

Definition calculatePhaseShift (wave1 wave2 : WaveFunction) : option R :=
  let phase1 := getPhase wave1 in
  let phase2 := getPhase wave2 in
  let diff := phase2 - phase1 in
  match raiseLoop (turns diff) diff with
  | None => None
  | Some diff1 => lowerLoop (turns diff1) diff1
  end.

(** [findLocalExtrema]: the indices [i], [1 <= i < size - 1], of the strict
    local maxima (or minima); [i] is the index of the middle sample of the
    window. *)
Fixpoint extremaLoop (findMaxima : bool) (i : nat) (data : list R) : list nat :=
  match data with
  | prev :: ((cur :: next :: _) as rest) =>
      let isExtremum :=
        if findMaxima then Rgtb cur prev && Rgtb cur next
        else Rltb cur prev && Rltb cur next in
      (if isExtremum then [i] else []) ++ extremaLoop findMaxima (S i) rest
  | _ => []
  end.

Definition findLocalExtrema (data : list R) (findMaxima : bool) : list nat :=
  extremaLoop findMaxima 1 data.

(** The positions visited by the sampling loops,
    [dx = length / (numPoints - 1)] and [x = i * dx] for
    [0 <= i < numPoints]. *)
Definition samplePositions (len : R) (numPoints : Z) : list R :=
  let dx := len / IZR (numPoints - 1) in
  map (fun i => INR i * dx) (seq 0 (Z.to_nat numPoints)).

Definition defaultNodeThreshold : R := 0.1.
Definition defaultTolerance : R := 0.1.

Definition findInterferenceNodes (waves : list WaveFunction)
           (time len : R) (numPoints : Z) (threshold : R)
  : list InterferenceNode :=
  let dx := len / IZR (numPoints - 1) in
  let amplitudes :=
    map (fun x => Rabs (calculateTotalAmplitude waves x time))
        (samplePositions len numPoints) in
  let minima := findLocalExtrema amplitudes false in
  let maxima := findLocalExtrema amplitudes true in
  let keep (nt : NodeType) (idx : nat) : list InterferenceNode :=
    let a := nth idx amplitudes 0 in
    let inRange := (Z.of_nat idx <? numPoints)%Z in
    let pass := match nt with
                | NODE => Rleb a threshold
                | ANTINODE => Rgeb a threshold
                end in
    if inRange && pass then [mkNode (INR idx * dx) a nt] else [] in
  flat_map (keep NODE) minima ++ flat_map (keep ANTINODE) maxima.

(** [*std::min_element] and [*std::max_element] of a vector; the source only
    takes them of a vector with at least one sample (0 stands for the
    dereference of [end()]). *)
Definition minElement (l : list R) : R :=
  match l with
  | [] => 0
  | a :: t => fold_left (fun m v => if Rlt_dec v m then v else m) t a
  end.

Definition maxElement (l : list R) : R :=
  match l with
  | [] => 0
  | a :: t => fold_left (fun m v => if Rlt_dec v m then m else v) t a
  end.

Definition generateDescription (ty : InterferenceType) (beat : R)
           (nodes antinodes : list R) : list piece :=
  (match ty with
   | CONSTRUCTIVE =>
       [Text "Constructive interference - waves reinforce each other"]
   | DESTRUCTIVE =>
       [Text "Destructive interference - waves cancel each other"]
   | PARTIAL =>
       Text "Partial interference"
       :: (if Rgt_dec beat 0
           then [Text " with beating at "; Number beat; Text " Hz"]
           else [])
   | NO_INTERFERENCE => [Text "No interference detected"]
   end)
  ++ (if (0 <? length nodes)%nat
      then [Text ". "; Count (length nodes); Text " nodes detected"] else [])
  ++ (if (0 <? length antinodes)%nat
      then [Text ". "; Count (length antinodes); Text " antinodes detected"]
      else []).

(** The vector [amplitudes] of [calculateTwoWaveInterference]: the sum of the
    two waves at each sampled position. *)
Definition sampledSum (wave1 wave2 : WaveFunction) (time len : R)
           (numPoints : Z) : list R :=
  map (fun x => evaluate wave1 x time + evaluate wave2 x time)
      (samplePositions len numPoints).

(** [calculateTwoWaveInterference].  [None] is a call that gives no
    result: [positions.reserve(numPoints)] throws on a negative count, and
    [calculatePhaseShift] does not return when its loops do not end. *)
Definition calculateTwoWaveInterference (wave1 wave2 : WaveFunction)
           (time len : R) (numPoints : Z) : option InterferenceResult :=
  let amplitudes := sampledSum wave1 wave2 time len numPoints in
  let amp := std_max (Rabs (minElement amplitudes))
                     (Rabs (maxElement amplitudes)) in
  if (numPoints <? 0)%Z then None
  else
    match calculatePhaseShift wave1 wave2 with
    | None => None
    | Some ph =>
        let ty := classifyInterference (getAmplitude wave1)
                                       (getAmplitude wave2)
                                       amp defaultTolerance in
        let beat := calculateBeatFrequency (getFrequency wave1)
                                           (getFrequency wave2) in
        let nodes := findInterferenceNodes [wave1; wave2] time len numPoints
                                           defaultNodeThreshold in
        let nodePos :=
          map node_position
              (filter (fun n => match node_type n with
                                | NODE => true | _ => false end) nodes) in
        let antiPos :=
          map node_position
              (filter (fun n => match node_type n with
                                | NODE => false | _ => true end) nodes) in
        Some (mkResult ty amp ph nodePos antiPos beat
                       (generateDescription ty beat nodePos antiPos))
    end.

Definition calculateBeatPeriod (f1 f2 : R) : R :=
  let beatFreq := calculateBeatFrequency f1 f2 in
  if Rgt_dec beatFreq 0 then 1 / beatFreq else 0.


(** [calculateStandingWave]: a forward and a backward travelling wave, with
    unit velocity ([k = omega]). *)
Definition calculateStandingWave (amplitude1 amplitude2 frequency phaseShift
                                  len : R) (numPoints : Z) (time : R)
  : option (list R) :=
  let dx := len / IZR (numPoints - 1) in
  let k := Physics.TWO_PI * frequency in
  let omega := Physics.TWO_PI * frequency in
  reserved numPoints
    (map (fun i =>
            let x := INR i * dx in
            let forward := amplitude1 * sin (k * x - omega * time) in
            let backward :=
              amplitude2 * sin (k * x + omega * time + phaseShift) in
            forward + backward)
         (seq 0 (Z.to_nat numPoints))).

(** [areInPhase] and [areOutOfPhase] answer when [calculatePhaseShift]
    returns. *)
Definition areInPhase (wave1 wave2 : WaveFunction) (tolerance : R)
  : option bool :=
  match calculatePhaseShift wave1 wave2 with
  | None => None
  | Some phaseDiff =>
      Some (Rleb phaseDiff tolerance || Rleb (Rabs (phaseDiff - 360)) tolerance)
  end.

Definition areOutOfPhase (wave1 wave2 : WaveFunction) (tolerance : R)
  : option bool :=
  match calculatePhaseShift wave1 wave2 with
  | None => None
  | Some phaseDiff => Some (Rleb (Rabs (phaseDiff - 180)) tolerance)
  end.

(** The two nested loops of [detectResonance]: is there [j > i] with
    [|freq_i - freq_j| <= frequencyTolerance]? *)
Fixpoint withinOfSome (tolerance fi : R) (later : list WaveFunction) : bool :=
  match later with
  | [] => false
  | wj :: later' =>
      if Rle_dec (Rabs (fi - getFrequency wj)) tolerance then true
      else withinOfSome tolerance fi later'
  end.

Fixpoint resonantPair (tolerance : R) (waves : list WaveFunction) : bool :=
  match waves with
  | [] => false
  | wi :: later =>
      if withinOfSome tolerance (getFrequency wi) later then true
      else resonantPair tolerance later
  end.

Definition detectResonance (waves : list WaveFunction)
           (frequencyTolerance : R) : bool :=
  if (length waves <? 2)%nat then false
  else resonantPair frequencyTolerance waves.

Definition defaultFrequencyTolerance : R := 0.01.

Definition calculateResonanceAmplification (waves : list WaveFunction) : R :=
  match waves with
  | [] => 0
  | _ :: _ =>
      let individualSum :=
        fold_left (fun sum wave => sum + getAmplitude wave) waves 0 in
      let totalAmplitude := Rabs (calculateTotalAmplitude waves 0 0) in
      if Rgt_dec individualSum 0 then totalAmplitude / individualSum else 0
  end.

Definition calculateRMSAmplitude (data : list R) : R :=
  match data with
  | [] => 0
  | _ :: _ => sqrt (sumSquares data / INR (length data))
  end.

(** [calculateMultiWaveInterference].  The result starts as a
    default-constructed [InterferenceResult], whose doubles hold no
    particular value; [unset] stands for a double the function never
    assigns on the path taken. *)
Definition calculateMultiWaveInterference (unset : R)
           (waves : list WaveFunction) (time len : R) (numPoints : Z)
  : option InterferenceResult :=
  match waves with
  | [] =>
      Some (mkResult NO_INTERFERENCE unset unset [] [] unset
                     [Text "No waves provided"])
  | [w0] =>
      Some (mkResult NO_INTERFERENCE (getAmplitude w0) unset [] [] unset
                     [Text "Single wave - no interference"])
  | w0 :: w1 :: _ =>
      let amplitudes :=
        map (fun x => calculateTotalAmplitude waves x time)
            (samplePositions len numPoints) in
      let amp := std_max (Rabs (minElement amplitudes))
                         (Rabs (maxElement amplitudes)) in
      let beat := calculateBeatFrequency (getFrequency w0) (getFrequency w1) in
      let nodes := findInterferenceNodes waves time len numPoints
                                         defaultNodeThreshold in
      let nodePos :=
        map node_position
            (filter (fun n => match node_type n with
                              | NODE => true | _ => false end) nodes) in
      let antiPos :=
        map node_position
            (filter (fun n => match node_type n with
                              | NODE => false | _ => true end) nodes) in
      reserved numPoints
        (if detectResonance waves defaultFrequencyTolerance then
           mkResult CONSTRUCTIVE amp unset nodePos antiPos beat
                    [Text "Resonance detected - constructive interference"]
         else if Rgtb beat 0 && Rltb beat 2 then
           mkResult PARTIAL amp unset nodePos antiPos beat
                    [Text "Beat phenomenon detected"]
         else
           mkResult PARTIAL amp unset nodePos antiPos beat
                    [Text "Complex multi-wave interference"])
  end.

End InterferenceCalculator.

(** ** Notions of the specification

    Definitions that follow the words of the specification; the theorems
    compare them with the functions above. *)

(** The gaps between consecutive values of a list. *)
Fixpoint consecutiveGaps (l : list R) : list R :=
  match l with
  | a :: ((b :: _) as rest) => (b - a) :: consecutiveGaps rest
  | _ => []
  end.

(** The smallest of the positive values of a list; 0 when there is none. *)
Definition minPositive (gaps : list R) : R :=
  match filter (fun g => Rgtb g 0) gaps with
  | [] => 0
  | g :: gs => fold_left Rmin gs g
  end.

(** "The sorted wave frequencies": an arrangement of the same values in
    ascending order. *)
Definition ascending (freqs sorted : list R) : Prop :=
  Permutation freqs sorted /\ LocallySorted Rle sorted.

(** The beat frequency read off an ascending arrangement: the minimum
    positive gap between consecutive values; 0 with fewer than two values
    or with no positive gap. *)
Definition beatOfSorted (sorted : list R) : R :=
  if (length sorted <? 2)%nat then 0
  else minPositive (consecutiveGaps sorted).

(** The same, read off the arrangement that [std_sort] answers (it is the
    ascending one, [std_sort_ascending] below). *)
Definition beatFrequency_spec (freqs : list R) : R :=
  if (length freqs <? 2)%nat then 0
  else minPositive (consecutiveGaps (std_sort freqs)).

(** Some two waves have frequencies less than 0.01 Hz apart. *)
Definition closePair (freqs : list R) : Prop :=
  exists i j fi fj,
    i <> j /\ nth_error freqs i = Some fi /\ nth_error freqs j = Some fj
    /\ Rabs (fi - fj) < 0.01.

(** The longest prefix whose elements pass a test. *)
Fixpoint takeWhile {A : Type} (test : A -> bool) (l : list A) : list A :=
  match l with
  | [] => []
  | a :: t => if test a then a :: takeWhile test t else []
  end.

(** "The non-DC bin of maximum magnitude": a bin after the first whose
    magnitude no other such bin exceeds. *)
Definition maxNonDCBin (sp : FrequencySpectrum) (b : FrequencyBin) : Prop :=
  In b (tl (bins sp))
  /\ forall b', In b' (tl (bins sp)) -> bin_magnitude b' <= bin_magnitude b.

(** The orders [findHarmonics] looks at: 1 to 10, up to the first whose
    target [order * fundamental] exceeds [maxFrequency]. *)
Definition ordersVisited (sp : FrequencySpectrum) (fundamentalFreq : R)
  : list Z :=
  takeWhile (fun order => negb (Rgtb (IZR order * fundamentalFreq)
                                     (maxFrequency sp)))
            FourierAnalyzer.orders_1_10.

(** Bin [c] is nearest to [targetFreq], at distance [d]; among the bins at
    that distance it has the lowest index. *)
Definition nearestBin (bs : list FrequencyBin) (targetFreq : R)
           (c : nat) (d : R) : Prop :=
  (c < length bs)%nat
  /\ d = Rabs (bin_frequency (nth c bs FourierAnalyzer.dummyBin) - targetFreq)
  /\ (forall j, (j < length bs)%nat ->
        d <= Rabs (bin_frequency (nth j bs FourierAnalyzer.dummyBin) - targetFreq))
  /\ (forall j, (j < c)%nat ->
        d < Rabs (bin_frequency (nth j bs FourierAnalyzer.dummyBin) - targetFreq)).

(** What one visited order contributes: the nearest bin as a harmonic of
    that order, when it is within twice the resolution of the target and its
    magnitude reaches the threshold. *)
Definition acceptedAt (sp : FrequencySpectrum) (threshold fundamentalFreq : R)
           (order : Z) : list Harmonic :=
  let '(c, d) := FourierAnalyzer.findClosest (bins sp)
                                             (IZR order * fundamentalFreq) in
  let b := nth c (bins sp) FourierAnalyzer.dummyBin in
  if Rleb d (2 * frequencyResolution sp) && Rgeb (bin_magnitude b) threshold
  then [mkHarmonic (bin_frequency b) (bin_magnitude b) (bin_phase b) order]
  else [].

(** C5 as the specification states it: whatever non-DC bin of maximum magnitude is
    taken as fundamental, the result is empty when its frequency is 0 or its
    magnitude is below the threshold, and otherwise what the visited orders
    contribute. *)
Definition findHarmonics_as_specified (sp : FrequencySpectrum) (threshold : R)
  : Prop :=
  forall b, maxNonDCBin sp b ->
    ((bin_frequency b = 0 \/ bin_magnitude b < threshold) ->
     FourierAnalyzer.findHarmonics sp threshold = [])
    /\ (~ (bin_frequency b = 0 \/ bin_magnitude b < threshold) ->
        FourierAnalyzer.findHarmonics sp threshold
        = flat_map (acceptedAt sp threshold (bin_frequency b))
                   (ordersVisited sp (bin_frequency b))).

(** The algebra of samples used to state the transform: one, opposite,
    conjugate, the point of the unit circle at an angle, and finite sums. *)
Definition Cone : Complex := mkComplex 1 0.

Definition Copp (a : Complex) : Complex := mkComplex (- real a) (- imag a).

Definition Cconj (a : Complex) : Complex := mkComplex (real a) (- imag a).

Definition ofReal (v : R) : Complex := mkComplex v 0.

Definition cis (angle : R) : Complex := mkComplex (cos angle) (sin angle).

Fixpoint Csum (f : nat -> Complex) (n : nat) : Complex :=
  match n with
  | O => C0
  | S n' => Cadd (Csum f n') (f n')
  end.

(** The [j]-th power of the [d]-th of the [n] roots of unity,
    [e^(-2 pi i d j / n)]; [d] may be negative. *)
Definition rootPower (n : nat) (d : Z) (j : nat) : Complex :=
  cis (- (2 * PI) * IZR d * INR j / INR n).

(** The discrete Fourier transform, by its defining sum: component [k] of
    the transform of [x] is the sum over [j] of [x[j] * e^(-2 pi i j k / N)]. *)
Definition dft (x : list Complex) (k : nat) : Complex :=
  Csum (fun j => Cmul (nth j x C0)
                      (FourierAnalyzer.twiddle (j * k) (length x)))
       (length x).

(** The inverse transform, by its defining sum: component [k] is
    [1/N] times the sum over [j] of [y[j] * e^(+2 pi i j k / N)]. *)
Definition inverse_dft (y : list Complex) (k : nat) : Complex :=
  Cmul (mkComplex (/ INR (length y)) 0)
       (Csum (fun j => Cmul (nth j y C0)
                            (Cconj (FourierAnalyzer.twiddle (j * k) (length y))))
             (length y)).

(** The sum of a list of reals. *)
Definition Rsum (l : list R) : R := fold_right Rplus 0 l.

(** A strict local extremum among three consecutive samples: the middle
    one above both neighbours (a maximum) or below both (a minimum). *)
Definition strictExtremum (findMaxima : bool) (prev cur next : R) : Prop :=
  if findMaxima then cur > prev /\ cur > next else cur < prev /\ cur < next.

(** A real signal as complex samples, followed by zeros up to the next
    power of two. *)
Definition padded (signal : list R) : list Complex :=
  map ofReal signal
  ++ repeat C0 (FourierAnalyzer.nextPowerOfTwo (length signal)
                - length signal).

(** ** Sample inputs

    The concrete engines, spectra and signals the theorems are tried on. *)

(** Two waves. *)
Definition twoWaveEngine : WaveEngine.t :=
  WaveEngine.mkEngine [SinusoidalWave 1 1 0; CosineWave 2 3 90] 1 0.

(** Two waves of negative amplitude. *)
Definition negativeEngine : WaveEngine.t :=
  WaveEngine.mkEngine [SinusoidalWave (-3) 1 0; SquareWave (-1) 2 0] 1 0.

(** Two sinusoids at 1.0 Hz and 1.1 Hz. *)
Definition beatingEngine : WaveEngine.t :=
  WaveEngine.mkEngine [SinusoidalWave 1 1 0; SinusoidalWave 1 1.1 0] 1 0.

(** Two waves at 5 Hz. *)
Definition resonantEngine : WaveEngine.t :=
  WaveEngine.mkEngine [SinusoidalWave 1 5 0; CosineWave 2 5 0] 1 0.

(** Two waves 4 Hz apart. *)
Definition apartEngine : WaveEngine.t :=
  WaveEngine.mkEngine [SinusoidalWave 1 1 0; CosineWave 2 5 0] 1 0.

(** The spectrum of two silent samples taken at 2 Hz: a DC bin and a 1 Hz
    bin, both of magnitude 0. *)
Definition silentSpectrum : FrequencySpectrum :=
  mkSpectrum [mkBin 0 0 0; mkBin 1 0 0] 2 1 1 [].

(** A fundamental at 1 Hz with a weaker second harmonic. *)
Definition twoToneSpectrum : FrequencySpectrum :=
  mkSpectrum [mkBin 0 0 0; mkBin 1 1 0; mkBin 2 0.5 0] 4 1 2 [].

(** One period of a sine, sampled four times. *)
Definition tone : list R := [0; 1; 0; -1].

(* ===================================================================== *)
(** * Theorems                                                            *)
(* ===================================================================== *)

Import FourierAnalyzer.

(** ** Sizes: [nextPowerOfTwo] and the length of a transform *)

Section PowerOfTwo.

(** The doubling loop, started at a positive [p] with enough fuel, stops at
    [p * 2^j] for the first [j] that reaches [n]. *)
Lemma pow2_loop_spec (fuel p n : nat) :
  (0 < p)%nat -> (n <= p + fuel)%nat ->
  exists j : nat,
    pow2_loop fuel p n = (p * 2 ^ j)%nat
    /\ (n <= p * 2 ^ j)%nat
    /\ (j = 0%nat \/ (p * 2 ^ (j - 1) < n)%nat).
Proof.
  revert p. induction fuel as [|fuel IH]; intros p Hp Hn; simpl.
  - exists 0%nat. simpl. lia.
  - destruct (Nat.ltb_spec p n) as [Hlt|Hge].
    + destruct (IH (p * 2)%nat) as (j & Hr & Hle & Hmin); try lia.
      exists (S j). rewrite Hr. simpl Nat.pow.
      replace (S j - 1)%nat with j by lia.
      split; [lia|]. split; [lia|]. right.
      destruct Hmin as [->|Hmin]; [simpl; lia|].
      destruct j as [|j']; [simpl in *; lia|].
      replace (S j' - 1)%nat with j' in Hmin by lia.
      simpl Nat.pow. lia.
    + exists 0%nat. simpl. lia.
Qed.

(** The loop of [nextPowerOfTwo] leaves through its guard: the fuel is
    never what stops it. *)
Lemma pow2_loop_exit (n : nat) :
  (1 < n)%nat -> ~ (pow2_loop n 1 n < n)%nat.
Proof.
  intros Hn. destruct (pow2_loop_spec n 1 n) as (j & Hr & Hle & _); lia.
Qed.

Lemma nextPowerOfTwo_spec (n : nat) :
  exists j : nat,
    nextPowerOfTwo n = (2 ^ j)%nat
    /\ (n <= 2 ^ j)%nat
    /\ (j = 0%nat \/ (2 ^ (j - 1) < n)%nat).
Proof.
  unfold nextPowerOfTwo. destruct (Nat.leb_spec n 1) as [Hle|Hgt].
  - exists 0%nat. simpl. lia.
  - destruct (pow2_loop_spec n 1 n) as (j & Hr & Hle & Hmin); try lia.
    exists j. rewrite Hr. rewrite !Nat.mul_1_l in *. auto.
Qed.

Lemma pow2_le_mono (a b : nat) : (a <= b)%nat -> (2 ^ a <= 2 ^ b)%nat.
Proof. intros H. apply Nat.pow_le_mono_r; lia. Qed.

(** [nextPowerOfTwo n] is below every power of two that is at least [n]. *)
Lemma nextPowerOfTwo_least (n k : nat) :
  (n <= 2 ^ k)%nat -> (nextPowerOfTwo n <= 2 ^ k)%nat.
Proof.
  intros Hk. destruct (nextPowerOfTwo_spec n) as (j & -> & _ & [->|Hmin]).
  - simpl. pose proof (pow2_le_mono 0 k). simpl in *. lia.
  - destruct (Nat.le_gt_cases j k) as [Hjk|Hjk];
      [now apply pow2_le_mono|].
    pose proof (pow2_le_mono k (j - 1)). lia.
Qed.

Lemma nextPowerOfTwo_pow2 (k : nat) : nextPowerOfTwo (2 ^ k) = (2 ^ k)%nat.
Proof.
  apply Nat.le_antisymm.
  - apply nextPowerOfTwo_least. lia.
  - destruct (nextPowerOfTwo_spec (2 ^ k)) as (j & -> & Hle & _). exact Hle.
Qed.

End PowerOfTwo.

Lemma combineStep_length (n : nat) (e o : list Complex) :
  length (combineStep n e o) = n.
Proof.
  unfold combineStep. rewrite !length_app, !length_map, !length_seq, repeat_length.
  pose proof (Nat.div_mod_eq n 2).
  pose proof (Nat.mod_upper_bound n 2). lia.
Qed.

Lemma fftRecursive_length (x : list Complex) :
  length (fftRecursive x) = length x.
Proof.
  funelim (fftRecursive x); simp fftRecursive; try reflexivity.
  apply combineStep_length.
Qed.

Lemma resize_length (n : nat) (v : list Complex) : length (resize n v) = n.
Proof.
  unfold resize. rewrite length_app, length_firstn, repeat_length. lia.
Qed.

Lemma fft_length (signal : list R) :
  length (fft signal) = nextPowerOfTwo (length signal).
Proof.
  unfold fft. rewrite fftRecursive_length. apply resize_length.
Qed.

(** C9.  For every input signal, [fft] returns a vector whose length is the
    smallest power of two that is at least the input length and at least 1;
    the transform of the empty signal is the one-sample vector holding the
    zero sample. *)
Theorem fft_length_least_power_of_two (signal : list R) :
  (exists j : nat, length (fft signal) = (2 ^ j)%nat)
  /\ (length signal <= length (fft signal))%nat
  /\ (1 <= length (fft signal))%nat
  /\ (forall k : nat,
        (length signal <= 2 ^ k)%nat -> (length (fft signal) <= 2 ^ k)%nat)
  /\ fft [] = [C0].
Proof.
  rewrite fft_length.
  destruct (nextPowerOfTwo_spec (length signal)) as (j & Hj & Hle & _).
  split; [now exists j|]. split; [lia|]. split.
  - rewrite Hj. pose proof (pow2_le_mono 0 j). simpl in *. lia.
  - split; [intros k; apply nextPowerOfTwo_least|].
    unfold fft. simpl. now simp fftRecursive.
Qed.

(** The minimality clause of C9 at the three-sample signal: its transform has
    at most four samples. *)
Lemma fft_length_least_power_of_two_witness :
  (length (fft [1; 2; 3]%R) <= 2 ^ 2)%nat.
Proof.
  destruct (fft_length_least_power_of_two [1; 2; 3]) as (_ & _ & _ & Hmin & _).
  apply Hmin. simpl. lia.
Defined.

(** ** Lists *)

Lemma nth_map_seq {A : Type} (f : nat -> A) (n i : nat) (d : A) :
  (i < n)%nat -> nth i (map f (seq 0 n)) d = f i.
Proof.
  intros Hi. rewrite nth_indep with (d' := f 0%nat)
    by (rewrite length_map, length_seq; exact Hi).
  rewrite map_nth, seq_nth by exact Hi. reflexivity.
Qed.

Lemma map_nth_in {A B : Type} (f : A -> B) (l : list A) (k : nat) (d : A)
      (d' : B) :
  (k < length l)%nat -> nth k (map f l) d' = f (nth k l d).
Proof.
  intros Hk. rewrite nth_indep with (d' := f d) by (now rewrite length_map).
  apply map_nth.
Qed.

(** ** Deciding comparisons of reals *)

(** [plain t]: the term [t] tests no comparison itself. *)
Ltac plain t :=
  lazymatch t with
  | context [Rlt_dec] => fail
  | context [Rle_dec] => fail
  | context [Rgt_dec] => fail
  | context [Rge_dec] => fail
  | context [Req_dec_T] => fail
  | context [Rcase_abs] => fail
  | _ => idtac
  end.

(** Case analysis on the comparisons the goal tests, innermost first,
    closing the branches that arithmetic refutes. *)
Ltac decide_real c :=
  let H := fresh "Hcmp" in
  destruct c as [H|H]; try lra; try (cbn in H; lra).

Ltac real_cases :=
  repeat match goal with
         | |- context [Rcase_abs ?a] => plain a; decide_real (Rcase_abs a)
         | |- context [Rlt_dec ?a ?b] =>
             plain a; plain b; decide_real (Rlt_dec a b)
         | |- context [Rle_dec ?a ?b] =>
             plain a; plain b; decide_real (Rle_dec a b)
         | |- context [Rgt_dec ?a ?b] =>
             plain a; plain b; decide_real (Rgt_dec a b)
         | |- context [Rge_dec ?a ?b] =>
             plain a; plain b; decide_real (Rge_dec a b)
         | |- context [Req_dec_T ?a ?b] =>
             plain a; plain b; decide_real (Req_dec_T a b)
         end.

Lemma Rltb_true (a b : R) : Rltb a b = true <-> a < b.
Proof. unfold Rltb. destruct (Rlt_dec a b); split; auto; discriminate. Qed.

Lemma Rltb_false (a b : R) : Rltb a b = false <-> ~ a < b.
Proof.
  unfold Rltb. destruct (Rlt_dec a b); split; auto; try discriminate.
  intros H; contradiction.
Qed.

Lemma Rleb_true (a b : R) : Rleb a b = true <-> a <= b.
Proof. unfold Rleb. destruct (Rle_dec a b); split; auto; discriminate. Qed.

Lemma Rgtb_true (a b : R) : Rgtb a b = true <-> a > b.
Proof. unfold Rgtb. rewrite Rltb_true. unfold Rgt. tauto. Qed.

Lemma Rgeb_true (a b : R) : Rgeb a b = true <-> a >= b.
Proof. unfold Rgeb. rewrite Rleb_true. split; lra. Qed.

(** ** The algebra of samples *)

Lemma Complex_ext (a b : Complex) :
  real a = real b -> imag a = imag b -> a = b.
Proof. destruct a, b. simpl. now intros -> ->. Qed.

(** Equality of two samples, by their components. *)
Ltac sample_eq :=
  apply Complex_ext;
  cbn [real imag Cadd Csub Cmul Copp Cconj C0 Cone ofReal cis];
  try ring.

Lemma Complex_ring :
  ring_theory C0 Cone Cadd Cmul Csub Copp (@eq Complex).
Proof.
  constructor; intros; sample_eq.
Qed.

Add Ring ComplexRing : Complex_ring.

Section UnitCircle.

Lemma cis_0 : cis 0 = Cone.
Proof. unfold cis. now rewrite cos_0, sin_0. Qed.

Lemma cis_add (a b : R) : cis (a + b) = Cmul (cis a) (cis b).
Proof. unfold cis. rewrite cos_plus, sin_plus. sample_eq. Qed.

Lemma cis_neg (a : R) : cis (- a) = Cconj (cis a).
Proof. unfold cis. rewrite cos_neg, sin_neg. reflexivity. Qed.

Lemma cis_PI : cis PI = Copp Cone.
Proof. unfold cis. rewrite cos_PI, sin_PI. sample_eq. Qed.

Lemma cis_turns_nat (k : nat) : cis (2 * INR k * PI) = Cone.
Proof.
  unfold cis. replace (2 * INR k * PI) with (0 + 2 * INR k * PI) by ring.
  now rewrite cos_period, sin_period, cos_0, sin_0.
Qed.

(** A whole number of turns, either way round, is the point 1. *)
Lemma cis_turns (z : Z) : cis (2 * IZR z * PI) = Cone.
Proof.
  destruct (Z.le_gt_cases 0 z) as [Hz|Hz].
  - rewrite <- (Z2Nat.id z Hz), <- INR_IZR_INZ. apply cis_turns_nat.
  - replace (2 * IZR z * PI) with (- (2 * IZR (- z) * PI))
      by (rewrite opp_IZR; ring).
    rewrite cis_neg, <- (Z2Nat.id (- z)) by lia.
    rewrite <- INR_IZR_INZ, cis_turns_nat. sample_eq.
Qed.

Lemma Cconj_mul (a b : Complex) : Cconj (Cmul a b) = Cmul (Cconj a) (Cconj b).
Proof. sample_eq. Qed.

Lemma Cconj_add (a b : Complex) : Cconj (Cadd a b) = Cadd (Cconj a) (Cconj b).
Proof. sample_eq. Qed.

Lemma Cconj_conj (a : Complex) : Cconj (Cconj a) = a.
Proof. sample_eq. Qed.

End UnitCircle.

(** ** Finite sums of samples *)

Section Sums.

Lemma Csum_ext (f g : nat -> Complex) (n : nat) :
  (forall i, (i < n)%nat -> f i = g i) -> Csum f n = Csum g n.
Proof.
  induction n as [|n IH]; intros H; simpl; [reflexivity|].
  rewrite IH by (intros i Hi; apply H; lia).
  rewrite (H n) by lia. reflexivity.
Qed.

Lemma Csum_add (f g : nat -> Complex) (n : nat) :
  Csum (fun i => Cadd (f i) (g i)) n = Cadd (Csum f n) (Csum g n).
Proof. induction n as [|n IH]; simpl; [ring|]. rewrite IH. ring. Qed.

Lemma Csum_scale_l (c : Complex) (f : nat -> Complex) (n : nat) :
  Csum (fun i => Cmul c (f i)) n = Cmul c (Csum f n).
Proof. induction n as [|n IH]; simpl; [ring|]. rewrite IH. ring. Qed.

Lemma Csum_scale_r (c : Complex) (f : nat -> Complex) (n : nat) :
  Csum (fun i => Cmul (f i) c) n = Cmul (Csum f n) c.
Proof. induction n as [|n IH]; simpl; [ring|]. rewrite IH. ring. Qed.

Lemma Csum_zero (n : nat) : Csum (fun _ => C0) n = C0.
Proof. induction n as [|n IH]; simpl; [reflexivity|]. rewrite IH. ring. Qed.

Lemma Csum_conj (f : nat -> Complex) (n : nat) :
  Cconj (Csum f n) = Csum (fun i => Cconj (f i)) n.
Proof.
  induction n as [|n IH]; simpl; [sample_eq|]. now rewrite Cconj_add, IH.
Qed.

(** A sum over [2h] indices, split by the parity of the index. *)
Lemma Csum_even_odd (f : nat -> Complex) (h : nat) :
  Csum f (2 * h)
  = Cadd (Csum (fun j => f (2 * j)%nat) h)
         (Csum (fun j => f (2 * j + 1)%nat) h).
Proof.
  induction h as [|h IH]; [simpl; ring|].
  replace (2 * S h)%nat with (S (S (2 * h))) by lia.
  cbn [Csum]. rewrite IH.
  replace (S (2 * h)) with (2 * h + 1)%nat by lia. ring.
Qed.

(** The order of two nested sums does not matter. *)
Lemma Csum_swap (g : nat -> nat -> Complex) (n m : nat) :
  Csum (fun i => Csum (fun j => g i j) m) n
  = Csum (fun j => Csum (fun i => g i j) n) m.
Proof.
  induction n as [|n IH]; cbn [Csum].
  - now rewrite Csum_zero.
  - now rewrite IH, <- Csum_add.
Qed.

(** A sum whose terms vanish off one index is the term of that index. *)
Lemma Csum_single (g : nat -> Complex) (k n : nat) :
  (k < n)%nat ->
  Csum (fun i => if (i =? k)%nat then g i else C0) n = g k.
Proof.
  induction n as [|n IH]; intros Hk; [lia|]. cbn [Csum].
  destruct (Nat.eqb_spec n k) as [->|Hne].
  - rewrite (Csum_ext _ (fun _ => C0)), Csum_zero; [ring|].
    intros i Hi. destruct (Nat.eqb_spec i k); [lia|reflexivity].
  - rewrite IH by lia. ring.
Qed.

End Sums.

(** ** Twiddle factors *)

Section Twiddles.

Lemma twiddle_cis (e n : nat) :
  twiddle e n = cis (- (2 * PI) * INR e / INR n).
Proof. reflexivity. Qed.

Lemma twiddle_add (a b n : nat) :
  twiddle (a + b) n = Cmul (twiddle a n) (twiddle b n).
Proof.
  rewrite !twiddle_cis, <- cis_add, plus_INR. f_equal. unfold Rdiv. ring.
Qed.

Lemma twiddle_double (e h : nat) :
  (0 < h)%nat -> twiddle (2 * e) (2 * h) = twiddle e h.
Proof.
  intros Hh. rewrite !twiddle_cis, !mult_INR. f_equal.
  assert (INR h <> 0) by (apply not_0_INR; lia).
  simpl. field. assumption.
Qed.

Lemma twiddle_period (n j e : nat) :
  (0 < n)%nat -> twiddle (n * j + e) n = twiddle e n.
Proof.
  intros Hn. rewrite twiddle_add. rewrite (twiddle_cis (n * j)), mult_INR.
  assert (INR n <> 0) by (apply not_0_INR; lia).
  replace (- (2 * PI) * (INR n * INR j) / INR n)
    with (- (2 * INR j * PI)) by (field; assumption).
  rewrite cis_neg, cis_turns_nat. ring_simplify.
  replace (Cconj Cone) with Cone by sample_eq. ring.
Qed.

Lemma twiddle_half (h : nat) :
  (0 < h)%nat -> twiddle h (2 * h) = Copp Cone.
Proof.
  intros Hh. rewrite twiddle_cis, mult_INR.
  assert (INR h <> 0) by (apply not_0_INR; lia).
  replace (- (2 * PI) * INR h / (INR 2 * INR h)) with (- PI)
    by (simpl; field; assumption).
  rewrite cis_neg, cis_PI. sample_eq.
Qed.

Lemma twiddle_zero (n : nat) : twiddle 0 n = mkComplex 1 0.
Proof.
  unfold twiddle. cbn [INR].
  replace (- Physics.TWO_PI * 0 / INR n) with 0 by (unfold Rdiv; ring).
  now rewrite cos_0, sin_0.
Qed.

Lemma twiddle_quarter : twiddle 1 4 = mkComplex 0 (-1).
Proof.
  unfold twiddle, Physics.TWO_PI, Physics.PI.
  replace (- (2 * PI) * INR 1 / INR 4) with (- (PI / 2)) by (simpl; field).
  now rewrite cos_neg, sin_neg, cos_PI2, sin_PI2.
Qed.

End Twiddles.

(** ** The recursive transform computes the defining sum *)

Section FastTransform.

Lemma evenIndexed_cons (a : Complex) (t : list Complex) :
  evenIndexed (a :: t) = a :: oddIndexed t.
Proof. destruct t; reflexivity. Qed.

Lemma oddIndexed_cons (a : Complex) (t : list Complex) :
  oddIndexed (a :: t) = evenIndexed t.
Proof. reflexivity. Qed.

Lemma halves_nth (x : list Complex) (j : nat) :
  nth j (evenIndexed x) C0 = nth (2 * j) x C0
  /\ nth j (oddIndexed x) C0 = nth (2 * j + 1) x C0.
Proof.
  revert j. induction x as [|a t IH]; intros j.
  - unfold oddIndexed. cbn [tl evenIndexed].
    split; [generalize (2 * j)%nat|generalize (2 * j + 1)%nat];
      intros n; destruct j, n; reflexivity.
  - rewrite evenIndexed_cons, oddIndexed_cons. split.
    + destruct j as [|j]; [reflexivity|].
      replace (2 * S j)%nat with (S (2 * j + 1)) by lia.
      cbn [nth]. apply IH.
    + replace (2 * j + 1)%nat with (S (2 * j)) by lia.
      cbn [nth]. apply IH.
Qed.

Lemma halves_length (h : nat) (x : list Complex) :
  length x = (2 * h)%nat ->
  length (evenIndexed x) = h /\ length (oddIndexed x) = h.
Proof.
  revert x. induction h as [|h IH]; intros x Hlen.
  - destruct x; [split; reflexivity|simpl in Hlen; lia].
  - destruct x as [|a [|b t]]; try (simpl in Hlen; lia).
    rewrite evenIndexed_cons, !oddIndexed_cons, evenIndexed_cons.
    destruct (IH t) as (He & Ho); [simpl in Hlen; lia|].
    cbn [length]. now rewrite He, Ho.
Qed.

Lemma combineStep_nth_low (h k : nat) (e o : list Complex) :
  (k < h)%nat ->
  nth k (combineStep (2 * h) e o) C0
  = Cadd (nth k e C0) (Cmul (twiddle k (2 * h)) (nth k o C0)).
Proof.
  intros Hk. unfold combineStep.
  replace (2 * h / 2)%nat with h by (rewrite Nat.mul_comm, Nat.div_mul; lia).
  rewrite app_nth1 by (rewrite length_map, length_seq; exact Hk).
  now rewrite nth_map_seq.
Qed.

Lemma combineStep_nth_high (h k : nat) (e o : list Complex) :
  (k < h)%nat ->
  nth (k + h) (combineStep (2 * h) e o) C0
  = Csub (nth k e C0) (Cmul (twiddle k (2 * h)) (nth k o C0)).
Proof.
  intros Hk. unfold combineStep.
  replace (2 * h / 2)%nat with h by (rewrite Nat.mul_comm, Nat.div_mul; lia).
  rewrite app_nth2 by (rewrite length_map, length_seq; lia).
  rewrite length_map, length_seq.
  replace (k + h - h)%nat with k by lia.
  rewrite app_nth1 by (rewrite length_map, length_seq; exact Hk).
  now rewrite nth_map_seq.
Qed.

(** The defining sum of a vector of [2h] samples, from those of its two
    halves: the lower components... *)
Lemma dft_split_low (x : list Complex) (h k : nat) :
  (0 < h)%nat -> length x = (2 * h)%nat ->
  dft x k
  = Cadd (dft (evenIndexed x) k)
         (Cmul (twiddle k (2 * h)) (dft (oddIndexed x) k)).
Proof.
  intros Hh Hlen. destruct (halves_length h x Hlen) as (He & Ho).
  unfold dft. rewrite Hlen, He, Ho, Csum_even_odd, <- Csum_scale_l.
  f_equal; apply Csum_ext; intros j Hj.
  - destruct (halves_nth x j) as (-> & _).
    replace (2 * j * k)%nat with (2 * (j * k))%nat by lia.
    now rewrite twiddle_double.
  - destruct (halves_nth x j) as (_ & ->).
    replace ((2 * j + 1) * k)%nat with (2 * (j * k) + k)%nat by lia.
    rewrite twiddle_add, twiddle_double by exact Hh. ring.
Qed.

(** ... and the upper components. *)
Lemma dft_split_high (x : list Complex) (h k : nat) :
  (0 < h)%nat -> length x = (2 * h)%nat ->
  dft x (k + h)
  = Csub (dft (evenIndexed x) k)
         (Cmul (twiddle k (2 * h)) (dft (oddIndexed x) k)).
Proof.
  intros Hh Hlen. destruct (halves_length h x Hlen) as (He & Ho).
  unfold dft. rewrite Hlen, He, Ho, Csum_even_odd.
  replace (Csub (Csum (fun j => Cmul (nth j (evenIndexed x) C0)
                                     (twiddle (j * k) h)) h)
                (Cmul (twiddle k (2 * h))
                      (Csum (fun j => Cmul (nth j (oddIndexed x) C0)
                                           (twiddle (j * k) h)) h)))
    with (Cadd (Csum (fun j => Cmul (nth j (evenIndexed x) C0)
                                    (twiddle (j * k) h)) h)
               (Cmul (Copp (twiddle k (2 * h)))
                     (Csum (fun j => Cmul (nth j (oddIndexed x) C0)
                                          (twiddle (j * k) h)) h)))
    by ring.
  rewrite <- Csum_scale_l.
  f_equal; apply Csum_ext; intros j Hj.
  - destruct (halves_nth x j) as (-> & _).
    replace (2 * j * (k + h))%nat with (2 * h * j + 2 * (j * k))%nat by lia.
    now rewrite twiddle_period, twiddle_double by lia.
  - destruct (halves_nth x j) as (_ & ->).
    replace ((2 * j + 1) * (k + h))%nat
      with (2 * h * j + (2 * (j * k) + (k + h)))%nat by lia.
    rewrite twiddle_period by lia.
    rewrite !twiddle_add, twiddle_double, twiddle_half by exact Hh. ring.
Qed.

(** On a vector of [2^m] samples, [fftRecursive] computes the discrete
    Fourier transform. *)
Lemma fftRecursive_dft (m : nat) (x : list Complex) (k : nat) :
  length x = (2 ^ m)%nat -> (k < 2 ^ m)%nat ->
  nth k (fftRecursive x) C0 = dft x k.
Proof.
  revert x k. induction m as [|m IH]; intros x k Hlen Hk.
  - destruct x as [|a [|b t]]; try discriminate.
    simp fftRecursive. simpl in Hk. replace k with 0%nat by lia.
    unfold dft. cbn [length Csum nth Nat.mul]. rewrite twiddle_zero.
    sample_eq.
  - assert (Hpos : (0 < 2 ^ m)%nat)
      by (pose proof (pow2_le_mono 0 m); simpl in *; lia).
    assert (Hlen2 : length x = (2 * 2 ^ m)%nat) by (rewrite Hlen; simpl; lia).
    destruct (halves_length _ x Hlen2) as (He & Ho).
    destruct x as [|a [|b t]]; try (simpl in Hlen2; lia).
    simp fftRecursive. rewrite Hlen2.
    destruct (Nat.lt_ge_cases k (2 ^ m)) as [Hlow|Hhigh].
    + rewrite combineStep_nth_low by exact Hlow.
      rewrite !IH by assumption.
      symmetry. now apply dft_split_low.
    + assert (Hk' : (k - 2 ^ m < 2 ^ m)%nat) by (simpl in Hk; lia).
      replace k with (k - 2 ^ m + 2 ^ m)%nat by lia.
      generalize dependent (k - 2 ^ m)%nat. clear Hk Hhigh. intros k' Hk'.
      rewrite combineStep_nth_high by exact Hk'.
      rewrite !IH by assumption.
      symmetry. now apply dft_split_high.
Qed.

End FastTransform.

(** ** Roots of unity add up to nothing *)

Section Orthogonality.

Lemma rootPower_even (h : nat) (d : Z) (j : nat) :
  (0 < h)%nat -> rootPower (2 * h) d (2 * j) = rootPower h d j.
Proof.
  intros Hh. unfold rootPower. rewrite !mult_INR. f_equal.
  assert (INR h <> 0) by (apply not_0_INR; lia).
  simpl. field. assumption.
Qed.

Lemma rootPower_odd (h : nat) (d : Z) (j : nat) :
  (0 < h)%nat ->
  rootPower (2 * h) d (2 * j + 1)
  = Cmul (rootPower h d j) (cis (- PI * IZR d / INR h)).
Proof.
  intros Hh. unfold rootPower. rewrite <- cis_add, plus_INR, !mult_INR.
  f_equal. assert (INR h <> 0) by (apply not_0_INR; lia).
  simpl. field. assumption.
Qed.

(** The half-way factor: 1 on an even multiple of [h], -1 on an odd one. *)
Lemma half_turns (h : nat) (q : Z) :
  (0 < h)%nat ->
  cis (- PI * IZR (q * Z.of_nat h) / INR h)
  = if Z.even q then Cone else Copp Cone.
Proof.
  intros Hh. assert (Hne : INR h <> 0) by (apply not_0_INR; lia).
  rewrite mult_IZR, <- INR_IZR_INZ.
  replace (- PI * (IZR q * INR h) / INR h) with (- (IZR q * PI))
    by (field; assumption).
  rewrite cis_neg.
  destruct (Z.even q) eqn:Hq.
  - apply Z.even_spec in Hq. destruct Hq as (r & ->).
    rewrite mult_IZR. replace (2 * IZR r * PI) with (2 * IZR r * PI) by ring.
    rewrite cis_turns. sample_eq.
  - assert (Hodd : Z.odd q = true) by (rewrite <- Z.negb_even, Hq; reflexivity).
    apply Z.odd_spec in Hodd. destruct Hodd as (r & ->).
    rewrite plus_IZR, mult_IZR.
    replace ((2 * IZR r + 1) * PI) with (2 * IZR r * PI + PI) by ring.
    rewrite cis_add, cis_turns, cis_PI. sample_eq.
Qed.

(** The [2^m] powers of a root of unity sum to [2^m] when the root is 1 and
    to 0 otherwise. *)
Lemma rootPower_sum (m : nat) (d : Z) :
  Csum (rootPower (2 ^ m) d) (2 ^ m)
  = if (d mod Z.of_nat (2 ^ m) =? 0)%Z then ofReal (INR (2 ^ m)) else C0.
Proof.
  revert d. induction m as [|m IH]; intros d.
  - cbn [Nat.pow Csum]. rewrite Z.mod_1_r. cbn [Z.eqb].
    unfold rootPower. cbn [INR].
    replace (- (2 * PI) * IZR d * 0 / 1) with 0 by (unfold Rdiv; ring).
    rewrite cis_0. sample_eq.
  - assert (Hpos : (0 < 2 ^ m)%nat)
      by (pose proof (pow2_le_mono 0 m); simpl in *; lia).
    replace (2 ^ S m)%nat with (2 * 2 ^ m)%nat by (simpl; lia).
    set (h := (2 ^ m)%nat) in *.
    rewrite Csum_even_odd.
    rewrite (Csum_ext (fun j => rootPower (2 * h) d (2 * j)) (rootPower h d))
      by (intros; now apply rootPower_even).
    rewrite (Csum_ext (fun j => rootPower (2 * h) d (2 * j + 1))
                      (fun j => Cmul (rootPower h d j)
                                     (cis (- PI * IZR d / INR h))))
      by (intros; now apply rootPower_odd).
    rewrite Csum_scale_r, IH.
    assert (Hh : (0 < Z.of_nat h)%Z) by lia.
    replace (Z.of_nat (2 * h)) with (2 * Z.of_nat h)%Z by lia.
    destruct (Z.eqb_spec (d mod Z.of_nat h) 0) as [Hdiv|Hndiv].
    + apply Z.mod_divide in Hdiv; [|lia]. destruct Hdiv as (q & ->).
      rewrite half_turns by exact Hpos.
      destruct (Z.even q) eqn:Hq.
      * apply Z.even_spec in Hq. destruct Hq as (r & ->).
        replace (2 * r * Z.of_nat h)%Z with (r * (2 * Z.of_nat h))%Z by ring.
        rewrite Z.mod_mul by lia. cbn [Z.eqb].
        rewrite mult_INR. change (INR 2) with 2. sample_eq.
      * assert (Hodd : Z.odd q = true)
          by (rewrite <- Z.negb_even, Hq; reflexivity).
        apply Z.odd_spec in Hodd. destruct Hodd as (r & ->).
        replace ((2 * r + 1) * Z.of_nat h)%Z
          with (Z.of_nat h + r * (2 * Z.of_nat h))%Z by ring.
        rewrite Z.mod_add, Z.mod_small by lia.
        destruct (Z.eqb_spec (Z.of_nat h) 0); [lia|]. sample_eq.
    + destruct (Z.eqb_spec (d mod (2 * Z.of_nat h)) 0) as [Hdiv2|_];
        [|sample_eq].
      exfalso. apply Hndiv. apply Z.mod_divide in Hdiv2; [|lia].
      destruct Hdiv2 as (q & ->).
      replace (q * (2 * Z.of_nat h))%Z with (q * 2 * Z.of_nat h)%Z by ring.
      apply Z.mod_mul. lia.
Qed.

(** A forward factor times a conjugated one is a power of a root. *)
Lemma twiddle_conj_twiddle (n i j k : nat) :
  (0 < n)%nat ->
  Cmul (twiddle (i * j) n) (Cconj (twiddle (j * k) n))
  = rootPower n (Z.of_nat i - Z.of_nat k) j.
Proof.
  intros Hn. rewrite !twiddle_cis, <- cis_neg, <- cis_add. unfold rootPower.
  f_equal. rewrite !mult_INR, minus_IZR, <- !INR_IZR_INZ.
  assert (INR n <> 0) by (apply not_0_INR; lia).
  field. assumption.
Qed.

(** Orthogonality: for [i, k < 2^m], the sum over [j] of
    [e^(-2 pi i i j / N) * e^(+2 pi i j k / N)] is [N] when [i = k] and 0
    otherwise. *)
Lemma twiddle_orthogonal (m i k : nat) :
  (i < 2 ^ m)%nat -> (k < 2 ^ m)%nat ->
  Csum (fun j => Cmul (twiddle (i * j) (2 ^ m))
                      (Cconj (twiddle (j * k) (2 ^ m)))) (2 ^ m)
  = if (i =? k)%nat then ofReal (INR (2 ^ m)) else C0.
Proof.
  intros Hi Hk.
  rewrite (Csum_ext _ (rootPower (2 ^ m) (Z.of_nat i - Z.of_nat k)))
    by (intros; apply twiddle_conj_twiddle; lia).
  rewrite rootPower_sum.
  destruct (Nat.eqb_spec i k) as [->|Hne].
  - now rewrite Z.sub_diag, Z.mod_0_l by lia.
  - destruct (Z.eqb_spec ((Z.of_nat i - Z.of_nat k) mod Z.of_nat (2 ^ m)) 0)
      as [Hdiv|_]; [|reflexivity].
    exfalso. apply Z.mod_divide in Hdiv; [|lia]. destruct Hdiv as (q & Hq).
    assert (q = 0 \/ q <= -1 \/ 1 <= q)%Z as [->|[Hq'|Hq']] by lia; nia.
Qed.

End Orthogonality.

(** ** The inverse transform *)

Section InverseTransform.

(** What [ifft] is: conjugate, transform, conjugate, divide by [N]. *)
Lemma ifft_unfold (y : list Complex) :
  ifft y
  = map (fun c => mkComplex (real c / INR (length y))
                            (- imag c / INR (length y)))
        (fftRecursive (map Cconj y)).
Proof.
  unfold ifft. now rewrite fftRecursive_length, length_map.
Qed.

(** On [2^m] samples [ifft] computes the inverse discrete Fourier
    transform, by its defining sum. *)
Lemma ifft_inverse_dft (m : nat) (y : list Complex) (k : nat) :
  length y = (2 ^ m)%nat -> (k < 2 ^ m)%nat ->
  nth k (ifft y) C0 = inverse_dft y k.
Proof.
  intros Hlen Hk. rewrite ifft_unfold.
  rewrite map_nth_in with (d := C0)
    by (now rewrite fftRecursive_length, length_map, Hlen).
  rewrite (fftRecursive_dft m) by (rewrite ?length_map; assumption).
  unfold inverse_dft, dft. rewrite length_map.
  set (N := length y).
  transitivity
    (Cmul (mkComplex (/ INR N) 0)
          (Cconj (Csum (fun j => Cmul (nth j (map Cconj y) C0)
                                      (twiddle (j * k) N)) N))).
  - sample_eq; unfold Rdiv; ring.
  - f_equal. rewrite Csum_conj. apply Csum_ext. intros j Hj.
    rewrite map_nth_in with (d := C0) by exact Hj.
    now rewrite Cconj_mul, Cconj_conj.
Qed.

(** The inverse sum undoes the forward sum. *)
Lemma inverse_dft_dft (m : nat) (x y : list Complex) (k : nat) :
  length x = (2 ^ m)%nat -> length y = (2 ^ m)%nat -> (k < 2 ^ m)%nat ->
  (forall j, (j < 2 ^ m)%nat -> nth j y C0 = dft x j) ->
  inverse_dft y k = nth k x C0.
Proof.
  intros Hx Hy Hk Hdft. unfold inverse_dft. rewrite Hy.
  assert (Hpos : (0 < 2 ^ m)%nat)
    by (pose proof (pow2_le_mono 0 m); simpl in *; lia).
  assert (HN : INR (2 ^ m) <> 0) by (apply not_0_INR; lia).
  rewrite (Csum_ext _
     (fun j => Csum (fun i => Cmul (nth i x C0)
                                   (Cmul (twiddle (i * j) (2 ^ m))
                                         (Cconj (twiddle (j * k) (2 ^ m)))))
                    (2 ^ m))).
  2:{ intros j Hj. rewrite (Hdft j Hj). unfold dft. rewrite Hx.
      rewrite <- Csum_scale_r. apply Csum_ext. intros i Hi. ring. }
  rewrite Csum_swap.
  rewrite (Csum_ext _
     (fun i => if (i =? k)%nat
               then Cmul (nth i x C0) (ofReal (INR (2 ^ m))) else C0)).
  2:{ intros i Hi. rewrite Csum_scale_l, twiddle_orthogonal by assumption.
      destruct (i =? k)%nat; [reflexivity|ring]. }
  rewrite Csum_single by exact Hk.
  sample_eq; field; exact HN.
Qed.

(** On [2^m] samples, real or not, the inverse transform of the transform is
    the vector itself. *)
Lemma ifft_fftRecursive (m : nat) (x : list Complex) :
  length x = (2 ^ m)%nat -> ifft (fftRecursive x) = x.
Proof.
  intros Hlen.
  assert (HlenI : length (ifft (fftRecursive x)) = length x).
  { rewrite ifft_unfold.
    now rewrite length_map, fftRecursive_length, length_map,
      fftRecursive_length. }
  apply nth_ext with (d := C0) (d' := C0); [exact HlenI|].
  intros k Hk. rewrite HlenI, Hlen in Hk.
  rewrite (ifft_inverse_dft m) by (rewrite ?fftRecursive_length; assumption).
  apply (inverse_dft_dft m); try assumption.
  - now rewrite fftRecursive_length.
  - intros j Hj. now apply (fftRecursive_dft m).
Qed.

Lemma resize_exact (v : list Complex) : resize (length v) v = v.
Proof.
  unfold resize. rewrite firstn_all, Nat.sub_diag. apply app_nil_r.
Qed.

End InverseTransform.

(** C1.  For every real signal [x] whose length is a power of two,
    [ifft (fft x)] is [x] again, exactly (real parts [x], imaginary parts 0);
    [ifft] conjugates its input, applies the forward transform, conjugates
    the result and divides every component by [N], and on the spectrum it
    agrees with the inverse discrete Fourier transform computed from its
    defining sum. *)
Theorem ifft_fft_round_trip (m : nat) (x : list R) :
  length x = (2 ^ m)%nat ->
  ifft (fft x) = map ofReal x
  /\ realParts (ifft (fft x)) = x
  /\ ifft (fft x)
     = map (fun c => mkComplex (real c / INR (length (fft x)))
                               (- imag c / INR (length (fft x))))
           (fftRecursive (map Cconj (fft x)))
  /\ forall k, (k < 2 ^ m)%nat ->
       nth k (ifft (fft x)) C0 = inverse_dft (fft x) k.
Proof.
  intros Hlen.
  assert (Hfft : fft x = fftRecursive (map ofReal x)).
  { unfold fft. rewrite Hlen, nextPowerOfTwo_pow2, <- Hlen.
    rewrite <- (length_map ofReal x) at 1.
    unfold ofReal at 1 2. now rewrite resize_exact. }
  assert (Hround : ifft (fft x) = map ofReal x).
  { rewrite Hfft. apply (ifft_fftRecursive m). now rewrite length_map. }
  split; [exact Hround|]. split; [|split].
  - rewrite Hround. unfold realParts. rewrite map_map. cbn [ofReal real].
    apply map_id.
  - apply ifft_unfold.
  - intros k Hk. apply (ifft_inverse_dft m); [|exact Hk].
    now rewrite fft_length, Hlen, nextPowerOfTwo_pow2.
Qed.

(** C1 at the tone: four samples, [m = 2]. *)
Lemma ifft_fft_round_trip_witness :
  ifft (fft tone) = map ofReal tone /\ realParts (ifft (fft tone)) = tone.
Proof.
  destruct (ifft_fft_round_trip 2 tone) as (Hc & Hr & _); [reflexivity|].
  split; [exact Hc|exact Hr].
Defined.

(** ** A four-sample transform, evaluated *)

Lemma Complex_eq (x y x' y' : R) :
  x = x' -> y = y' -> mkComplex x y = mkComplex x' y'.
Proof. now intros -> ->. Qed.

(** Equality of two vectors of samples, component by component. *)
Ltac samples_eq :=
  repeat (apply (f_equal2 (@cons Complex));
          [apply Complex_eq; cbn [real imag Cadd Csub Cmul C0];
           try lra; try (field; lra)|]);
  try reflexivity.

Section FourSamples.

Lemma fftRecursive_two (a b : Complex) :
  fftRecursive [a; b]
  = [Cadd a (Cmul (twiddle 0 2) b); Csub a (Cmul (twiddle 0 2) b)].
Proof. simp fftRecursive. reflexivity. Qed.

Lemma fftRecursive_four (a b c d : Complex) :
  fftRecursive [a; b; c; d]
  = let e := fftRecursive [a; c] in
    let o := fftRecursive [b; d] in
    [Cadd (nth 0 e C0) (Cmul (twiddle 0 4) (nth 0 o C0));
     Cadd (nth 1 e C0) (Cmul (twiddle 1 4) (nth 1 o C0));
     Csub (nth 0 e C0) (Cmul (twiddle 0 4) (nth 0 o C0));
     Csub (nth 1 e C0) (Cmul (twiddle 1 4) (nth 1 o C0))].
Proof. simp fftRecursive. reflexivity. Qed.

(** The transform of four samples, in closed form. *)
Lemma fftRecursive_four_values (a b c d : Complex) :
  fftRecursive [a; b; c; d]
  = [Cadd (Cadd a c) (Cadd b d);
     Cadd (Csub a c) (Cmul (mkComplex 0 (-1)) (Csub b d));
     Csub (Cadd a c) (Cadd b d);
     Csub (Csub a c) (Cmul (mkComplex 0 (-1)) (Csub b d))].
Proof.
  rewrite fftRecursive_four, !fftRecursive_two. cbv zeta. cbn [nth].
  rewrite !twiddle_zero, twiddle_quarter.
  destruct a, b, c, d. samples_eq.
Qed.

Lemma fft_tone : fft tone = [C0; mkComplex 0 (-2); C0; mkComplex 0 2].
Proof.
  unfold fft, tone. cbn [length map]. 
  change (nextPowerOfTwo 4) with 4%nat. unfold resize. cbn [firstn length Nat.sub repeat app].
  rewrite fftRecursive_four_values. samples_eq.
Qed.

Lemma ifft_four (a b c d : Complex) :
  ifft [a; b; c; d]
  = map (fun z => mkComplex (real z / 4) (- imag z / 4))
        (fftRecursive [mkComplex (real a) (- imag a);
                       mkComplex (real b) (- imag b);
                       mkComplex (real c) (- imag c);
                       mkComplex (real d) (- imag d)]).
Proof.
  unfold ifft. cbn [map]. rewrite fftRecursive_length. cbn [length].
  replace (INR 4) with 4 by (simpl; lra). reflexivity.
Qed.

End FourSamples.

(** ** The one-sided spectrum *)

Lemma mapi_from_length {A B : Type} (f : nat -> A -> B) (i : nat) (l : list A) :
  length (mapi_from f i l) = length l.
Proof.
  revert i. induction l as [|a l IH]; intros i; simpl; [reflexivity|].
  now rewrite IH.
Qed.

Lemma applyWindow_length (signal : list R) (windowType : string) :
  length (applyWindow signal windowType) = length signal.
Proof.
  unfold applyWindow, mapi.
  destruct (String.eqb windowType "hanning");
    [apply mapi_from_length|].
  destruct (String.eqb windowType "hamming");
    [apply mapi_from_length|].
  destruct (String.eqb windowType "blackman");
    [apply mapi_from_length|reflexivity].
Qed.

(** C4.  For every non-empty signal and sample rate, with [N] the padded FFT
    size, [getSpectrum] returns [N/2 + 1] bins; bin [i] has frequency
    [i * sampleRate / N]; its magnitude is the raw FFT magnitude times [2/N]
    for [0 < i < N/2] and times [1/N] for the DC and Nyquist bins;
    [frequencyResolution = sampleRate / N] and [maxFrequency = sampleRate / 2]. *)
Theorem getSpectrum_one_sided (signal : list R) (rate : R) :
  signal <> [] ->
  let fftResult := fft (applyWindow signal "hanning") in
  let N := length fftResult in
  let sp := getSpectrum signal rate in
  N = nextPowerOfTwo (length signal)
  /\ length (bins sp) = (N / 2 + 1)%nat
  /\ (forall i, (i <= N / 2)%nat ->
        bin_frequency (nth i (bins sp) dummyBin) = INR i * rate / INR N
        /\ ((0 < i < N / 2)%nat ->
            bin_magnitude (nth i (bins sp) dummyBin)
            = magnitude (nth i fftResult C0) * (2 / INR N))
        /\ ((i = 0 \/ i = N / 2)%nat ->
            bin_magnitude (nth i (bins sp) dummyBin)
            = magnitude (nth i fftResult C0) * (1 / INR N)))
  /\ frequencyResolution sp = rate / INR N
  /\ maxFrequency sp = rate / 2
  /\ sampleRate sp = rate.
Proof.
  intros Hne. cbv zeta.
  destruct signal as [|s0 signal]; [congruence|].
  unfold getSpectrum. cbv zeta.
  set (sig := s0 :: signal) in *.
  set (X := fft (applyWindow sig "hanning")).
  assert (HN : length X = nextPowerOfTwo (length sig)).
  { unfold X. now rewrite fft_length, applyWindow_length. }
  assert (HNpos : (1 <= length X)%nat).
  { rewrite HN. destruct (nextPowerOfTwo_spec (length sig)) as (j & -> & _ & _).
    pose proof (pow2_le_mono 0 j). simpl in *. lia. }
  assert (HNR : INR (length X) <> 0).
  { apply not_0_INR. lia. }
  cbn [bins frequencyResolution maxFrequency sampleRate].
  split; [exact HN|].
  split; [now rewrite length_map, length_seq|].
  split; [|auto].
  intros i Hi. rewrite nth_map_seq by lia. unfold spectrumBin.
  cbn [bin_frequency bin_magnitude].
  split; [field; exact HNR|]. split.
  - intros Hin.
    destruct (Nat.ltb_spec 0 i); [|lia].
    destruct (Nat.ltb_spec i (length X / 2)); [|lia]. reflexivity.
  - intros Hdc.
    destruct (Nat.ltb_spec 0 i); destruct (Nat.ltb_spec i (length X / 2));
      cbn [andb]; try lia; field; exact HNR.
Qed.

(** C4 at a three-sample signal sampled at 8 Hz: [N = 4], three bins, a
    resolution of 2 Hz. *)
Lemma getSpectrum_one_sided_witness :
  length (bins (getSpectrum [1; 2; 3] 8)) = 3%nat
  /\ frequencyResolution (getSpectrum [1; 2; 3] 8) = 2.
Proof.
  destruct (getSpectrum_one_sided [1; 2; 3] 8)
    as (HN & Hbins & _ & Hres & _); [discriminate|].
  change (length [1; 2; 3]) with 3%nat in HN.
  change (nextPowerOfTwo 3) with 4%nat in HN.
  rewrite HN in Hbins, Hres. split; [exact Hbins|].
  rewrite Hres. simpl. lra.
Defined.

(** ** Harmonics *)

Section Harmonics.

(** The first loop of [findHarmonics], from any starting pair: either no bin
    exceeds the starting magnitude and the pair is unchanged, or the pair is
    that of the first bin of largest magnitude. *)
Lemma peak_fold (l : list FrequencyBin) (m f : R) :
  let st := fold_left peakStep l (m, f) in
  ((forall b, In b l -> bin_magnitude b <= m) /\ st = (m, f))
  \/ exists pre b post,
       l = pre ++ b :: post
       /\ m < bin_magnitude b
       /\ (forall b', In b' pre -> bin_magnitude b' < bin_magnitude b)
       /\ (forall b', In b' post -> bin_magnitude b' <= bin_magnitude b)
       /\ st = (bin_magnitude b, bin_frequency b).
Proof.
  cbv zeta. induction l as [|x l IH] using rev_ind.
  - left. split; [intros b []|reflexivity].
  - rewrite fold_left_app. cbn [fold_left].
    destruct IH as [(Hall & ->)|(pre & b & post & -> & Hm & Hpre & Hpost & ->)];
      unfold peakStep; cbn [fst];
      match goal with |- context [Rgt_dec ?a ?b] => destruct (Rgt_dec a b) as [Hgt|Hle] end;
      unfold Rgt in *.
    + right. exists l, x, []. repeat split; auto.
      * intros b' Hb'. specialize (Hall b' Hb'). lra.
      * intros b' [].
    + left. split; [|reflexivity]. intros b Hb.
      apply in_app_or in Hb. destruct Hb as [Hb|[<-|[]]]; [auto|lra].
    + right. exists (pre ++ b :: post), x, []. repeat split; auto.
      * lra.
      * intros b' Hb'. apply in_app_or in Hb'.
        destruct Hb' as [Hb'|[<-|Hb']]; [specialize (Hpre b' Hb'); lra|lra|].
        specialize (Hpost b' Hb'). lra.
      * intros b' [].
    + right. exists pre, b, (post ++ [x]). rewrite <- app_assoc.
      repeat split; auto.
      intros b' Hb'. apply in_app_or in Hb'.
      destruct Hb' as [Hb'|[<-|[]]]; [auto|lra].
Qed.

(** The inner loop of [findHarmonics]: started from a nearest bin among the
    first [i], it ends at a nearest bin among all. *)
Lemma closestLoop_nearest (target : R) (done rest : list FrequencyBin)
      (c : nat) (d : R) :
  done <> [] ->
  nearestBin done target c d ->
  let '(c', d') := closestLoop target (length done) rest (c, d) in
  nearestBin (done ++ rest) target c' d'.
Proof.
  revert done c d. induction rest as [|b rest IH]; intros done c d Hne Hnear.
  - simpl. now rewrite app_nil_r.
  - cbn [closestLoop snd].
    assert (Hlen : length (done ++ [b]) = S (length done))
      by (rewrite length_app; simpl; lia).
    assert (Hne' : done ++ [b] <> []) by (now destruct done).
    destruct Hnear as (Hc & Hd & Hall & Hfirst).
    assert (Hold : forall j, (j < length done)%nat ->
                     nth j (done ++ [b]) dummyBin = nth j done dummyBin)
      by (intros j Hj; now apply app_nth1).
    assert (Hnew : nth (length done) (done ++ [b]) dummyBin = b)
      by (rewrite app_nth2, Nat.sub_diag by lia; reflexivity).
    destruct (Rlt_dec (Rabs (bin_frequency b - target)) d) as [Hlt|Hge].
    + assert (Hnear' : nearestBin (done ++ [b]) target (length done)
                                  (Rabs (bin_frequency b - target))).
      { split; [lia|]. rewrite Hnew. split; [reflexivity|]. split.
        - intros j Hj. destruct (Nat.eq_dec j (length done)) as [->|Hneq].
          + rewrite Hnew. lra.
          + rewrite Hold by lia.
            assert (Hj' : (j < length done)%nat) by lia.
            specialize (Hall j Hj'). lra.
        - intros j Hj. rewrite Hold by lia. specialize (Hall j Hj). lra. }
      pose proof (IH _ _ _ Hne' Hnear') as H.
      rewrite Hlen, <- app_assoc in H. exact H.
    + assert (Hnear' : nearestBin (done ++ [b]) target c d).
      { split; [lia|]. rewrite Hold by lia. split; [exact Hd|]. split.
        - intros j Hj. destruct (Nat.eq_dec j (length done)) as [->|Hneq].
          + rewrite Hnew. lra.
          + rewrite Hold by lia. apply Hall. lia.
        - intros j Hj. rewrite Hold by lia. now apply Hfirst. }
      pose proof (IH _ _ _ Hne' Hnear') as H.
      rewrite Hlen, <- app_assoc in H. exact H.
Qed.

(** [findClosest] answers a nearest bin, the one of lowest index. *)
Lemma findClosest_nearest (bs : list FrequencyBin) (target : R) :
  bs <> [] ->
  let '(c, d) := findClosest bs target in nearestBin bs target c d.
Proof.
  destruct bs as [|b0 rest]; [congruence|]. intros _.
  unfold findClosest. cbn [tl nth].
  apply (closestLoop_nearest target [b0] rest 0 _); [discriminate|].
  split; [simpl; lia|]. split; [reflexivity|]. split.
  - intros j Hj. simpl in Hj. replace j with 0%nat by lia. simpl. lra.
  - intros j Hj. lia.
Qed.

(** The loop over the orders: it visits the orders up to the first whose
    target exceeds [maxFrequency], and collects what each contributes. *)
Lemma harmonicsLoop_visits (sp : FrequencySpectrum) (th f : R)
      (orders : list Z) :
  harmonicsLoop sp th f orders
  = flat_map (acceptedAt sp th f)
             (takeWhile (fun order => negb (Rgtb (IZR order * f)
                                                 (maxFrequency sp)))
                        orders).
Proof.
  induction orders as [|o orders IH]; [reflexivity|].
  cbn [harmonicsLoop takeWhile]. unfold Rgtb at 1, Rltb.
  destruct (Rgt_dec (IZR o * f) (maxFrequency sp)) as [Hgt|Hle];
    destruct (Rlt_dec (maxFrequency sp) (IZR o * f)) as [Hlt|Hge];
    unfold Rgt in *; try lra; cbn [negb]; [reflexivity|].
  cbn [flat_map]. rewrite <- IH. f_equal.
  unfold acceptedAt. destruct (findClosest (bins sp) (IZR o * f)) as [c d].
  unfold Rleb, Rgeb, Rleb.
  replace (frequencyResolution sp * 2) with (2 * frequencyResolution sp) by ring.
  destruct (Rle_dec d (2 * frequencyResolution sp)); cbn [andb]; [|reflexivity].
  destruct (Rge_dec (bin_magnitude (nth c (bins sp) dummyBin)) th);
    destruct (Rle_dec th (bin_magnitude (nth c (bins sp) dummyBin)));
    try reflexivity; lra.
Qed.

End Harmonics.

(** C5, as the specification has it, fails on the silent spectrum with threshold 0:
    the only non-DC bin has frequency 1 and magnitude 0, not below the
    threshold, so the specification expects it as the harmonic of order 1; the
    function, whose search for the peak starts at magnitude 0.0 and wants a
    strictly larger one, finds no fundamental and answers the empty list. *)
Lemma findHarmonics_silent_spectrum :
  ~ findHarmonics_as_specified silentSpectrum 0.
Proof.
  intros Hspec0.
  destruct (Hspec0 (mkBin 1 0 0)) as (_ & Hgo).
  { split; [now left|]. intros b' [<-|[]]. simpl. lra. }
  assert (Hcode : findHarmonics silentSpectrum 0 = []).
  { unfold findHarmonics, silentSpectrum, findPeak, peakStep. simpl.
    real_cases. reflexivity. }
  rewrite Hcode in Hgo.
  assert (Hspec : flat_map (acceptedAt silentSpectrum 0 1)
                           (ordersVisited silentSpectrum 1) <> []).
  { unfold ordersVisited, orders_1_10, acceptedAt, silentSpectrum, findClosest,
      Rgtb, Rgeb, Rleb, Rltb.
    cbn [takeWhile maxFrequency bins frequencyResolution tl nth closestLoop
         bin_frequency bin_magnitude snd].
    unfold Rabs.
    repeat (progress (cbn [negb takeWhile flat_map andb nth app snd
                           bin_magnitude bin_frequency];
                      real_cases));
      discriminate. }
  apply Hspec. symmetry. apply Hgo. simpl. intros [H|H]; lra.
Qed.

(** C5, amended.  The fundamental is the first non-DC bin of maximum
    magnitude, provided that magnitude is strictly positive.  The result is
    empty when no non-DC bin has a positive magnitude, when the fundamental
    frequency is 0, or when its magnitude is below the threshold.
    Otherwise the orders 1 to 10 are visited up to the first whose target
    [order * fundamental] exceeds [maxFrequency], and each visited order
    contributes the bin nearest to its target (lowest index on a tie) exactly
    when its distance is at most twice the resolution and its magnitude
    reaches the threshold. *)
Theorem findHarmonics_positive_peak (sp : FrequencySpectrum) (threshold : R) :
  ((forall b, In b (tl (bins sp)) -> bin_magnitude b <= 0) ->
   findHarmonics sp threshold = [])
  /\ ((exists b, In b (tl (bins sp)) /\ 0 < bin_magnitude b) ->
      exists pre b post,
        tl (bins sp) = pre ++ b :: post
        /\ 0 < bin_magnitude b
        /\ (forall b', In b' pre -> bin_magnitude b' < bin_magnitude b)
        /\ (forall b', In b' post -> bin_magnitude b' <= bin_magnitude b)
        /\ ((bin_frequency b = 0 \/ bin_magnitude b < threshold) ->
            findHarmonics sp threshold = [])
        /\ (~ (bin_frequency b = 0 \/ bin_magnitude b < threshold) ->
            findHarmonics sp threshold
            = flat_map (acceptedAt sp threshold (bin_frequency b))
                       (ordersVisited sp (bin_frequency b))))
  /\ (forall target, bins sp <> [] ->
        let '(c, d) := findClosest (bins sp) target in
        nearestBin (bins sp) target c d).
Proof.
  pose proof (peak_fold (tl (bins sp)) 0 0) as Hpeak. cbv zeta in Hpeak.
  split; [|split].
  - intros Hflat. unfold findHarmonics.
    destruct (bins sp) as [|b0 rest] eqn:Hb; [reflexivity|].
    unfold findPeak.
    destruct Hpeak as [(_ & ->)|(pre & b & post & Hl & Hm & _)].
    + destruct (Req_dec_T 0 0); [reflexivity|lra].
    + exfalso. assert (Hin : In b (tl (b0 :: rest)))
        by (rewrite Hl; apply in_elt).
      specialize (Hflat b Hin). lra.
  - intros (b1 & Hin1 & Hpos1).
    destruct Hpeak as [(Hall & _)|(pre & b & post & Hl & Hm & Hpre & Hpost & Hst)].
    + specialize (Hall b1 Hin1). lra.
    + exists pre, b, post. repeat split; auto.
      * intros Hstop. unfold findHarmonics.
        destruct (bins sp) as [|b0 rest]; [reflexivity|].
        unfold findPeak. rewrite Hst.
        destruct (Req_dec_T (bin_frequency b) 0); [reflexivity|].
        destruct (Rlt_dec (bin_magnitude b) threshold); [reflexivity|].
        tauto.
      * intros Hgo. unfold findHarmonics.
        destruct (bins sp) as [|b0 rest] eqn:Hb;
          [destruct pre; discriminate|].
        rewrite <- Hb. unfold findPeak. rewrite Hb at 1. rewrite Hst.
        destruct (Req_dec_T (bin_frequency b) 0); [tauto|].
        destruct (Rlt_dec (bin_magnitude b) threshold); [tauto|].
        apply harmonicsLoop_visits.
  - intros target Hne. now apply findClosest_nearest.
Qed.

(** C5 (amended) on the two-tone spectrum: there is a positive peak, the
    DC-only prefix is empty of larger bins, and bin 0 is nearest to 0.2 Hz. *)
Lemma findHarmonics_positive_peak_witness :
  (exists pre b post,
     tl (bins twoToneSpectrum) = pre ++ b :: post
     /\ 0 < bin_magnitude b
     /\ (forall b', In b' pre -> bin_magnitude b' < bin_magnitude b)
     /\ (forall b', In b' post -> bin_magnitude b' <= bin_magnitude b)
     /\ ((bin_frequency b = 0 \/ bin_magnitude b < 0.1) ->
         findHarmonics twoToneSpectrum 0.1 = [])
     /\ (~ (bin_frequency b = 0 \/ bin_magnitude b < 0.1) ->
         findHarmonics twoToneSpectrum 0.1
         = flat_map (acceptedAt twoToneSpectrum 0.1 (bin_frequency b))
                    (ordersVisited twoToneSpectrum (bin_frequency b))))
  /\ (let '(c, d) := findClosest (bins twoToneSpectrum) 0.2 in
      nearestBin (bins twoToneSpectrum) 0.2 c d).
Proof.
  destruct (findHarmonics_positive_peak twoToneSpectrum 0.1)
    as (_ & Hpeak & Hnear).
  split.
  - apply Hpeak. exists (mkBin 1 1 0). split; [now left|simpl; lra].
  - apply Hnear. discriminate.
Defined.

(** ** The filters: bins and vector accesses *)

Section FilterBins.

Lemma toSizeT_floor (d : R) (z : Z) :
  IZR z <= d < IZR z + 1 -> 0 <= d -> toSizeT d = z.
Proof.
  intros Hz Hd. unfold toSizeT.
  destruct (Rlt_dec d 0); [lra|].
  symmetry. apply Int_part_spec. lra.
Qed.

Lemma setNth_length {A : Type} (i : nat) (v : A) (s : list A) :
  (i < length s)%nat -> length (setNth i v s) = length s.
Proof.
  intros Hi. unfold setNth.
  rewrite length_app, length_firstn. cbn [length]. rewrite length_skipn. lia.
Qed.

Lemma writeAt_cases {A : Type} (i : Z) (v : A) (s : list A) :
  ((0 <= i < Z.of_nat (length s))%Z
   /\ exists s', writeAt i v s = Done s' /\ length s' = length s)
  \/ (~ (0 <= i < Z.of_nat (length s))%Z /\ writeAt i v s = OutOfBounds i).
Proof.
  unfold writeAt.
  destruct (Z.leb_spec 0 i); destruct (Z.ltb_spec i (Z.of_nat (length s)));
    cbn [andb]; try (right; split; [lia|reflexivity]).
  left. split; [lia|]. eexists. split; [reflexivity|].
  apply setNth_length. lia.
Qed.

(** The loop of [lowPassFilter] never uses up its fuel. *)
Lemma zeroRange_fuel {A : Type} (zero : A) (fuel : nat) (i bound : Z)
      (s : list A) :
  (Z.of_nat (length s) < SIZE_MOD)%Z -> (0 <= i)%Z -> (1 <= fuel)%nat ->
  ((i <= Z.of_nat (length s))%Z ->
   (Z.of_nat (length s) + 1 <= i + Z.of_nat fuel)%Z) ->
  zeroRange zero fuel i bound s <> OutOfFuel.
Proof.
  revert i s. induction fuel as [|fuel IH]; intros i s Hsz Hi Hf Hinv; [lia|].
  cbn [zeroRange]. destruct (Z.ltb_spec i bound); [|discriminate].
  destruct (writeAt_cases i zero s) as [(Hin & s' & -> & Hlen)|(_ & ->)];
    [|discriminate].
  cbn [bindOutcome].
  assert (Hmod : ((i + 1) mod SIZE_MOD = i + 1)%Z)
    by (apply Z.mod_small; unfold SIZE_MOD in *; lia).
  rewrite Hmod. apply IH; rewrite ?Hlen; try lia.
Qed.

(** The loop of [highPassFilter] never uses up its fuel. *)
Lemma zeroBelow_fuel {A : Type} (zero : A) (fuel : nat) (i cutoffBin : Z)
      (s : list A) :
  (Z.of_nat (length s) < SIZE_MOD)%Z -> (0 <= i)%Z -> (1 <= fuel)%nat ->
  ((i <= Z.of_nat (length s))%Z ->
   (Z.of_nat (length s) + 1 <= i + Z.of_nat fuel)%Z) ->
  zeroBelow zero fuel i cutoffBin s <> OutOfFuel.
Proof.
  revert i s. induction fuel as [|fuel IH]; intros i s Hsz Hi Hf Hinv; [lia|].
  cbn [zeroBelow]. destruct (Z.leb_spec i cutoffBin); [|discriminate].
  destruct (writeAt_cases i zero s) as [(Hin & s1 & -> & Hlen1)|(_ & ->)];
    [|discriminate].
  cbn [bindOutcome].
  assert (Hmod : ((i + 1) mod SIZE_MOD = i + 1)%Z)
    by (apply Z.mod_small; unfold SIZE_MOD in *; lia).
  destruct (Z.ltb_spec 0 i).
  - destruct (writeAt_cases (size_sub (Z.of_nat (length s1)) i) zero s1)
      as [(Hin2 & s2 & -> & Hlen2)|(_ & ->)]; [|discriminate].
    cbn [bindOutcome]. rewrite Hmod. apply IH; rewrite ?Hlen2, ?Hlen1; try lia.
  - cbn [bindOutcome]. rewrite Hmod. apply IH; rewrite ?Hlen1; try lia.
Qed.

(** A first index at or past the end of the vector, below the bound of the
    loop, is written to at once. *)
Lemma zeroRange_past_end {A : Type} (zero : A) (fuel : nat) (i bound : Z)
      (s : list A) :
  (Z.of_nat (length s) <= i < bound)%Z ->
  zeroRange zero (S fuel) i bound s = OutOfBounds i.
Proof.
  intros Hi. cbn [zeroRange]. destruct (Z.ltb_spec i bound); [|lia].
  destruct (writeAt_cases i zero s) as [(Hin & _)|(_ & ->)]; [lia|reflexivity].
Qed.

(** Which bins the band-pass loop keeps, for bins in the lower half. *)
Lemma bandPass_kept (n lowBin highBin i : Z) :
  (0 <= lowBin <= highBin)%Z -> (highBin <= n < SIZE_MOD)%Z -> (0 <= i < n)%Z ->
  bandPassZeroed n lowBin highBin i = false
  <-> (lowBin <= i <= highBin)%Z \/ (n - highBin < i < n - lowBin)%Z.
Proof.
  intros Hlo Hhi Hi. unfold bandPassZeroed, size_sub.
  rewrite !Z.mod_small by (unfold SIZE_MOD in *; lia).
  destruct (Z.ltb_spec i lowBin); destruct (Z.ltb_spec highBin i);
    destruct (Z.ltb_spec (n - highBin) i); destruct (Z.ltb_spec i (n - lowBin));
    cbn [orb andb negb]; split; intros; try discriminate; try reflexivity; lia.
Qed.

(** The band edge and its mirror: whenever [highBin] lies strictly inside
    the lower half, bin [highBin] is kept and bin [n - highBin] is zeroed. *)
Lemma bandPass_edge_asymmetric (n lowBin highBin : Z) :
  (0 <= lowBin <= highBin)%Z -> (0 < highBin)%Z -> (2 * highBin < n)%Z ->
  (n < SIZE_MOD)%Z ->
  bandPassZeroed n lowBin highBin highBin = false
  /\ bandPassZeroed n lowBin highBin (n - highBin) = true.
Proof.
  intros Hlo Hhi Hhalf Hn. split.
  - apply bandPass_kept; lia.
  - destruct (bandPassZeroed n lowBin highBin (n - highBin)) eqn:Hz;
      [reflexivity|].
    apply bandPass_kept in Hz; lia.
Qed.

(** With [cutoffBin >= N] the high-pass loop reaches index [N] and writes
    there. *)
Lemma zeroBelow_past_end {A : Type} (zero : A) (fuel : nat) (i cutoffBin : Z)
      (s : list A) :
  (Z.of_nat (length s) < SIZE_MOD)%Z ->
  (0 <= i <= Z.of_nat (length s))%Z ->
  (Z.of_nat (length s) <= cutoffBin)%Z ->
  (Z.of_nat (length s) + 1 <= i + Z.of_nat fuel)%Z ->
  zeroBelow zero fuel i cutoffBin s = OutOfBounds (Z.of_nat (length s)).
Proof.
  revert i s. induction fuel as [|fuel IH]; intros i s Hsz Hi Hb Hf; [lia|].
  cbn [zeroBelow]. destruct (Z.leb_spec i cutoffBin); [|lia].
  destruct (writeAt_cases i zero s) as [(Hin & s1 & -> & Hlen1)|(Hout & ->)].
  - cbn [bindOutcome].
    rewrite Z.mod_small by (unfold SIZE_MOD in *; lia).
    destruct (Z.ltb_spec 0 i).
    + destruct (writeAt_cases (size_sub (Z.of_nat (length s1)) i) zero s1)
        as [(Hin2 & s2 & -> & Hlen2)|(Hout & _)].
      * cbn [bindOutcome]. rewrite <- Hlen1, <- Hlen2.
        apply IH; rewrite ?Hlen2, ?Hlen1; lia.
      * exfalso. apply Hout. unfold size_sub.
        rewrite Z.mod_small by (unfold SIZE_MOD in *; lia). lia.
    + cbn [bindOutcome]. rewrite <- Hlen1. apply IH; rewrite ?Hlen1; lia.
  - cbn [bindOutcome]. f_equal. lia.
Qed.

(** The two filters end with a result or at an access outside the vector:
    the fuel of the model is never what stops them. *)
Lemma lowPassFilter_fuel (signal : list R) (cutoffFreq rate : R) :
  (Z.of_nat (length (fft signal)) < SIZE_MOD)%Z ->
  (0 <= toSizeT (cutoffFreq * INR (length (fft signal)) / rate))%Z ->
  lowPassFilter signal cutoffFreq rate <> OutOfFuel.
Proof.
  intros Hsz Hbin. unfold lowPassFilter.
  match goal with
  | |- bindOutcome ?z _ <> _ =>
      assert (Hz : z <> OutOfFuel) by (apply zeroRange_fuel; lia);
      destruct z; [discriminate|discriminate|congruence]
  end.
Qed.

Lemma highPassFilter_fuel (signal : list R) (cutoffFreq rate : R) :
  (Z.of_nat (length (fft signal)) < SIZE_MOD)%Z ->
  highPassFilter signal cutoffFreq rate <> OutOfFuel.
Proof.
  intros Hsz. unfold highPassFilter.
  match goal with
  | |- bindOutcome ?z _ <> _ =>
      assert (Hz : z <> OutOfFuel) by (apply zeroBelow_fuel; lia);
      destruct z; [discriminate|discriminate|congruence]
  end.
Qed.

End FilterBins.

(** C2 at a failing input: the tone, band-passed from 1 Hz to 1 Hz at a
    sample rate of 4 Hz ([N = 4], Nyquist 2 Hz, [lowBin = highBin = 1]).
    Bin 1 is kept and its mirror, bin 3, is zeroed: the test that spares the
    mirrored band is strict at both edges.  The spectrum that is kept is not
    conjugate-symmetric, its inverse transform has imaginary parts, and the
    filter answers the tone at half its amplitude. *)
Theorem bandPass_mirror_edge_zeroed :
  toSizeT (1 * INR (length (fft tone)) / 4) = 1%Z
  /\ bandPassZeroed 4 1 1 1 = false
  /\ bandPassZeroed 4 1 1 3 = true
  /\ bandPassZero C0 1 1 (fft tone) = [C0; mkComplex 0 (-2); C0; C0]
  /\ ifft (bandPassZero C0 1 1 (fft tone))
     = [mkComplex 0 (- / 2); mkComplex (/ 2) 0;
        mkComplex 0 (/ 2); mkComplex (- / 2) 0]
  /\ bandPassFilter tone 1 1 4 = [0; / 2; 0; - / 2].
Proof.
  assert (Hbin : toSizeT (1 * INR (length (fft tone)) / 4) = 1%Z).
  { rewrite fft_tone. apply toSizeT_floor; simpl; lra. }
  assert (Hzero : bandPassZero C0 1 1 (fft tone)
                  = [C0; mkComplex 0 (-2); C0; C0]).
  { rewrite fft_tone. reflexivity. }
  assert (Hinv : ifft (bandPassZero C0 1 1 (fft tone))
                 = [mkComplex 0 (- / 2); mkComplex (/ 2) 0;
                    mkComplex 0 (/ 2); mkComplex (- / 2) 0]).
  { rewrite Hzero, ifft_four, fftRecursive_four_values. cbn [map].
    samples_eq. }
  split; [exact Hbin|]. split; [reflexivity|]. split; [reflexivity|].
  split; [exact Hzero|]. split; [exact Hinv|].
  unfold bandPassFilter. rewrite Hbin, Hinv. reflexivity.
Qed.

(** C3 at two failing inputs, on the tone sampled at 4 Hz ([N = 4]).  A
    low-pass cutoff of 5 Hz gives [cutoffBin = 5]; [4 - 5] wraps to
    [2^64 - 1], the loop starts, and its first write is to index 5.  A
    high-pass cutoff of 4 Hz gives [cutoffBin = 4]; the loop runs while
    [i <= 4] and writes to index 4.  Neither index is clamped. *)
Theorem lowPass_highPass_write_past_end :
  lowPassFilter tone 5 4 = OutOfBounds 5
  /\ highPassFilter tone 4 4 = OutOfBounds 4.
Proof.
  split.
  - unfold lowPassFilter.
    assert (Hbin : toSizeT (5 * INR (length (fft tone)) / 4) = 5%Z).
    { rewrite fft_tone. apply toSizeT_floor; simpl; lra. }
    rewrite Hbin, zeroRange_past_end; [reflexivity|].
    rewrite fft_tone. cbn [length]. unfold size_sub, SIZE_MOD.
    split; [lia|]. reflexivity.
  - unfold highPassFilter.
    assert (Hbin : toSizeT (4 * INR (length (fft tone)) / 4) = 4%Z).
    { rewrite fft_tone. apply toSizeT_floor; simpl; lra. }
    rewrite Hbin, fft_tone. reflexivity.
Qed.

(** Inside the range of the vector the two loops are safe: with
    [cutoffBin <= N] the low-pass loop, and with [cutoffBin < N] the
    high-pass loop, end without a write outside. *)
Lemma zeroRange_in_range {A : Type} (zero : A) (fuel : nat) (i bound : Z)
      (s : list A) :
  (Z.of_nat (length s) < SIZE_MOD)%Z -> (0 <= i)%Z ->
  (bound <= Z.of_nat (length s))%Z ->
  (Z.of_nat (length s) + 1 <= i + Z.of_nat fuel)%Z ->
  exists s', zeroRange zero fuel i bound s = Done s' /\ length s' = length s.
Proof.
  revert i s. induction fuel as [|fuel IH]; intros i s Hsz Hi Hb Hf.
  - cbn [zeroRange]. destruct (Z.ltb_spec i bound); [lia|]. now exists s.
  - cbn [zeroRange]. destruct (Z.ltb_spec i bound); [|now exists s].
    destruct (writeAt_cases i zero s) as [(Hin & s1 & -> & Hlen)|(Hout & _)];
      [|lia].
    cbn [bindOutcome].
    rewrite Z.mod_small by (unfold SIZE_MOD in *; lia).
    destruct (IH (i + 1)%Z s1) as (s' & Hs' & Hlen'); rewrite ?Hlen; try lia.
    exists s'. split; [exact Hs'|]. now rewrite Hlen', Hlen.
Qed.

Lemma zeroBelow_in_range {A : Type} (zero : A) (fuel : nat) (i cutoffBin : Z)
      (s : list A) :
  (Z.of_nat (length s) < SIZE_MOD)%Z -> (0 <= i)%Z ->
  (cutoffBin < Z.of_nat (length s))%Z ->
  (Z.of_nat (length s) + 1 <= i + Z.of_nat fuel)%Z ->
  exists s', zeroBelow zero fuel i cutoffBin s = Done s' /\ length s' = length s.
Proof.
  revert i s. induction fuel as [|fuel IH]; intros i s Hsz Hi Hb Hf.
  - cbn [zeroBelow]. destruct (Z.leb_spec i cutoffBin); [lia|]. now exists s.
  - cbn [zeroBelow]. destruct (Z.leb_spec i cutoffBin); [|now exists s].
    destruct (writeAt_cases i zero s) as [(Hin & s1 & -> & Hlen1)|(Hout & _)];
      [|lia].
    cbn [bindOutcome].
    rewrite Z.mod_small by (unfold SIZE_MOD in *; lia).
    destruct (Z.ltb_spec 0 i).
    + destruct (writeAt_cases (size_sub (Z.of_nat (length s1)) i) zero s1)
        as [(Hin2 & s2 & -> & Hlen2)|(Hout & _)].
      * cbn [bindOutcome].
        destruct (IH (i + 1)%Z s2) as (s' & Hs' & Hlen');
          rewrite ?Hlen2, ?Hlen1; try lia.
        exists s'. split; [exact Hs'|]. now rewrite Hlen', Hlen2, Hlen1.
      * exfalso. apply Hout. unfold size_sub.
        rewrite Z.mod_small by (unfold SIZE_MOD in *; lia). lia.
    + cbn [bindOutcome].
      destruct (IH (i + 1)%Z s1) as (s' & Hs' & Hlen');
        rewrite ?Hlen1; try lia.
      exists s'. split; [exact Hs'|]. now rewrite Hlen', Hlen1.
Qed.

(** ** The wave collection of the engine *)

Section EngineCollection.

Import WaveEngine.

Lemma firstn_skipn_split {A : Type} (l : list A) (i : nat) :
  (i < length l)%nat ->
  exists before w after,
    l = before ++ w :: after /\ length before = i
    /\ firstn i l ++ skipn (S i) l = before ++ after
    /\ nth_error l i = Some w.
Proof.
  revert i. induction l as [|a l IH]; intros i Hi; simpl in Hi; [lia|].
  destruct i as [|i].
  - exists [], a, l. simpl. auto.
  - destruct (IH i) as (before & w & after & Hl & Hlen & Hrm & Hnth); [lia|].
    exists (a :: before), w, after. simpl.
    rewrite Hlen. subst l. repeat split; auto.
    simpl in Hrm. now rewrite Hrm.
Qed.

(** The running maximum of [getMaxAmplitude], from any starting value. *)
Lemma maxAmp_fold (ws : list WaveFunction) (start : R) :
  let r := fold_left (fun maxAmp wave => std_max maxAmp (getAmplitude wave))
                     ws start in
  start <= r
  /\ (forall w, In w ws -> getAmplitude w <= r)
  /\ (r = start \/ exists w, In w ws /\ r = getAmplitude w).
Proof.
  revert start. induction ws as [|w ws IH]; intros start; simpl.
  - split; [lra|]. split; [tauto|]. now left.
  - destruct (IH (std_max start (getAmplitude w))) as (Hge & Hall & Hin).
    assert (Hm : start <= std_max start (getAmplitude w)
                 /\ getAmplitude w <= std_max start (getAmplitude w)
                 /\ (std_max start (getAmplitude w) = start
                     \/ std_max start (getAmplitude w) = getAmplitude w)).
    { unfold std_max. destruct (Rlt_dec start (getAmplitude w)); lra. }
    destruct Hm as (Hm1 & Hm2 & Hm3).
    split; [lra|]. split.
    + intros w' [<-|Hw']; [lra|auto].
    + destruct Hin as [Hr|(w' & Hw' & Hr)].
      * destruct Hm3 as [Hm3|Hm3].
        -- left. now rewrite Hr.
        -- right. exists w. split; [now left|]. now rewrite Hr.
      * right. exists w'. auto.
Qed.

End EngineCollection.

(** C8.  For every engine and index [i]: out of range, [removeWave i] leaves
    the engine unchanged and [getWave i] answers the absent value; in range,
    [removeWave i] removes exactly the wave of index [i], the others keeping
    their order, and [getWave i] answers that wave.  Both are total, so
    neither faults. *)
Theorem removeWave_getWave_bounds_checked (e : WaveEngine.t) (i : nat) :
  ((length (WaveEngine.waves_ e) <= i)%nat ->
     WaveEngine.removeWave i e = e /\ WaveEngine.getWave i e = None)
  /\ ((i < length (WaveEngine.waves_ e))%nat ->
        exists before w after,
          WaveEngine.waves_ e = before ++ w :: after
          /\ length before = i
          /\ WaveEngine.waves_ (WaveEngine.removeWave i e) = before ++ after
          /\ WaveEngine.velocity_ (WaveEngine.removeWave i e)
             = WaveEngine.velocity_ e
          /\ WaveEngine.currentTime_ (WaveEngine.removeWave i e)
             = WaveEngine.currentTime_ e
          /\ WaveEngine.getWave i e = Some w).
Proof.
  unfold WaveEngine.removeWave, WaveEngine.getWave. split; intros Hi.
  - destruct (Nat.ltb_spec i (length (WaveEngine.waves_ e))); [lia|auto].
  - destruct (Nat.ltb_spec i (length (WaveEngine.waves_ e))); [|lia].
    destruct (firstn_skipn_split (WaveEngine.waves_ e) i Hi)
      as (before & w & after & Hl & Hlen & Hrm & Hnth).
    exists before, w, after.
    split; [exact Hl|]. split; [exact Hlen|]. split; [exact Hrm|].
    split; [reflexivity|]. split; [reflexivity|exact Hnth].
Qed.

(** C8 at an engine of two waves: index 5 is out of range, index 1 is the
    cosine wave. *)
Lemma removeWave_getWave_bounds_checked_witness :
  (WaveEngine.removeWave 5 twoWaveEngine = twoWaveEngine
   /\ WaveEngine.getWave 5 twoWaveEngine = None)
  /\ exists before w after,
       WaveEngine.waves_ twoWaveEngine = before ++ w :: after
       /\ length before = 1%nat
       /\ WaveEngine.waves_ (WaveEngine.removeWave 1 twoWaveEngine)
          = before ++ after
       /\ WaveEngine.velocity_ (WaveEngine.removeWave 1 twoWaveEngine)
          = WaveEngine.velocity_ twoWaveEngine
       /\ WaveEngine.currentTime_ (WaveEngine.removeWave 1 twoWaveEngine)
          = WaveEngine.currentTime_ twoWaveEngine
       /\ WaveEngine.getWave 1 twoWaveEngine = Some w.
Proof.
  split.
  - apply (removeWave_getWave_bounds_checked twoWaveEngine 5). simpl. lia.
  - apply (removeWave_getWave_bounds_checked twoWaveEngine 1). simpl. lia.
Defined.

(** C10.  [getMaxAmplitude] is the largest of 0.0 and the amplitudes of the
    owned waves: it is never negative, it bounds every amplitude, and it is
    0.0 or the amplitude of an owned wave; so it is 0.0 for an engine with no
    waves, and 0.0 when every amplitude is negative. *)
Theorem getMaxAmplitude_max_with_zero (e : WaveEngine.t) :
  0 <= WaveEngine.getMaxAmplitude e
  /\ (forall w, In w (WaveEngine.waves_ e) ->
                getAmplitude w <= WaveEngine.getMaxAmplitude e)
  /\ (WaveEngine.getMaxAmplitude e = 0
      \/ exists w, In w (WaveEngine.waves_ e)
                   /\ WaveEngine.getMaxAmplitude e = getAmplitude w)
  /\ (WaveEngine.waves_ e = [] -> WaveEngine.getMaxAmplitude e = 0)
  /\ ((forall w, In w (WaveEngine.waves_ e) -> getAmplitude w < 0) ->
      WaveEngine.getMaxAmplitude e = 0).
Proof.
  unfold WaveEngine.getMaxAmplitude.
  destruct (maxAmp_fold (WaveEngine.waves_ e) 0) as (Hge & Hall & Hin).
  split; [exact Hge|]. split; [exact Hall|]. split; [exact Hin|]. split.
  - intros ->. reflexivity.
  - intros Hneg. destruct Hin as [Hr|(w & Hw & Hr)]; [exact Hr|].
    specialize (Hneg w Hw). lra.
Qed.

(** C10 at an engine whose two amplitudes are -3 and -1, and at the engine
    with no waves. *)
Lemma getMaxAmplitude_max_with_zero_witness :
  WaveEngine.getMaxAmplitude negativeEngine = 0
  /\ WaveEngine.getMaxAmplitude (WaveEngine.clearWaves negativeEngine) = 0.
Proof.
  split.
  - destruct (getMaxAmplitude_max_with_zero negativeEngine)
      as (_ & _ & _ & _ & Hneg).
    apply Hneg. intros w [<-|[<-|[]]]; simpl; lra.
  - destruct (getMaxAmplitude_max_with_zero
                (WaveEngine.clearWaves negativeEngine))
      as (_ & _ & _ & Hempty & _).
    apply Hempty. reflexivity.
Defined.

(** ** The engine's phenomenon *)

Section Phenomenon.

Import WaveEngine.

Lemma DBL_MAX_large : 2 < DBL_MAX.
Proof.
  unfold DBL_MAX.
  assert (H52 : 1 <= 2 ^ 52) by (apply pow_R1_Rle; lra).
  assert (Hinv : / 2 ^ 52 <= 1).
  { rewrite <- Rinv_1. apply Rinv_le_contravar; lra. }
  assert (H1022 : 1 <= 2 ^ 1022) by (apply pow_R1_Rle; lra).
  replace (2 ^ 1023) with (2 * 2 ^ 1022) by (change 1023%nat with (S 1022); reflexivity).
  nra.
Qed.

Lemma fold_Rmin_assoc (l : list R) (a b : R) :
  fold_left Rmin l (Rmin a b) = Rmin a (fold_left Rmin l b).
Proof.
  revert b. induction l as [|g l IH]; intros b; simpl; [reflexivity|].
  rewrite <- IH. f_equal. symmetry. apply Rmin_assoc.
Qed.

(** The loop of [calculateBeatFrequency] takes the minimum of its starting
    value and the positive gaps. *)
Lemma gapLoop_min (prev : R) (rest : list R) (m : R) :
  gapLoop prev rest m
  = fold_left Rmin (filter (fun g => Rgtb g 0) (consecutiveGaps (prev :: rest))) m.
Proof.
  revert prev m. induction rest as [|f rest IH]; intros prev m; [reflexivity|].
  cbn [gapLoop]. rewrite IH.
  change (consecutiveGaps (prev :: f :: rest))
    with ((f - prev) :: consecutiveGaps (f :: rest)).
  cbn [filter]. unfold Rgtb at 2, Rltb.
  destruct (Rgt_dec (f - prev) 0) as [Hpos|Hneg];
    destruct (Rlt_dec 0 (f - prev)) as [Hpos'|Hneg'];
    try (unfold Rgt in *; lra); try reflexivity.
  cbn [fold_left]. f_equal. unfold Rmin.
  destruct (Rlt_dec (f - prev) m); destruct (Rle_dec m (f - prev)); lra.
Qed.

Lemma std_sort_length (l : list R) : length (std_sort l) = length l.
Proof.
  assert (Hins : forall v s, length (insertSorted v s) = S (length s)).
  { intros v s. induction s as [|a s IH]; simpl; [reflexivity|].
    destruct (Rle_dec v a); simpl; auto. }
  induction l as [|a l IH]; simpl; [reflexivity|]. now rewrite Hins, IH.
Qed.

(** What [calculateBeatFrequency] returns: the beat frequency of the
    specification, unless that reaches [DBL_MAX], the starting value of the
    search, where the function answers 0. *)
Lemma calculateBeatFrequency_spec (e : WaveEngine.t) :
  let b := beatFrequency_spec (map getFrequency (waves_ e)) in
  calculateBeatFrequency e = if Rlt_dec b DBL_MAX then b else 0.
Proof.
  pose proof DBL_MAX_large as HD.
  unfold calculateBeatFrequency, beatFrequency_spec. rewrite length_map.
  destruct (Nat.ltb_spec (length (waves_ e)) 2) as [Hlt|Hge].
  - destruct (Rlt_dec 0 DBL_MAX); [reflexivity|lra].
  - pose proof (std_sort_length (map getFrequency (waves_ e))) as Hlen.
    rewrite length_map in Hlen.
    destruct (std_sort (map getFrequency (waves_ e))) as [|f0 rest];
      [simpl in Hlen; lia|].
    rewrite gapLoop_min. unfold minPositive.
    destruct (filter (fun g => Rgtb g 0) (consecutiveGaps (f0 :: rest)))
      as [|g gs]; cbn [fold_left].
    + real_cases.
    + rewrite fold_Rmin_assoc. generalize (fold_left Rmin gs g) as s. intros s.
      unfold Rmin. destruct (Rle_dec DBL_MAX s); real_cases.
Qed.

(** The beat test of [detectPhenomenon] is the test of the specification. *)
Lemma beat_test_spec (e : WaveEngine.t) :
  let b := beatFrequency_spec (map getFrequency (waves_ e)) in
  Rgtb (calculateBeatFrequency e) 0 && Rltb (calculateBeatFrequency e) 2 = true
  <-> 0 < b < 2.
Proof.
  pose proof DBL_MAX_large as HD. cbv zeta.
  rewrite calculateBeatFrequency_spec. cbv zeta.
  rewrite andb_true_iff, Rgtb_true, Rltb_true.
  destruct (Rlt_dec (beatFrequency_spec (map getFrequency (waves_ e))) DBL_MAX);
    split; intros; lra.
Qed.

Lemma closeToSome_iff (fi : R) (later : list R) :
  closeToSome fi later = true
  <-> exists j fj, nth_error later j = Some fj /\ Rabs (fi - fj) < 0.01.
Proof.
  induction later as [|f later IH]; simpl.
  - split; [discriminate|]. intros (j & fj & Hj & _). destruct j; discriminate.
  - destruct (Rlt_dec (Rabs (fi - f)) 0.01) as [Hc|Hc].
    + split; [|reflexivity]. intros _. exists 0%nat, f. auto.
    + rewrite IH. split.
      * intros (j & fj & Hj & Hd). exists (S j), fj. auto.
      * intros (j & fj & Hj & Hd). destruct j as [|j]; simpl in Hj.
        -- injection Hj as <-. contradiction.
        -- exists j, fj. auto.
Qed.

(** The nested loops find a pair exactly when some two frequencies are less
    than 0.01 apart. *)
Lemma hasResonance_iff (freqs : list R) :
  hasResonance freqs = true <-> closePair freqs.
Proof.
  unfold closePair. induction freqs as [|f freqs IH]; simpl.
  - split; [discriminate|].
    intros (i & j & fi & fj & _ & Hi & _). destruct i; discriminate.
  - destruct (closeToSome f freqs) eqn:Hc.
    + split; [|reflexivity]. intros _.
      apply closeToSome_iff in Hc. destruct Hc as (j & fj & Hj & Hd).
      exists 0%nat, (S j), f, fj. repeat split; auto.
    + rewrite IH. split.
      * intros (i & j & fi & fj & Hij & Hi & Hj & Hd).
        exists (S i), (S j), fi, fj. repeat split; auto.
      * intros (i & j & fi & fj & Hij & Hi & Hj & Hd).
        assert (Hno : forall k fk, nth_error freqs k = Some fk ->
                                   ~ Rabs (f - fk) < 0.01).
        { intros k fk Hk Hd'.
          assert (closeToSome f freqs = true)
            by (apply closeToSome_iff; exists k, fk; auto).
          congruence. }
        destruct i as [|i], j as [|j]; simpl in Hi, Hj.
        -- congruence.
        -- injection Hi as <-. exfalso. eapply Hno; eauto.
        -- injection Hj as <-. exfalso. eapply Hno; eauto.
           now rewrite Rabs_minus_sym.
        -- exists i, j, fi, fj. repeat split; auto.
Qed.

End Phenomenon.

Section SortedFrequencies.

Lemma insertSorted_perm (v : R) (l : list R) :
  Permutation (v :: l) (insertSorted v l).
Proof.
  induction l as [|a l IH]; simpl; [apply Permutation_refl|].
  destruct (Rle_dec v a); [apply Permutation_refl|].
  eapply perm_trans; [apply perm_swap|]. now apply perm_skip.
Qed.

Lemma std_sort_perm (l : list R) : Permutation l (std_sort l).
Proof.
  induction l as [|a l IH]; simpl; [constructor|].
  eapply perm_trans; [apply perm_skip, IH|]. apply insertSorted_perm.
Qed.

Lemma insertSorted_sorted (v : R) (l : list R) :
  LocallySorted Rle l -> LocallySorted Rle (insertSorted v l).
Proof.
  induction 1 as [|a|a b l Hs IH Hab]; simpl.
  - constructor.
  - destruct (Rle_dec v a); (constructor; [constructor|lra]).
  - simpl in IH. destruct (Rle_dec v a).
    + constructor; [constructor; assumption|assumption].
    + destruct (Rle_dec v b).
      * constructor; [exact IH|lra].
      * constructor; [exact IH|assumption].
Qed.

(** [std_sort] arranges the frequencies in ascending order. *)
Lemma std_sort_sorted (l : list R) : LocallySorted Rle (std_sort l).
Proof.
  induction l as [|a l IH]; simpl; [constructor|].
  now apply insertSorted_sorted.
Qed.

Lemma fold_Rmin_cases (l : list R) (a : R) :
  (fold_left Rmin l a = a \/ In (fold_left Rmin l a) l)
  /\ fold_left Rmin l a <= a
  /\ (forall g, In g l -> fold_left Rmin l a <= g).
Proof.
  revert a. induction l as [|g l IH]; intros a; simpl.
  - split; [now left|]. split; [lra|tauto].
  - destruct (IH (Rmin a g)) as (Hin & Hle & Hall).
    pose proof (Rmin_l a g). pose proof (Rmin_r a g).
    split; [|split].
    + destruct Hin as [Hin|Hin]; [|now right; right].
      rewrite Hin. unfold Rmin. destruct (Rle_dec a g); [now left|right; now left].
    + lra.
    + intros g' [<-|Hg']; [lra|auto].
Qed.

(** [minPositive] is the least positive value of the list when there is one,
    and 0 otherwise. *)
Lemma minPositive_spec (gaps : list R) :
  ((forall g, In g gaps -> ~ g > 0) -> minPositive gaps = 0)
  /\ ((exists g, In g gaps /\ g > 0) ->
      In (minPositive gaps) gaps /\ minPositive gaps > 0
      /\ forall g, In g gaps -> g > 0 -> minPositive gaps <= g).
Proof.
  unfold minPositive.
  destruct (filter (fun g => Rgtb g 0) gaps) as [|p ps] eqn:Hf.
  - split; [reflexivity|]. intros (g & Hg & Hpos).
    assert (Hin : In g (filter (fun g => Rgtb g 0) gaps))
      by (apply filter_In; split; [auto|now apply Rgtb_true]).
    rewrite Hf in Hin. destruct Hin.
  - assert (Hmem : forall g, In g (p :: ps) <-> In g gaps /\ g > 0).
    { intros g. rewrite <- Hf, filter_In, Rgtb_true. tauto. }
    destruct (fold_Rmin_cases ps p) as (Hin & Hle & Hall).
    assert (Hm : In (fold_left Rmin ps p) (p :: ps)).
    { destruct Hin as [->|Hin]; [now left|now right]. }
    apply Hmem in Hm. split.
    + intros Hnone. exfalso. destruct Hm as (Hm & Hpos). exact (Hnone _ Hm Hpos).
    + intros _. split; [tauto|]. split; [tauto|].
      intros g Hg Hpos.
      assert (Hg' : In g (p :: ps)) by (apply Hmem; auto).
      destruct Hg' as [<-|Hg']; [exact Hle|auto].
Qed.

(** [std_sort] answers the ascending arrangement of its argument. *)
Lemma std_sort_ascending (l : list R) : ascending l (std_sort l).
Proof. split; [apply std_sort_perm|apply std_sort_sorted]. Qed.

Lemma Rle_strongly_sorted (l : list R) :
  LocallySorted Rle l -> StronglySorted Rle l.
Proof.
  intros Hs. apply Sorted_StronglySorted.
  - intros x y z Hxy Hyz. lra.
  - now apply Sorted_LocallySorted_iff.
Qed.

(** Two ascending arrangements of the same values are the same list. *)
Lemma strongly_sorted_unique (l1 l2 : list R) :
  StronglySorted Rle l1 -> StronglySorted Rle l2 -> Permutation l1 l2 ->
  l1 = l2.
Proof.
  revert l2. induction l1 as [|a l1 IH]; intros l2 Hs1 Hs2 Hp.
  - apply Permutation_nil in Hp. now subst.
  - destruct l2 as [|b l2];
      [apply Permutation_sym, Permutation_nil in Hp; discriminate|].
    apply StronglySorted_inv in Hs1. destruct Hs1 as (Hs1 & Ha).
    apply StronglySorted_inv in Hs2. destruct Hs2 as (Hs2 & Hb).
    rewrite Forall_forall in Ha, Hb.
    assert (Hab : a = b).
    { assert (Hina : In a (b :: l2))
        by (apply (Permutation_in _ Hp); now left).
      assert (Hinb : In b (a :: l1))
        by (apply (Permutation_in _ (Permutation_sym Hp)); now left).
      destruct Hina as [->|Hina]; [reflexivity|].
      destruct Hinb as [->|Hinb]; [reflexivity|].
      specialize (Ha b Hinb). specialize (Hb a Hina). lra. }
    subst b. f_equal. apply IH; try assumption.
    now apply Permutation_cons_inv in Hp.
Qed.

Lemma ascending_unique (freqs s1 s2 : list R) :
  ascending freqs s1 -> ascending freqs s2 -> s1 = s2.
Proof.
  intros (Hp1 & Hs1) (Hp2 & Hs2).
  apply strongly_sorted_unique; try (now apply Rle_strongly_sorted).
  eapply Permutation_trans; [apply Permutation_sym, Hp1|exact Hp2].
Qed.

(** The beat frequency read off an ascending arrangement is what the
    engine's own sort leads to. *)
Lemma beatOfSorted_std_sort (freqs sorted : list R) :
  ascending freqs sorted -> beatOfSorted sorted = beatFrequency_spec freqs.
Proof.
  intros Hs.
  rewrite (ascending_unique freqs sorted (std_sort freqs) Hs
                            (std_sort_ascending freqs)).
  unfold beatOfSorted, beatFrequency_spec. now rewrite std_sort_length.
Qed.

End SortedFrequencies.

(** C6.  [detectPhenomenon] decides in this order: no wave, "No waves"; one
    wave, "Single wave"; otherwise "Beating" when the beat frequency lies
    strictly between 0 and 2; otherwise "Resonance" when some two
    frequencies are less than 0.01 apart; otherwise "Superposition".  The
    beat frequency is read off the wave frequencies in ascending order,
    whatever arrangement [sorted] of them is ascending (there is one,
    [std_sort_ascending], and only one, [ascending_unique]): the minimum
    positive gap between consecutive values, 0 with fewer than two waves
    or without a positive gap.  [calculateBeatFrequency] returns it, unless
    it reaches [DBL_MAX], the starting value of the search, where the
    answer is 0. *)
Theorem detectPhenomenon_decision_order (e : WaveEngine.t) (sorted : list R) :
  let freqs := map getFrequency (WaveEngine.waves_ e) in
  ascending freqs sorted ->
  let beat := beatOfSorted sorted in
  WaveEngine.calculateBeatFrequency e
  = (if Rlt_dec beat DBL_MAX then beat else 0)
  /\ (length (WaveEngine.waves_ e) = 0%nat ->
     WaveEngine.detectPhenomenon e = "No waves"%string)
  /\ (length (WaveEngine.waves_ e) = 1%nat ->
        WaveEngine.detectPhenomenon e = "Single wave"%string)
  /\ ((2 <= length (WaveEngine.waves_ e))%nat -> 0 < beat < 2 ->
        WaveEngine.detectPhenomenon e = "Beating"%string)
  /\ ((2 <= length (WaveEngine.waves_ e))%nat -> ~ 0 < beat < 2 ->
        closePair freqs ->
        WaveEngine.detectPhenomenon e = "Resonance"%string)
  /\ ((2 <= length (WaveEngine.waves_ e))%nat -> ~ 0 < beat < 2 ->
        ~ closePair freqs ->
        WaveEngine.detectPhenomenon e = "Superposition"%string).
Proof.
  cbv zeta. intros Hsorted.
  rewrite (beatOfSorted_std_sort _ _ Hsorted).
  split; [apply calculateBeatFrequency_spec|].
  unfold WaveEngine.detectPhenomenon.
  pose proof (beat_test_spec e) as Hbeat. cbv zeta in Hbeat.
  pose proof (hasResonance_iff (map getFrequency (WaveEngine.waves_ e))) as Hres.
  repeat split.
  - intros ->. reflexivity.
  - intros ->. reflexivity.
  - intros Hlen Hb.
    destruct (Nat.eqb_spec (length (WaveEngine.waves_ e)) 0); [lia|].
    destruct (Nat.eqb_spec (length (WaveEngine.waves_ e)) 1); [lia|].
    apply Hbeat in Hb. now rewrite Hb.
  - intros Hlen Hb Hclose.
    destruct (Nat.eqb_spec (length (WaveEngine.waves_ e)) 0); [lia|].
    destruct (Nat.eqb_spec (length (WaveEngine.waves_ e)) 1); [lia|].
    destruct (_ && _) eqn:Ht; [exfalso; apply Hb, Hbeat; reflexivity|].
    apply Hres in Hclose. now rewrite Hclose.
  - intros Hlen Hb Hclose.
    destruct (Nat.eqb_spec (length (WaveEngine.waves_ e)) 0); [lia|].
    destruct (Nat.eqb_spec (length (WaveEngine.waves_ e)) 1); [lia|].
    destruct (_ && _) eqn:Ht; [exfalso; apply Hb, Hbeat; reflexivity|].
    destruct (WaveEngine.hasResonance _) eqn:Hr; [|reflexivity].
    exfalso. apply Hclose, Hres. reflexivity.
Qed.

(** Evaluation of the list functions on numerals. *)
Ltac real_eval :=
  cbn [map getFrequency getAmplitude getPhase length Nat.ltb Nat.leb
       std_sort insertSorted consecutiveGaps filter fold_left
       WaveEngine.waves_];
  unfold Rgtb, Rgeb, Rltb, Rleb, Rmin;
  real_cases;
  cbn [map length Nat.ltb Nat.leb std_sort insertSorted consecutiveGaps filter
       fold_left].

Lemma beat_of_beatingEngine :
  beatFrequency_spec (map getFrequency (WaveEngine.waves_ beatingEngine))
  = 1.1 - 1.
Proof.
  unfold beatFrequency_spec, beatingEngine, minPositive.
  repeat (progress real_eval); try reflexivity; try lra.
Qed.

Lemma beat_of_resonantEngine :
  beatFrequency_spec (map getFrequency (WaveEngine.waves_ resonantEngine)) = 0.
Proof.
  unfold beatFrequency_spec, resonantEngine, minPositive.
  repeat (progress real_eval); try reflexivity; try lra.
Qed.

Lemma beat_of_apartEngine :
  beatFrequency_spec (map getFrequency (WaveEngine.waves_ apartEngine)) = 5 - 1.
Proof.
  unfold beatFrequency_spec, apartEngine, minPositive.
  repeat (progress real_eval); try reflexivity; try lra.
Qed.

(** The ascending arrangements of the sample engines. *)
Lemma ascending_pair (f1 f2 : R) : f1 <= f2 -> ascending [f1; f2] [f1; f2].
Proof.
  intros H. split; [apply Permutation_refl|].
  constructor; [constructor|exact H].
Qed.

(** C6 on five engines: none and one wave; 1.0 Hz with 1.1 Hz beats; 5 Hz
    twice resonates; 1 Hz with 5 Hz is a plain superposition. *)
Lemma detectPhenomenon_decision_order_witness :
  WaveEngine.detectPhenomenon (WaveEngine.clearWaves beatingEngine)
  = "No waves"%string
  /\ WaveEngine.detectPhenomenon (WaveEngine.removeWave 0 beatingEngine)
     = "Single wave"%string
  /\ WaveEngine.detectPhenomenon beatingEngine = "Beating"%string
  /\ WaveEngine.detectPhenomenon resonantEngine = "Resonance"%string
  /\ WaveEngine.detectPhenomenon apartEngine = "Superposition"%string.
Proof.
  split; [|split; [|split; [|split]]].
  - apply (detectPhenomenon_decision_order
             (WaveEngine.clearWaves beatingEngine) []);
      [split; [apply Permutation_refl|constructor]|reflexivity].
  - apply (detectPhenomenon_decision_order
             (WaveEngine.removeWave 0 beatingEngine) [1.1]);
      [split; [apply Permutation_refl|constructor]|reflexivity].
  - destruct (detectPhenomenon_decision_order beatingEngine [1; 1.1])
      as (_ & _ & _ & H & _); [apply ascending_pair; lra|].
    apply H; [simpl; lia|].
    unfold beatOfSorted, minPositive.
    repeat (progress real_eval); lra.
  - destruct (detectPhenomenon_decision_order resonantEngine [5; 5])
      as (_ & _ & _ & _ & H & _); [apply ascending_pair; lra|].
    apply H; [simpl; lia| |].
    + unfold beatOfSorted, minPositive.
      repeat (progress real_eval); lra.
    + exists 0%nat, 1%nat, 5, 5. simpl.
      repeat split; auto. rewrite Rminus_diag, Rabs_R0. lra.
  - destruct (detectPhenomenon_decision_order apartEngine [1; 5])
      as (_ & _ & _ & _ & _ & H); [apply ascending_pair; lra|].
    apply H; [simpl; lia| |].
    + unfold beatOfSorted, minPositive.
      repeat (progress real_eval); lra.
    + intros (i & j & fi & fj & Hij & Hi & Hj & Hd).
      destruct i as [|[|i]], j as [|[|j]]; simpl in Hi, Hj;
        try congruence; try (destruct i; discriminate);
        try (destruct j; discriminate);
        injection Hi as <-; injection Hj as <-;
        revert Hd; unfold Rabs; destruct (Rcase_abs _); lra.
Defined.

(** ** Two-wave interference *)

Section TwoWaves.

Import InterferenceCalculator.

Lemma turns_enough (d : R) : Rabs d < 360 * INR (turns d).
Proof.
  unfold turns.
  destruct (archimed (Rabs d / 360)) as [Hup _].
  pose proof (Rabs_pos d) as Habs.
  assert (Hq : 0 <= Rabs d / 360)
    by (apply Rmult_le_pos; [exact Habs|lra]).
  assert (Hz : (0 <= up (Rabs d / 360))%Z).
  { apply le_IZR. lra. }
  rewrite INR_IZR_INZ, Z2Nat.id by exact Hz.
  apply Rmult_lt_reg_r with (/ 360); [lra|].
  replace (360 * IZR (up (Rabs d / 360)) * / 360)
    with (IZR (up (Rabs d / 360))) by (field; lra).
  exact Hup.
Qed.

Lemma PHASE_STALL_large : 360 <= PHASE_STALL.
Proof. unfold PHASE_STALL. lra. Qed.

(** The first loop leaves through its guard, having added a whole number of
    turns, when its steps change [diff]; a value that was negative ends
    below 360. *)
Lemma raiseLoop_exit (fuel : nat) (d : R) :
  Rabs d <= PHASE_STALL ->
  - d <= 360 * INR fuel ->
  exists (k : nat) (r : R),
    raiseLoop fuel d = Some r
    /\ r = d + 360 * INR k
    /\ 0 <= r
    /\ (d < 0 -> r < 360)
    /\ (0 <= d -> r = d).
Proof.
  pose proof PHASE_STALL_large as HS.
  revert d. induction fuel as [|fuel IH]; intros d Hst Hd.
  - simpl in Hd. cbn [raiseLoop].
    destruct (Rlt_dec d 0) as [Hneg|Hpos]; [lra|].
    exists 0%nat, d. simpl. repeat split; intros; lra.
  - rewrite S_INR in Hd. cbn [raiseLoop].
    destruct (Rlt_dec d 0) as [Hneg|Hpos].
    + unfold plus360. destruct (Rle_dec (Rabs d) PHASE_STALL) as [_|Hno];
        [|lra].
      destruct (IH (d + 360)) as (k & res & Hr & Hk & H0 & Hlt & Hid).
      * revert Hst. unfold Rabs.
        destruct (Rcase_abs d); destruct (Rcase_abs (d + 360)); lra.
      * lra.
      * exists (S k), res. rewrite S_INR. repeat split; try lra; exact Hr.
    + exists 0%nat, d. simpl. repeat split; intros; lra.
Qed.

(** When its step leaves a negative [diff] as it was, the first loop never
    leaves. *)
Lemma raiseLoop_stalls (fuel : nat) (d : R) :
  d < 0 -> PHASE_STALL < Rabs d -> raiseLoop fuel d = None.
Proof.
  intros Hneg Hst. induction fuel as [|fuel IH]; cbn [raiseLoop];
    destruct (Rlt_dec d 0); try lra; [reflexivity|].
  unfold plus360.
  destruct (Rle_dec (Rabs d) PHASE_STALL) as [Hle|_]; [lra|exact IH].
Qed.

(** The second loop leaves through its guard, having removed a whole number
    of turns, when its steps change [diff]; a value that was not negative
    stays so. *)
Lemma lowerLoop_exit (fuel : nat) (d : R) :
  Rabs d <= PHASE_STALL ->
  d < 360 * INR fuel + 360 ->
  exists (k : nat) (r : R),
    lowerLoop fuel d = Some r
    /\ r = d - 360 * INR k
    /\ r < 360
    /\ (0 <= d -> 0 <= r).
Proof.
  pose proof PHASE_STALL_large as HS.
  revert d. induction fuel as [|fuel IH]; intros d Hst Hd.
  - simpl in Hd. cbn [lowerLoop].
    destruct (Rge_dec d 360) as [Hbig|Hsmall]; [lra|].
    exists 0%nat, d. simpl. repeat split; intros; lra.
  - rewrite S_INR in Hd. cbn [lowerLoop].
    destruct (Rge_dec d 360) as [Hbig|Hsmall].
    + unfold minus360. destruct (Rle_dec (Rabs d) PHASE_STALL) as [_|Hno];
        [|lra].
      destruct (IH (d - 360)) as (k & res & Hr & Hk & Hlt & H0).
      * revert Hst. unfold Rabs.
        destruct (Rcase_abs d); destruct (Rcase_abs (d - 360)); lra.
      * lra.
      * exists (S k), res. rewrite S_INR. repeat split; try lra; exact Hr.
    + exists 0%nat, d. simpl. repeat split; intros; lra.
Qed.

(** When its step leaves a [diff] of 360 or more as it was, the second loop
    never leaves. *)
Lemma lowerLoop_stalls (fuel : nat) (d : R) :
  360 <= d -> PHASE_STALL < Rabs d -> lowerLoop fuel d = None.
Proof.
  intros Hbig Hst. induction fuel as [|fuel IH]; cbn [lowerLoop];
    destruct (Rge_dec d 360); try lra; [reflexivity|].
  unfold minus360.
  destruct (Rle_dec (Rabs d) PHASE_STALL) as [Hle|_]; [lra|exact IH].
Qed.

(** For phases up to [PHASE_STALL] apart, [calculatePhaseShift] returns the
    phase difference brought into [0, 360) by whole turns. *)
Lemma calculatePhaseShift_normalized (w1 w2 : WaveFunction) :
  Rabs (getPhase w2 - getPhase w1) <= PHASE_STALL ->
  exists r : R,
    calculatePhaseShift w1 w2 = Some r
    /\ 0 <= r < 360
    /\ exists k : Z, r = getPhase w2 - getPhase w1 + 360 * IZR k.
Proof.
  pose proof PHASE_STALL_large as HS.
  intros Hst. unfold calculatePhaseShift.
  set (diff := getPhase w2 - getPhase w1) in *.
  destruct (raiseLoop_exit (turns diff) diff Hst)
    as (k1 & diff1 & Hr1 & Hk1 & H0 & Hlt1 & Hid1).
  { pose proof (turns_enough diff). pose proof (Rle_abs (- diff)).
    rewrite Rabs_Ropp in *. lra. }
  rewrite Hr1.
  assert (Hst1 : Rabs diff1 <= PHASE_STALL).
  { destruct (Rlt_dec diff 0) as [Hneg|Hpos].
    - specialize (Hlt1 Hneg). rewrite Rabs_pos_eq by exact H0. lra.
    - rewrite Hid1 by lra. exact Hst. }
  destruct (lowerLoop_exit (turns diff1) diff1 Hst1)
    as (k2 & r & Hr2 & Hk2 & Hlt & Hpos).
  { pose proof (turns_enough diff1). pose proof (Rle_abs diff1). lra. }
  exists r. split; [exact Hr2|].
  split; [split; [now apply Hpos|exact Hlt]|].
  exists (Z.of_nat k1 - Z.of_nat k2)%Z.
  rewrite Hk2, Hk1, minus_IZR, <- !INR_IZR_INZ. ring.
Qed.

(** For phases further apart one of the loops never leaves:
    [calculatePhaseShift] does not return. *)
Lemma calculatePhaseShift_stalls (w1 w2 : WaveFunction) :
  PHASE_STALL < Rabs (getPhase w2 - getPhase w1) ->
  calculatePhaseShift w1 w2 = None.
Proof.
  pose proof PHASE_STALL_large as HS.
  intros Hst. unfold calculatePhaseShift.
  set (diff := getPhase w2 - getPhase w1) in *.
  destruct (Rlt_dec diff 0) as [Hneg|Hpos].
  - now rewrite raiseLoop_stalls.
  - assert (Hraise : raiseLoop (turns diff) diff = Some diff).
    { destruct (turns diff); cbn [raiseLoop];
        destruct (Rlt_dec diff 0); try lra; reflexivity. }
    rewrite Hraise. apply lowerLoop_stalls; [|exact Hst].
    rewrite Rabs_pos_eq in Hst by lra. lra.
Qed.

Lemma minElement_spec (a : R) (l : list R) :
  In (minElement (a :: l)) (a :: l)
  /\ forall v, In v (a :: l) -> minElement (a :: l) <= v.
Proof.
  unfold minElement. revert a. induction l as [|b l IH]; intros a.
  - simpl. split; [now left|]. intros v [<-|[]]. lra.
  - cbn [fold_left]. destruct (Rlt_dec b a) as [Hlt|Hge].
    + destruct (IH b) as (Hin & Hall). split.
      * right. exact Hin.
      * intros v [<-|Hv]; [|auto].
        specialize (Hall b (or_introl eq_refl)). lra.
    + destruct (IH a) as (Hin & Hall). split.
      * destruct Hin as [Hin|Hin]; [now left|now right; right].
      * intros v [<-|[<-|Hv]].
        -- apply Hall. now left.
        -- specialize (Hall a (or_introl eq_refl)). lra.
        -- apply Hall. now right.
Qed.

Lemma maxElement_spec (a : R) (l : list R) :
  In (maxElement (a :: l)) (a :: l)
  /\ forall v, In v (a :: l) -> v <= maxElement (a :: l).
Proof.
  unfold maxElement. revert a. induction l as [|b l IH]; intros a.
  - simpl. split; [now left|]. intros v [<-|[]]. lra.
  - cbn [fold_left]. destruct (Rlt_dec b a) as [Hlt|Hge].
    + destruct (IH a) as (Hin & Hall). split.
      * destruct Hin as [Hin|Hin]; [now left|now right; right].
      * intros v [<-|[<-|Hv]].
        -- apply Hall. now left.
        -- specialize (Hall a (or_introl eq_refl)). lra.
        -- apply Hall. now right.
    + destruct (IH b) as (Hin & Hall). split.
      * right. exact Hin.
      * intros v [<-|Hv]; [|auto].
        specialize (Hall b (or_introl eq_refl)). lra.
Qed.

(** The peak of a non-empty sample vector: the largest absolute value. *)
Lemma peak_is_max_abs (l : list R) :
  l <> [] ->
  let peak := std_max (Rabs (minElement l)) (Rabs (maxElement l)) in
  (forall v, In v l -> Rabs v <= peak) /\ exists v, In v l /\ peak = Rabs v.
Proof.
  destruct l as [|a l]; [congruence|]. intros _.
  destruct (minElement_spec a l) as (Hmin_in & Hmin).
  destruct (maxElement_spec a l) as (Hmax_in & Hmax).
  cbv zeta. split.
  - intros v Hv. specialize (Hmin v Hv). specialize (Hmax v Hv).
    revert Hmin Hmax. unfold std_max, Rabs.
    destruct (Rcase_abs (minElement (a :: l)));
      destruct (Rcase_abs (maxElement (a :: l)));
      destruct (Rcase_abs v); real_cases.
  - unfold std_max.
    destruct (Rlt_dec (Rabs (minElement (a :: l))) (Rabs (maxElement (a :: l)))).
    + exists (maxElement (a :: l)). auto.
    + exists (minElement (a :: l)). auto.
Qed.

Lemma samplePositions_nth (len : R) (numPoints : Z) (i : nat) :
  (i < Z.to_nat numPoints)%nat ->
  nth i (samplePositions len numPoints) 0
  = INR i * (len / IZR (numPoints - 1)).
Proof.
  intros Hi. unfold samplePositions. now rewrite nth_map_seq.
Qed.

End TwoWaves.

(** C7, as the specification has it, fails: with [length = 1] and two points the
    second sample is taken at [x = 1], outside the half-open [0, 1). *)
Lemma sampling_reaches_length :
  ~ (forall x, In x (InterferenceCalculator.samplePositions 1 2) -> 0 <= x < 1).
Proof.
  intros H. specialize (H 1). assert (Hin : 0 <= 1 < 1); [|lra].
  apply H. unfold InterferenceCalculator.samplePositions. simpl.
  right; left. lra.
Qed.

(** C7, amended.  For [numPoints >= 2], [calculateTwoWaveInterference]
    samples the sum of the two waves at the [numPoints] positions
    [x_i = i * length / (numPoints - 1)], evenly spaced from [x = 0] to
    [x = length], both ends sampled (the closed interval [0, length]).  For
    two waves whose phases are at most [PHASE_STALL] apart it returns; the
    peak amplitude is then the largest absolute sampled value and the
    relative phase is [phase2 - phase1] brought into [0, 360) by whole
    turns.  For phases further apart the normalising loops never leave and
    it does not return. *)
Theorem twoWave_sampling_peak_phase (w1 w2 : WaveFunction) (time len : R)
        (numPoints : Z) :
  (2 <= numPoints)%Z ->
  let xs := InterferenceCalculator.samplePositions len numPoints in
  let samples := InterferenceCalculator.sampledSum w1 w2 time len numPoints in
  length xs = Z.to_nat numPoints
  /\ (forall i, (i < Z.to_nat numPoints)%nat ->
                nth i xs 0 = INR i * (len / IZR (numPoints - 1)))
  /\ nth 0 xs 0 = 0
  /\ nth (Z.to_nat numPoints - 1) xs 0 = len
  /\ (0 <= len -> forall x, In x xs -> 0 <= x <= len)
  /\ samples = map (fun x => evaluate w1 x time + evaluate w2 x time) xs
  /\ (Rabs (getPhase w2 - getPhase w1) <= InterferenceCalculator.PHASE_STALL ->
      exists r,
        InterferenceCalculator.calculateTwoWaveInterference
          w1 w2 time len numPoints = Some r
        /\ (forall a, In a samples ->
                      Rabs a <= InterferenceCalculator.amplitude r)
        /\ (exists a, In a samples
                      /\ InterferenceCalculator.amplitude r = Rabs a)
        /\ 0 <= InterferenceCalculator.phase r < 360
        /\ exists k : Z,
             InterferenceCalculator.phase r
             = getPhase w2 - getPhase w1 + 360 * IZR k)
  /\ (InterferenceCalculator.PHASE_STALL < Rabs (getPhase w2 - getPhase w1) ->
      InterferenceCalculator.calculateTwoWaveInterference
        w1 w2 time len numPoints = None).
Proof.
  intros Hn. cbv zeta.
  assert (Hpos : 0 < IZR (numPoints - 1)) by (apply IZR_lt; lia).
  assert (Hlast : INR (Z.to_nat numPoints - 1) = IZR (numPoints - 1)).
  { rewrite INR_IZR_INZ. f_equal. lia. }
  assert (Hlen : length (InterferenceCalculator.samplePositions len numPoints)
                 = Z.to_nat numPoints).
  { unfold InterferenceCalculator.samplePositions.
    now rewrite length_map, length_seq. }
  split; [exact Hlen|].
  split; [intros i Hi; now apply samplePositions_nth|].
  split; [rewrite samplePositions_nth by lia; simpl; lra|].
  split; [rewrite samplePositions_nth by lia; rewrite Hlast; field; lra|].
  split.
  { intros Hlen0 x Hx. unfold InterferenceCalculator.samplePositions in Hx.
    apply in_map_iff in Hx. destruct Hx as (i & <- & Hi).
    apply in_seq in Hi.
    assert (Hi0 : 0 <= INR i) by apply pos_INR.
    assert (Hi1 : INR i <= IZR (numPoints - 1)).
    { rewrite <- Hlast. apply le_INR. lia. }
    assert (Hdx : 0 <= len / IZR (numPoints - 1)).
    { apply Rmult_le_pos; [lra|]. left. now apply Rinv_0_lt_compat. }
    split; [now apply Rmult_le_pos|].
    replace len with (IZR (numPoints - 1) * (len / IZR (numPoints - 1))) at 2
      by (field; lra).
    now apply Rmult_le_compat_r. }
  split; [reflexivity|].
  assert (Hne : InterferenceCalculator.sampledSum w1 w2 time len numPoints <> []).
  { intros Hnil. apply (f_equal (@length R)) in Hnil.
    unfold InterferenceCalculator.sampledSum in Hnil.
    rewrite length_map, Hlen in Hnil. simpl in Hnil. lia. }
  destruct (peak_is_max_abs _ Hne) as (Hall & Hex).
  unfold InterferenceCalculator.calculateTwoWaveInterference.
  destruct (Z.ltb_spec numPoints 0) as [Hneg|_]; [lia|].
  split.
  - intros Hst.
    destruct (calculatePhaseShift_normalized w1 w2 Hst)
      as (ph & -> & Hrange & Hturns).
    eexists. split; [reflexivity|].
    cbn [InterferenceCalculator.amplitude InterferenceCalculator.phase].
    split; [exact Hall|]. split; [exact Hex|].
    split; [exact Hrange|exact Hturns].
  - intros Hst. now rewrite calculatePhaseShift_stalls.
Qed.

(** C7 (amended) at two sinusoids a quarter turn apart, three points over a
    length of 10. *)
Lemma twoWave_sampling_peak_phase_witness :
  nth 2 (InterferenceCalculator.samplePositions 10 3) 0 = 10
  /\ exists r,
       InterferenceCalculator.calculateTwoWaveInterference
         (SinusoidalWave 1 1 90) (SinusoidalWave 1 1 0) 0 10 3 = Some r
       /\ 0 <= InterferenceCalculator.phase r < 360.
Proof.
  destruct (twoWave_sampling_peak_phase
              (SinusoidalWave 1 1 90) (SinusoidalWave 1 1 0) 0 10 3)
    as (_ & _ & _ & Hlast & _ & _ & Hreturns & _); [lia|].
  split; [exact Hlast|].
  destruct Hreturns as (r & Hr & _ & _ & Hphase & _).
  - cbn [getPhase]. unfold InterferenceCalculator.PHASE_STALL, Rabs.
    destruct (Rcase_abs (0 - 90)); lra.
  - exists r. split; [exact Hr|exact Hphase].
Defined.

(* ===================================================================== *)
(** * Further properties of the core                                      *)
(* ===================================================================== *)

(** ** The wave variants *)

Section WaveVariants.

Lemma scaled_within (a c : R) : Rabs c <= 1 -> Rabs (a * c) <= Rabs a.
Proof.
  intros Hc. rewrite Rabs_mult. pose proof (Rabs_pos a).
  replace (Rabs a) with (Rabs a * 1) at 2 by ring.
  now apply Rmult_le_compat_l.
Qed.

Lemma fractional_part_range (r : R) : 0 <= r - floorR r < 1.
Proof.
  unfold floorR. destruct (base_Int_part r) as (Hle & Hgt). lra.
Qed.

Lemma floorR_succ (r : R) : floorR (r + 1) = floorR r + 1.
Proof.
  unfold floorR. rewrite <- plus_IZR. f_equal. symmetry.
  apply Int_part_spec. rewrite plus_IZR.
  destruct (base_Int_part r) as (Hle & Hgt). lra.
Qed.

(** Every variant stays within its amplitude. *)
Lemma evaluate_abs_le (w : WaveFunction) (x t : R) :
  Rabs (evaluate w x t) <= Rabs (getAmplitude w).
Proof.
  destruct w as [a f p|a f p|a f p|a f p|a f p]; cbn [evaluate getAmplitude].
  - apply scaled_within, Rabs_le. pose proof (SIN_bound
      (Physics.TWO_PI * f * t + p * Physics.DEG_TO_RAD)). lra.
  - apply scaled_within, Rabs_le. pose proof (COS_bound
      (Physics.TWO_PI * f * t + p * Physics.DEG_TO_RAD)). lra.
  - apply scaled_within. destruct (Rge_dec _ 0); apply Rabs_le; lra.
  - pose proof (fractional_part_range (f * t + p / 360)) as Hfrac.
    cbv zeta. set (frac := f * t + p / 360 - floorR (f * t + p / 360)) in *.
    destruct (Rlt_dec frac 0.25); [|destruct (Rlt_dec frac 0.75)].
    + replace (a * 4 * frac) with (a * (4 * frac)) by ring.
      apply scaled_within, Rabs_le. lra.
    + apply scaled_within, Rabs_le. lra.
    + apply scaled_within, Rabs_le. lra.
  - pose proof (fractional_part_range (f * t + p / 360)) as Hfrac.
    cbv zeta. apply scaled_within, Rabs_le. lra.
Qed.

End WaveVariants.

(** X1.  No wave variant ever leaves the band of its amplitude: at every
    position and time the value lies within [-|A|, |A|]; the square wave is
    always at one of the two ends. *)
Theorem evaluate_within_amplitude (w : WaveFunction) (x t : R) :
  Rabs (evaluate w x t) <= Rabs (getAmplitude w)
  /\ (getType w = SQUARE -> Rabs (evaluate w x t) = Rabs (getAmplitude w)).
Proof.
  split; [apply evaluate_abs_le|].
  destruct w as [a f p|a f p|a f p|a f p|a f p]; try discriminate.
  intros _. cbn [evaluate getAmplitude]. cbv zeta.
  rewrite Rabs_mult.
  destruct (Rge_dec _ 0).
  - rewrite Rabs_R1. ring.
  - replace (-1) with (- (1)) by lra. rewrite Rabs_Ropp, Rabs_R1. ring.
Qed.

(** X1 at a square wave of amplitude -2. *)
Lemma evaluate_within_amplitude_witness :
  Rabs (evaluate (SquareWave (-2) 1 0) 0 3) = Rabs (-2).
Proof.
  destruct (evaluate_within_amplitude (SquareWave (-2) 1 0) 0 3) as (_ & H).
  apply H. reflexivity.
Defined.

(** X2.  A wave of non-zero frequency repeats after [getPeriod], the
    reciprocal of its frequency: [evaluate(x, t + period) = evaluate(x, t)]
    for each of the five variants. *)
Theorem evaluate_periodic (w : WaveFunction) (x t : R) :
  getFrequency w <> 0 ->
  evaluate w x (t + getPeriod w) = evaluate w x t.
Proof.
  unfold getPeriod.
  destruct w as [a f p|a f p|a f p|a f p|a f p];
    cbn [evaluate getFrequency]; intros Hf; unfold Physics.TWO_PI, Physics.PI.
  - replace (2 * PI * f * (t + 1 / f) + p * Physics.DEG_TO_RAD)
      with (2 * PI * f * t + p * Physics.DEG_TO_RAD + 2 * INR 1 * PI)
      by (simpl; field; exact Hf).
    now rewrite sin_period.
  - replace (2 * PI * f * (t + 1 / f) + p * Physics.DEG_TO_RAD)
      with (2 * PI * f * t + p * Physics.DEG_TO_RAD + 2 * INR 1 * PI)
      by (simpl; field; exact Hf).
    now rewrite cos_period.
  - cbv zeta.
    replace (2 * PI * f * (t + 1 / f) + p * Physics.DEG_TO_RAD)
      with (2 * PI * f * t + p * Physics.DEG_TO_RAD + 2 * INR 1 * PI)
      by (simpl; field; exact Hf).
    now rewrite sin_period.
  - cbv zeta.
    replace (f * (t + 1 / f) + p / 360) with (f * t + p / 360 + 1)
      by (field; exact Hf).
    rewrite floorR_succ.
    replace (f * t + p / 360 + 1 - (floorR (f * t + p / 360) + 1))
      with (f * t + p / 360 - floorR (f * t + p / 360)) by ring.
    reflexivity.
  - cbv zeta.
    replace (f * (t + 1 / f) + p / 360) with (f * t + p / 360 + 1)
      by (field; exact Hf).
    rewrite floorR_succ.
    replace (f * t + p / 360 + 1 - (floorR (f * t + p / 360) + 1))
      with (f * t + p / 360 - floorR (f * t + p / 360)) by ring.
    reflexivity.
Qed.

(** X2 at a triangular wave of 2 Hz. *)
Lemma evaluate_periodic_witness :
  evaluate (TriangularWave 3 2 45) 0 (1 + getPeriod (TriangularWave 3 2 45))
  = evaluate (TriangularWave 3 2 45) 0 1.
Proof.
  apply (evaluate_periodic (TriangularWave 3 2 45) 0 1). simpl. lra.
Defined.

(** ** The engine: collection and superposition *)

Section EngineSums.

Import WaveEngine.

Lemma fold_left_plus {A : Type} (g : A -> R) (l : list A) (a : R) :
  fold_left (fun r w => r + g w) l a = a + Rsum (map g l).
Proof.
  revert a. induction l as [|w l IH]; intros a; simpl; [ring|].
  rewrite IH. ring.
Qed.

Lemma Rsum_app (l1 l2 : list R) : Rsum (l1 ++ l2) = Rsum l1 + Rsum l2.
Proof. induction l1 as [|a l1 IH]; simpl; [ring|]. rewrite IH. ring. Qed.

Lemma evaluateSuperposition_Rsum (e : WaveEngine.t) (x time : R) :
  evaluateSuperposition e x time
  = Rsum (map (fun w => evaluate w x time) (waves_ e)).
Proof. unfold evaluateSuperposition. rewrite fold_left_plus. ring. Qed.

(** No variant reads the position. *)
Lemma evaluate_position_unused (w : WaveFunction) (x x' time : R) :
  evaluate w x time = evaluate w x' time.
Proof. destruct w; reflexivity. Qed.

Lemma evaluateWave_in_range (e : WaveEngine.t) (i : nat) (w : WaveFunction)
      (x time : R) :
  nth_error (waves_ e) i = Some w -> evaluateWave e i x time = evaluate w x time.
Proof.
  intros Hw. unfold evaluateWave.
  assert (Hi : (i < length (waves_ e))%nat)
    by (apply nth_error_Some; congruence).
  destruct (Nat.ltb_spec i (length (waves_ e))); [|lia]. now rewrite Hw.
Qed.

Lemma Rsum_by_index {A : Type} (g : A -> R) (l : list A) (h : nat -> R) :
  (forall i w, nth_error l i = Some w -> h i = g w) ->
  Rsum (map g l) = Rsum (map h (seq 0 (length l))).
Proof.
  revert h. induction l as [|a l IH]; intros h Hh; [reflexivity|].
  cbn [length seq map Rsum fold_right]. rewrite <- seq_shift, map_map.
  rewrite (Hh 0%nat a eq_refl). f_equal.
  apply (IH (fun i => h (S i))). intros i w Hw. now apply Hh.
Qed.

End EngineSums.

(** X3.  Adding a wave appends it: the count grows by one, the new wave is
    found at the old count, every earlier index still answers the same
    wave, and removing the index of the new wave gives the engine back. *)
Theorem addWave_lookup_remove (e : WaveEngine.t) (w : WaveFunction) :
  WaveEngine.getWaveCount (WaveEngine.addWave w e)
  = S (WaveEngine.getWaveCount e)
  /\ WaveEngine.getWave (WaveEngine.getWaveCount e) (WaveEngine.addWave w e)
     = Some w
  /\ (forall i, (i < WaveEngine.getWaveCount e)%nat ->
        WaveEngine.getWave i (WaveEngine.addWave w e) = WaveEngine.getWave i e)
  /\ WaveEngine.removeWave (WaveEngine.getWaveCount e) (WaveEngine.addWave w e)
     = e.
Proof.
  destruct e as [ws v c].
  unfold WaveEngine.getWaveCount, WaveEngine.addWave, WaveEngine.getWave,
    WaveEngine.removeWave.
  cbn [WaveEngine.waves_ WaveEngine.velocity_ WaveEngine.currentTime_].
  rewrite length_app. cbn [length].
  split; [lia|]. split; [|split].
  - destruct (Nat.ltb_spec (length ws) (length ws + 1)); [|lia].
    rewrite nth_error_app2, Nat.sub_diag by lia. reflexivity.
  - intros i Hi.
    destruct (Nat.ltb_spec i (length ws + 1)); [|lia].
    destruct (Nat.ltb_spec i (length ws)); [|lia].
    now rewrite nth_error_app1.
  - destruct (Nat.ltb_spec (length ws) (length ws + 1)); [|lia].
    f_equal. rewrite firstn_app, Nat.sub_diag, firstn_all. cbn [firstn].
    rewrite skipn_all2 by (rewrite length_app; simpl; lia).
    now rewrite !app_nil_r.
Qed.

(** X3 on the engine of two waves: index 1 is still the cosine wave after a
    square wave is added. *)
Lemma addWave_lookup_remove_witness :
  WaveEngine.getWave 1 (WaveEngine.addWave (SquareWave 1 1 0) twoWaveEngine)
  = WaveEngine.getWave 1 twoWaveEngine.
Proof.
  destruct (addWave_lookup_remove twoWaveEngine (SquareWave 1 1 0))
    as (_ & _ & Hold & _).
  apply Hold. unfold WaveEngine.getWaveCount. simpl. lia.
Defined.

(** X4.  The superposition is the sum of the owned waves, one
    [evaluateWave] per index; an index past the end contributes 0; adding a
    wave adds its value, and an emptied engine gives 0. *)
Theorem evaluateSuperposition_by_wave (e : WaveEngine.t) (x time : R) :
  WaveEngine.evaluateSuperposition e x time
  = Rsum (map (fun i => WaveEngine.evaluateWave e i x time)
              (seq 0 (WaveEngine.getWaveCount e)))
  /\ (forall i, (WaveEngine.getWaveCount e <= i)%nat ->
        WaveEngine.evaluateWave e i x time = 0)
  /\ (forall w,
        WaveEngine.evaluateSuperposition (WaveEngine.addWave w e) x time
        = WaveEngine.evaluateSuperposition e x time + evaluate w x time)
  /\ WaveEngine.evaluateSuperposition (WaveEngine.clearWaves e) x time = 0.
Proof.
  split; [|split; [|split]].
  - rewrite evaluateSuperposition_Rsum. unfold WaveEngine.getWaveCount.
    apply Rsum_by_index. intros i w Hw. now apply evaluateWave_in_range.
  - intros i Hi. unfold WaveEngine.evaluateWave, WaveEngine.getWaveCount in *.
    destruct (Nat.ltb_spec i (length (WaveEngine.waves_ e))); [lia|reflexivity].
  - intros w. rewrite !evaluateSuperposition_Rsum.
    unfold WaveEngine.addWave. cbn [WaveEngine.waves_].
    rewrite map_app, Rsum_app. simpl. ring.
  - reflexivity.
Qed.

(** X4 on the engine of two waves: index 7 contributes nothing. *)
Lemma evaluateSuperposition_by_wave_witness :
  WaveEngine.evaluateWave twoWaveEngine 7 0 1 = 0.
Proof.
  destruct (evaluateSuperposition_by_wave twoWaveEngine 0 1) as (_ & Hout & _).
  apply Hout. unfold WaveEngine.getWaveCount. simpl. lia.
Defined.

(** X5.  The superposition never exceeds the sum of the absolute amplitudes
    of the owned waves. *)
Theorem evaluateSuperposition_bounded (e : WaveEngine.t) (x time : R) :
  Rabs (WaveEngine.evaluateSuperposition e x time)
  <= Rsum (map (fun w => Rabs (getAmplitude w)) (WaveEngine.waves_ e)).
Proof.
  rewrite evaluateSuperposition_Rsum.
  induction (WaveEngine.waves_ e) as [|w ws IH]; simpl.
  - rewrite Rabs_R0. lra.
  - eapply Rle_trans; [apply Rabs_triang|].
    pose proof (evaluate_abs_le w x time). lra.
Qed.

(** ** The engine: sampling *)

Section EngineSampling.

Import WaveEngine.

Lemma Int_part_IZR (z : Z) : Int_part (IZR z) = z.
Proof. symmetry. apply Int_part_spec. lra. Qed.

Lemma truncate_IZR (z : Z) : truncate (IZR z) = z.
Proof.
  unfold truncate. destruct (Rlt_dec (IZR z) 0) as [Hneg|Hpos].
  - rewrite <- opp_IZR, Int_part_IZR. lia.
  - apply Int_part_IZR.
Qed.





(** The conversion of a whole number that fits an [int]. *)
Lemma toInt_IZR (z : Z) :
  (INT_MIN <= z <= INT_MAX)%Z -> toInt (IZR z) = Some z.
Proof.
  intros Hz. unfold toInt. rewrite truncate_IZR.
  destruct (Z.leb_spec INT_MIN z); destruct (Z.leb_spec z INT_MAX);
    cbn [andb]; try lia; reflexivity.
Qed.






End EngineSampling.



(** X7.  [generateSpatialSeries] is flat: no wave variant reads the
    position, so every sample it returns is the superposition at the given
    time. *)
Theorem generateSpatialSeries_flat (e : WaveEngine.t) (len rate time : R)
        (data : list R) :
  WaveEngine.generateSpatialSeries e len rate time = Some data ->
  forall v, In v data -> v = WaveEngine.evaluateSuperposition e 0 time.
Proof.
  unfold WaveEngine.generateSpatialSeries, reserved.
  destruct (toInt (len * rate)) as [numSamples|]; [|discriminate].
  destruct (Z.ltb_spec numSamples 0); [discriminate|].
  intros Hdata v Hv. injection Hdata as <-.
  apply in_map_iff in Hv. destruct Hv as (i & <- & _).
  rewrite !evaluateSuperposition_Rsum.
  apply (f_equal Rsum), map_ext. intros w. apply evaluate_position_unused.
Qed.

(** X7 on the engine of two waves, four samples over a length of 2: the
    last sample, taken at position 1.5, is the value at position 0. *)
Lemma generateSpatialSeries_flat_witness :
  WaveEngine.evaluateSuperposition twoWaveEngine (INR 3 * (1 / 2)) 1
  = WaveEngine.evaluateSuperposition twoWaveEngine 0 1.
Proof.
  apply (generateSpatialSeries_flat twoWaveEngine 2 2 1
           (map (fun i => WaveEngine.evaluateSuperposition
                            twoWaveEngine (INR i * (1 / 2)) 1)
                (seq 0 4))).
  - unfold WaveEngine.generateSpatialSeries.
    replace (2 * 2) with (IZR 4) by (simpl; lra).
    rewrite toInt_IZR by (unfold INT_MIN, INT_MAX; lia). reflexivity.
  - cbn [seq map In]. right. right. right. left. reflexivity.
Defined.

(** ** The engine: energy, dominant wave, beats, statistics *)

Section EngineStatistics.

Import WaveEngine.

Lemma Rsum_nonneg (l : list R) : (forall v, In v l -> 0 <= v) -> 0 <= Rsum l.
Proof.
  induction l as [|a l IH]; intros H; simpl; [lra|].
  pose proof (H a (or_introl eq_refl)).
  assert (0 <= Rsum l) by (apply IH; intros; apply H; now right). lra.
Qed.

Lemma Rsum_zero_iff (l : list R) :
  (forall v, In v l -> 0 <= v) ->
  (Rsum l = 0 <-> forall v, In v l -> v = 0).
Proof.
  induction l as [|a l IH]; intros H; simpl.
  - split; [intros _ v []|reflexivity].
  - pose proof (H a (or_introl eq_refl)) as Ha.
    assert (Hl : forall v, In v l -> 0 <= v) by (intros; apply H; now right).
    pose proof (Rsum_nonneg l Hl) as Hs. specialize (IH Hl). split.
    + intros Hsum v [<-|Hv]; [lra|]. apply IH; [lra|exact Hv].
    + intros Hall. rewrite (Hall a (or_introl eq_refl)).
      assert (Rsum l = 0) by (apply IH; intros; apply Hall; now right). lra.
Qed.

Lemma calculateTotalEnergy_Rsum (e : WaveEngine.t) :
  calculateTotalEnergy e = Rsum (map getEnergy (waves_ e)).
Proof. unfold calculateTotalEnergy. rewrite fold_left_plus. ring. Qed.

Lemma getEnergy_nonneg (w : WaveFunction) : 0 <= getEnergy w.
Proof. unfold getEnergy. nra. Qed.

(** The loop of [getDominantFrequency] is the peak search of the spectrum,
    run on the waves' amplitudes and frequencies. *)
Lemma dominant_fold (ws : list WaveFunction) (st : R * R) :
  fold_left (fun (st : R * R) wave =>
               if Rgt_dec (getAmplitude wave) (fst st)
               then (getAmplitude wave, getFrequency wave) else st)
            ws st
  = fold_left peakStep
              (map (fun w => mkBin (getFrequency w) (getAmplitude w) 0) ws) st.
Proof.
  revert st. induction ws as [|w ws IH]; intros st; [reflexivity|].
  cbn [fold_left map]. rewrite IH. reflexivity.
Qed.

Lemma sumSquares_Rsum (data : list R) :
  sumSquares data = Rsum (map (fun v => v * v) data).
Proof. unfold sumSquares. rewrite fold_left_plus. ring. Qed.

(** The root mean square of a vector lies between 0 and any bound on the
    absolute values of its samples. *)
Lemma rms_bounds (data : list R) (P : R) :
  data <> [] -> (forall v, In v data -> Rabs v <= P) ->
  0 <= sqrt (sumSquares data / INR (length data)) <= P.
Proof.
  intros Hne HP. split; [apply sqrt_pos|].
  assert (Hn : 0 < INR (length data)).
  { apply lt_0_INR. destruct data; [congruence|simpl; lia]. }
  assert (HP0 : 0 <= P).
  { destruct data as [|a data]; [congruence|].
    pose proof (HP a (or_introl eq_refl)). pose proof (Rabs_pos a). lra. }
  assert (Hsum : sumSquares data <= INR (length data) * (P * P)).
  { rewrite sumSquares_Rsum. clear Hne Hn.
    induction data as [|a data IH]; [simpl; lra|].
    cbn [map Rsum fold_right length]. rewrite S_INR.
    assert (Ha : a * a <= P * P).
    { pose proof (HP a (or_introl eq_refl)) as Hle. revert Hle.
      unfold Rabs. destruct (Rcase_abs a); intros; nra. }
    assert (Rsum (map (fun v => v * v) data) <= INR (length data) * (P * P))
      by (apply IH; intros; apply HP; now right).
    unfold Rsum in *. lra. }
  rewrite <- (sqrt_square P HP0). apply sqrt_le_1_alt.
  apply Rmult_le_reg_r with (INR (length data)); [exact Hn|].
  unfold Rdiv. rewrite Rmult_assoc, Rinv_l by lra. lra.
Qed.

End EngineStatistics.

(** X8.  The total energy is never negative; adding a wave adds its own
    energy [0.5 * A^2]; it is zero exactly when every owned wave has
    amplitude zero. *)
Theorem calculateTotalEnergy_additive (e : WaveEngine.t) :
  0 <= WaveEngine.calculateTotalEnergy e
  /\ (forall w,
        WaveEngine.calculateTotalEnergy (WaveEngine.addWave w e)
        = WaveEngine.calculateTotalEnergy e
          + 0.5 * getAmplitude w * getAmplitude w)
  /\ (WaveEngine.calculateTotalEnergy e = 0
      <-> forall w, In w (WaveEngine.waves_ e) -> getAmplitude w = 0).
Proof.
  rewrite calculateTotalEnergy_Rsum.
  assert (Hpos : forall v, In v (map getEnergy (WaveEngine.waves_ e)) -> 0 <= v).
  { intros v Hv. apply in_map_iff in Hv. destruct Hv as (w & <- & _).
    apply getEnergy_nonneg. }
  split; [now apply Rsum_nonneg|]. split.
  - intros w. rewrite calculateTotalEnergy_Rsum.
    unfold WaveEngine.addWave. cbn [WaveEngine.waves_].
    rewrite map_app, Rsum_app. unfold getEnergy. simpl. ring.
  - rewrite (Rsum_zero_iff _ Hpos). split.
    + intros Hall w Hw.
      assert (He : getEnergy w = 0) by (apply Hall, in_map, Hw).
      unfold getEnergy in He. nra.
    + intros Hall v Hv. apply in_map_iff in Hv. destruct Hv as (w & <- & Hw).
      unfold getEnergy. rewrite (Hall w Hw). ring.
Qed.

(** X8 at an engine of two waves of amplitude 0. *)
Lemma calculateTotalEnergy_additive_witness :
  WaveEngine.calculateTotalEnergy
    (WaveEngine.mkEngine [SinusoidalWave 0 1 0; SquareWave 0 2 0] 1 0) = 0.
Proof.
  apply (calculateTotalEnergy_additive
           (WaveEngine.mkEngine [SinusoidalWave 0 1 0; SquareWave 0 2 0] 1 0)).
  intros w [<-|[<-|[]]]; reflexivity.
Defined.

(** X9.  [getDominantFrequency] is the frequency of the first wave of
    largest amplitude, and that amplitude is what [getMaxAmplitude]
    returns, provided some amplitude is positive; when no amplitude is
    positive both return 0. *)
Theorem getDominantFrequency_largest_wave (e : WaveEngine.t) :
  ((forall w, In w (WaveEngine.waves_ e) -> getAmplitude w <= 0) ->
   WaveEngine.getDominantFrequency e = 0 /\ WaveEngine.getMaxAmplitude e = 0)
  /\ ((exists w, In w (WaveEngine.waves_ e) /\ 0 < getAmplitude w) ->
      exists pre w post,
        WaveEngine.waves_ e = pre ++ w :: post
        /\ (forall w', In w' pre -> getAmplitude w' < getAmplitude w)
        /\ (forall w', In w' post -> getAmplitude w' <= getAmplitude w)
        /\ WaveEngine.getDominantFrequency e = getFrequency w
        /\ WaveEngine.getMaxAmplitude e = getAmplitude w).
Proof.
  unfold WaveEngine.getDominantFrequency, WaveEngine.getMaxAmplitude.
  rewrite dominant_fold.
  set (toBin := fun w => mkBin (getFrequency w) (getAmplitude w) 0).
  pose proof (peak_fold (map toBin (WaveEngine.waves_ e)) 0 0) as Hpeak.
  cbv zeta in Hpeak.
  destruct (maxAmp_fold (WaveEngine.waves_ e) 0) as (Hge & Hall & Hin).
  split.
  - intros Hflat. split.
    + destruct Hpeak as [(_ & ->)|(pre & b & post & Hl & Hm & _)];
        [reflexivity|].
      exfalso. assert (Hb : In b (map toBin (WaveEngine.waves_ e)))
        by (rewrite Hl; apply in_elt).
      apply in_map_iff in Hb. destruct Hb as (w & <- & Hw).
      specialize (Hflat w Hw). simpl in Hm. lra.
    + destruct Hin as [Hr|(w & Hw & Hr)]; [exact Hr|].
      specialize (Hflat w Hw). lra.
  - intros (w1 & Hw1 & Hpos1).
    destruct Hpeak as [(Hnone & _)|(pre & b & post & Hl & Hm & Hpre & Hpost & ->)].
    + specialize (Hnone (toBin w1) (in_map toBin _ _ Hw1)). simpl in Hnone. lra.
    + apply map_eq_app in Hl. destruct Hl as (pre' & rest & Hws & Hpre' & Hrest).
      apply map_eq_cons in Hrest.
      destruct Hrest as (w & post' & -> & Hb & Hpost').
      subst pre b post. exists pre', w, post'. cbn [snd bin_frequency toBin].
      assert (Hlt : forall w', In w' pre' -> getAmplitude w' < getAmplitude w).
      { intros w' Hw'. apply (Hpre (toBin w')). now apply in_map. }
      assert (Hle : forall w', In w' post' -> getAmplitude w' <= getAmplitude w).
      { intros w' Hw'. apply (Hpost (toBin w')). now apply in_map. }
      split; [exact Hws|]. split; [exact Hlt|]. split; [exact Hle|].
      split; [reflexivity|].
      assert (Hw : In w (WaveEngine.waves_ e)) by (rewrite Hws; apply in_elt).
      pose proof (Hall w Hw) as Hbound. simpl in Hm.
      destruct Hin as [Hr|(w' & Hw' & Hr)]; [lra|].
      rewrite Hws in Hw'. apply in_app_or in Hw'.
      apply Rle_antisym; [|exact Hbound]. rewrite Hr.
      destruct Hw' as [Hw'|[<-|Hw']];
        [specialize (Hlt w' Hw'); lra|lra|now apply Hle].
Qed.

(** X9 on the engine of two waves: the cosine wave, of amplitude 2, is the
    dominant one; on the engine of negative amplitudes both answers are 0. *)
Lemma getDominantFrequency_largest_wave_witness :
  (WaveEngine.getDominantFrequency negativeEngine = 0
   /\ WaveEngine.getMaxAmplitude negativeEngine = 0)
  /\ exists pre w post,
       WaveEngine.waves_ twoWaveEngine = pre ++ w :: post
       /\ (forall w', In w' pre -> getAmplitude w' < getAmplitude w)
       /\ (forall w', In w' post -> getAmplitude w' <= getAmplitude w)
       /\ WaveEngine.getDominantFrequency twoWaveEngine = getFrequency w
       /\ WaveEngine.getMaxAmplitude twoWaveEngine = getAmplitude w.
Proof.
  split.
  - destruct (getDominantFrequency_largest_wave negativeEngine) as (H & _).
    apply H. intros w [<-|[<-|[]]]; simpl; lra.
  - destruct (getDominantFrequency_largest_wave twoWaveEngine) as (_ & H).
    apply H. exists (CosineWave 2 3 90). split; [right; now left|simpl; lra].
Defined.

(** X10.  The engine's beat frequency is never negative.  It is 0, or a
    positive gap between consecutive sorted frequencies that no other
    positive gap undercuts.  For an engine of exactly two waves whose
    frequencies differ (by less than [DBL_MAX]) it is [|f1 - f2|], the beat
    frequency of [InterferenceCalculator]. *)
Theorem engine_beat_frequency (e : WaveEngine.t) :
  let gaps := consecutiveGaps
                (std_sort (map getFrequency (WaveEngine.waves_ e))) in
  0 <= WaveEngine.calculateBeatFrequency e
  /\ (WaveEngine.calculateBeatFrequency e = 0
      \/ (In (WaveEngine.calculateBeatFrequency e) gaps
          /\ forall g, In g gaps -> g > 0 ->
                       WaveEngine.calculateBeatFrequency e <= g))
  /\ (forall w1 w2,
        WaveEngine.waves_ e = [w1; w2] ->
        0 < Rabs (getFrequency w1 - getFrequency w2) < DBL_MAX ->
        WaveEngine.calculateBeatFrequency e
        = InterferenceCalculator.calculateBeatFrequency
            (getFrequency w1) (getFrequency w2)).
Proof.
  cbv zeta. pose proof (calculateBeatFrequency_spec e) as Hspec.
  cbv zeta in Hspec.
  set (freqs := map getFrequency (WaveEngine.waves_ e)) in *.
  assert (Hcases : beatFrequency_spec freqs = 0
                   \/ (In (beatFrequency_spec freqs)
                          (consecutiveGaps (std_sort freqs))
                       /\ beatFrequency_spec freqs > 0
                       /\ forall g, In g (consecutiveGaps (std_sort freqs)) ->
                                    g > 0 -> beatFrequency_spec freqs <= g)).
  { unfold beatFrequency_spec.
    destruct (length freqs <? 2)%nat; [now left|].
    destruct (minPositive_spec (consecutiveGaps (std_sort freqs)))
      as (Hnone & Hsome).
    destruct (filter (fun g => Rgtb g 0) (consecutiveGaps (std_sort freqs)))
      as [|g gs] eqn:Hf.
    - left. apply Hnone. intros g Hg Hpos.
      assert (Hin : In g (filter (fun g => Rgtb g 0)
                                 (consecutiveGaps (std_sort freqs))))
        by (apply filter_In; split; [exact Hg|now apply Rgtb_true]).
      rewrite Hf in Hin. destruct Hin.
    - right. apply Hsome. exists g.
      assert (Hin : In g (filter (fun g => Rgtb g 0)
                                 (consecutiveGaps (std_sort freqs))))
        by (rewrite Hf; now left).
      apply filter_In in Hin. destruct Hin as (Hg & Hpos).
      split; [exact Hg|now apply Rgtb_true]. }
  split; [|split].
  - rewrite Hspec. destruct (Rlt_dec _ DBL_MAX); [|lra].
    destruct Hcases as [->|(_ & Hpos & _)]; lra.
  - rewrite Hspec. destruct (Rlt_dec _ DBL_MAX); [|now left].
    destruct Hcases as [Hz|(Hin & _ & Hmin)]; [now left|right; auto].
  - intros w1 w2 Hws Hgap. rewrite Hspec. clear Hspec Hcases.
    unfold freqs. rewrite Hws.
    unfold InterferenceCalculator.calculateBeatFrequency.
    cbn [map getFrequency]. unfold beatFrequency_spec, minPositive.
    cbn [length Nat.ltb Nat.leb std_sort insertSorted].
    revert Hgap. unfold Rabs. destruct (Rcase_abs _) as [Hneg|Hpos]; intros Hgap.
    + destruct (Rle_dec (getFrequency w1) (getFrequency w2)); [|lra].
      cbn [consecutiveGaps filter]. unfold Rgtb, Rltb.
      destruct (Rlt_dec 0 (getFrequency w2 - getFrequency w1)); [|lra].
      cbn [fold_left]. destruct (Rlt_dec _ DBL_MAX); lra.
    + destruct (Rle_dec (getFrequency w1) (getFrequency w2)); [lra|].
      cbn [consecutiveGaps filter]. unfold Rgtb, Rltb.
      destruct (Rlt_dec 0 (getFrequency w1 - getFrequency w2)); [|lra].
      cbn [fold_left]. destruct (Rlt_dec _ DBL_MAX); lra.
Qed.

(** X10 on the beating engine: 1.0 Hz and 1.1 Hz. *)
Lemma engine_beat_frequency_witness :
  WaveEngine.calculateBeatFrequency beatingEngine
  = InterferenceCalculator.calculateBeatFrequency 1 1.1.
Proof.
  destruct (engine_beat_frequency beatingEngine) as (_ & _ & Htwo).
  apply (Htwo (SinusoidalWave 1 1 0) (SinusoidalWave 1 1.1 0)); [reflexivity|].
  cbn [getFrequency]. pose proof DBL_MAX_large.
  unfold Rabs. destruct (Rcase_abs _); lra.
Defined.

(** X11.  [analyzeWaves] on a non-empty vector: the minimum and the maximum
    are samples of the vector and enclose every sample; the RMS amplitude
    lies between 0 and the largest absolute sample; the energy is half the
    square of the RMS; the period is the reciprocal of the engine's dominant
    frequency when that is positive and 0 otherwise, so nothing is divided
    by zero.  On an empty vector every number is 0 and the phenomenon is
    "No data". *)
Theorem analyzeWaves_statistics (e : WaveEngine.t) (data : list R) (rate : R) :
  let a := WaveEngine.analyzeWaves e data rate in
  (data = [] -> a = WaveEngine.mkAnalysis 0 0 0 0 0 0 "No data")
  /\ (data <> [] ->
      In (WaveEngine.minAmplitude a) data
      /\ In (WaveEngine.maxAmplitude a) data
      /\ (forall v, In v data ->
            WaveEngine.minAmplitude a <= v <= WaveEngine.maxAmplitude a)
      /\ 0 <= WaveEngine.rmsAmplitude a
              <= Rmax (Rabs (WaveEngine.minAmplitude a))
                      (Rabs (WaveEngine.maxAmplitude a))
      /\ WaveEngine.an_energy a
         = WaveEngine.rmsAmplitude a * WaveEngine.rmsAmplitude a / 2
      /\ WaveEngine.an_frequency a = WaveEngine.getDominantFrequency e
      /\ (WaveEngine.getDominantFrequency e <= 0 -> WaveEngine.an_period a = 0)
      /\ (0 < WaveEngine.getDominantFrequency e ->
          WaveEngine.an_period a * WaveEngine.getDominantFrequency e = 1)
      /\ WaveEngine.phenomenon a = WaveEngine.detectPhenomenon e).
Proof.
  cbv zeta. split; [intros ->; reflexivity|].
  intros Hne. destruct data as [|d0 data]; [congruence|].
  unfold WaveEngine.analyzeWaves.
  cbn [WaveEngine.minAmplitude WaveEngine.maxAmplitude WaveEngine.rmsAmplitude
       WaveEngine.an_energy WaveEngine.an_frequency WaveEngine.an_period
       WaveEngine.phenomenon].
  change (std_min_element (d0 :: data))
    with (InterferenceCalculator.minElement (d0 :: data)).
  change (std_max_element (d0 :: data))
    with (InterferenceCalculator.maxElement (d0 :: data)).
  destruct (minElement_spec d0 data) as (Hmin_in & Hmin).
  destruct (maxElement_spec d0 data) as (Hmax_in & Hmax).
  split; [exact Hmin_in|]. split; [exact Hmax_in|].
  split; [intros v Hv; split; [now apply Hmin|now apply Hmax]|].
  split.
  { apply rms_bounds; [discriminate|]. intros v Hv.
    specialize (Hmin v Hv). specialize (Hmax v Hv).
    unfold Rmax, Rabs. destruct (Rcase_abs _); destruct (Rcase_abs _);
      destruct (Rcase_abs _); destruct (Rle_dec _ _); lra. }
  split; [lra|]. split; [reflexivity|]. split.
  - intros Hle. destruct (Rgt_dec _ 0); [lra|reflexivity].
  - split; [|reflexivity]. intros Hpos.
    destruct (Rgt_dec _ 0); [field; lra|lra].
Qed.

(** X11 on three samples: the last one lies between the minimum and the
    maximum. *)
Lemma analyzeWaves_statistics_witness :
  WaveEngine.minAmplitude (WaveEngine.analyzeWaves twoWaveEngine [1; -2; 0.5] 10)
  <= 0.5
  <= WaveEngine.maxAmplitude (WaveEngine.analyzeWaves twoWaveEngine [1; -2; 0.5] 10).
Proof.
  destruct (analyzeWaves_statistics twoWaveEngine [1; -2; 0.5] 10) as (_ & H).
  destruct H as (_ & _ & Hall & _); [discriminate|].
  apply Hall. cbn [In]. right. right. left. reflexivity.
Defined.

(** ** Interference: sampling a pattern that does not depend on position *)

Section FlatPattern.

Import InterferenceCalculator.

(** A vector whose samples are all equal has no strict local extremum. *)
Lemma extremaLoop_flat (findMaxima : bool) (i : nat) (data : list R) (c : R) :
  (forall v, In v data -> v = c) -> extremaLoop findMaxima i data = [].
Proof.
  revert i. induction data as [|prev rest IH]; intros i Hc; [reflexivity|].
  cbn [extremaLoop]. destruct rest as [|cur [|next rest']]; try reflexivity.
  rewrite IH by (intros v Hv; apply Hc; now right).
  rewrite (Hc prev) by now left.
  rewrite (Hc cur) by (right; now left).
  unfold Rgtb, Rltb. destruct (Rlt_dec c c); [lra|].
  destruct findMaxima; reflexivity.
Qed.

Lemma calculateTotalAmplitude_position (waves : list WaveFunction)
      (x time : R) :
  calculateTotalAmplitude waves x time = calculateTotalAmplitude waves 0 time.
Proof. reflexivity. Qed.

(** [findInterferenceNodes] finds nothing, whatever the waves. *)
Lemma findInterferenceNodes_nil (waves : list WaveFunction) (time len : R)
      (numPoints : Z) (threshold : R) :
  findInterferenceNodes waves time len numPoints threshold = [].
Proof.
  unfold findInterferenceNodes, findLocalExtrema.
  rewrite !(extremaLoop_flat _ _ _ (Rabs (calculateTotalAmplitude waves 0 time))).
  - reflexivity.
  - intros v Hv. apply in_map_iff in Hv. now destruct Hv as (x & <- & _).
  - intros v Hv. apply in_map_iff in Hv. now destruct Hv as (x & <- & _).
Qed.

(** The peak of a non-empty vector whose samples are all [c]. *)
Lemma flat_peak (l : list R) (c : R) :
  l <> [] -> (forall v, In v l -> v = c) ->
  std_max (Rabs (minElement l)) (Rabs (maxElement l)) = Rabs c.
Proof.
  intros Hne Hc. destruct l as [|a l]; [congruence|].
  destruct (minElement_spec a l) as (Hmin & _).
  destruct (maxElement_spec a l) as (Hmax & _).
  rewrite (Hc _ Hmin), (Hc _ Hmax). unfold std_max.
  destruct (Rlt_dec (Rabs c) (Rabs c)); [lra|reflexivity].
Qed.

Lemma samplePositions_nonempty (len : R) (numPoints : Z) :
  (1 <= numPoints)%Z -> samplePositions len numPoints <> [].
Proof.
  intros Hn Hnil. apply (f_equal (@length R)) in Hnil.
  unfold samplePositions in Hnil. rewrite length_map, length_seq in Hnil.
  simpl in Hnil. lia.
Qed.

(** What [calculateTwoWaveInterference] returns on at least one point. *)
Lemma twoWave_peak (w1 w2 : WaveFunction) (time len : R) (numPoints : Z)
      (r : InterferenceResult) :
  (1 <= numPoints)%Z ->
  calculateTwoWaveInterference w1 w2 time len numPoints = Some r ->
  nodePositions r = []
  /\ antinodePositions r = []
  /\ amplitude r = Rabs (evaluate w1 0 time + evaluate w2 0 time).
Proof.
  intros Hn. unfold calculateTwoWaveInterference.
  destruct (numPoints <? 0)%Z; [discriminate|].
  destruct (calculatePhaseShift w1 w2) as [ph|]; [|discriminate].
  intros [= <-]. cbn [nodePositions antinodePositions amplitude].
  rewrite findInterferenceNodes_nil. cbn [filter map].
  split; [reflexivity|]. split; [reflexivity|].
  apply flat_peak.
  - unfold sampledSum. intros Hnil. apply map_eq_nil in Hnil.
    now apply (samplePositions_nonempty len numPoints).
  - intros v Hv. unfold sampledSum in Hv. apply in_map_iff in Hv.
    now destruct Hv as (x & <- & _).
Qed.

(** It returns when the count is not negative and the phases are at most
    [PHASE_STALL] apart. *)
Lemma twoWave_returns (w1 w2 : WaveFunction) (time len : R) (numPoints : Z) :
  (0 <= numPoints)%Z ->
  Rabs (getPhase w2 - getPhase w1) <= PHASE_STALL ->
  exists r, calculateTwoWaveInterference w1 w2 time len numPoints = Some r.
Proof.
  intros Hn Hst. unfold calculateTwoWaveInterference.
  destruct (Z.ltb_spec numPoints 0); [lia|].
  destruct (calculatePhaseShift_normalized w1 w2 Hst) as (ph & -> & _).
  eexists. reflexivity.
Qed.

End FlatPattern.

(** X12.  The interference analysis never reports a node or an antinode:
    the waves do not depend on the position, every sample of the pattern is
    the same, and a flat pattern has no strict local extremum.  Sampled on
    at least one point, [calculateTwoWaveInterference] returns for phases
    at most [PHASE_STALL] apart, and whenever it returns the peak amplitude
    of the two waves is the absolute value of their sum at the given
    time. *)
Theorem twoWave_pattern_is_flat (w1 w2 : WaveFunction) (time len : R)
        (numPoints : Z) :
  ((0 <= numPoints)%Z ->
   forall waves threshold,
     InterferenceCalculator.findInterferenceNodes
       waves time len numPoints threshold = [])
  /\ ((1 <= numPoints)%Z ->
      (Rabs (getPhase w2 - getPhase w1) <= InterferenceCalculator.PHASE_STALL ->
       exists r,
         InterferenceCalculator.calculateTwoWaveInterference
           w1 w2 time len numPoints = Some r)
      /\ forall r,
           InterferenceCalculator.calculateTwoWaveInterference
             w1 w2 time len numPoints = Some r ->
           InterferenceCalculator.nodePositions r = []
           /\ InterferenceCalculator.antinodePositions r = []
           /\ InterferenceCalculator.amplitude r
              = Rabs (evaluate w1 0 time + evaluate w2 0 time)).
Proof.
  split.
  - intros _ waves threshold. apply findInterferenceNodes_nil.
  - intros Hn. split.
    + intros Hst. apply twoWave_returns; [lia|exact Hst].
    + intros r Hr. now apply (twoWave_peak w1 w2 time len numPoints).
Qed.

(** X12 at two sinusoids, a thousand points. *)
Lemma twoWave_pattern_is_flat_witness :
  InterferenceCalculator.findInterferenceNodes
    [SinusoidalWave 2 1 0; SinusoidalWave 2 1 180] 0 10 1000 0.1 = []
  /\ exists r,
       InterferenceCalculator.calculateTwoWaveInterference
         (SinusoidalWave 2 1 0) (SinusoidalWave 2 1 180) 0 10 1000 = Some r
       /\ InterferenceCalculator.amplitude r
          = Rabs (evaluate (SinusoidalWave 2 1 0) 0 0
                  + evaluate (SinusoidalWave 2 1 180) 0 0).
Proof.
  destruct (twoWave_pattern_is_flat
              (SinusoidalWave 2 1 0) (SinusoidalWave 2 1 180) 0 10 1000)
    as (Hnodes & Hpeak).
  split.
  - apply Hnodes. lia.
  - destruct Hpeak as (Hreturns & Hflat); [lia|].
    destruct Hreturns as (r & Hr).
    + cbn [getPhase]. unfold InterferenceCalculator.PHASE_STALL, Rabs.
      destruct (Rcase_abs (180 - 0)); lra.
    + exists r. split; [exact Hr|]. now apply Hflat.
Defined.

(** ** Interference: extrema, phases, resonance *)

Section ExtremaAndPhases.

Import InterferenceCalculator.

Lemma isExtremum_iff (findMaxima : bool) (prev cur next : R) :
  (if findMaxima then Rgtb cur prev && Rgtb cur next
   else Rltb cur prev && Rltb cur next) = true
  <-> strictExtremum findMaxima prev cur next.
Proof.
  unfold strictExtremum. destruct findMaxima;
    rewrite andb_true_iff, ?Rgtb_true, ?Rltb_true; tauto.
Qed.

(** The loop started at index [k] reports [k + j] exactly when the window
    at offsets [j], [j+1], [j+2] holds a strict extremum. *)
Lemma extremaLoop_In (findMaxima : bool) (k : nat) (data : list R) (i : nat) :
  In i (extremaLoop findMaxima k data)
  <-> exists j, i = (k + j)%nat /\ (j + 2 < length data)%nat
                /\ strictExtremum findMaxima (nth j data 0)
                                  (nth (j + 1) data 0) (nth (j + 2) data 0).
Proof.
  revert k. induction data as [|prev rest IH]; intros k.
  - simpl. split; [tauto|]. intros (j & _ & Hj & _). simpl in Hj. lia.
  - cbn [extremaLoop]. destruct rest as [|cur [|next rest']].
    + simpl. split; [tauto|]. intros (j & _ & Hj & _). simpl in Hj. lia.
    + simpl. split; [tauto|]. intros (j & _ & Hj & _). simpl in Hj. lia.
    + rewrite in_app_iff, IH. split.
      * intros [Hhere|(j & -> & Hj & Hext)].
        -- exists 0%nat.
           destruct (if findMaxima then _ else _) eqn:Htest;
             [|destruct Hhere].
           destruct Hhere as [<-|[]].
           split; [lia|]. split; [simpl; lia|].
           now apply isExtremum_iff.
        -- exists (S j). split; [lia|]. split; [simpl in *; lia|exact Hext].
      * intros (j & -> & Hj & Hext). destruct j as [|j].
        -- left. apply isExtremum_iff in Hext. cbn [nth Nat.add] in Hext.
           rewrite Hext. left. lia.
        -- right. exists j. split; [lia|]. split; [simpl in *; lia|exact Hext].
Qed.

(** The phase shift taken the other way round, for phases at most
    [PHASE_STALL] apart: both are 0, or they add up to a full turn. *)
Lemma calculatePhaseShift_reverse (w1 w2 : WaveFunction) :
  Rabs (getPhase w2 - getPhase w1) <= PHASE_STALL ->
  exists r r' : R,
    calculatePhaseShift w1 w2 = Some r
    /\ calculatePhaseShift w2 w1 = Some r'
    /\ 0 <= r < 360 /\ 0 <= r' < 360
    /\ ((r = 0 /\ r' = 0) \/ r + r' = 360).
Proof.
  intros Hst.
  assert (Hst' : Rabs (getPhase w1 - getPhase w2) <= PHASE_STALL)
    by (now rewrite Rabs_minus_sym).
  destruct (calculatePhaseShift_normalized w1 w2 Hst) as (r & Hs & Hr & k & Hk).
  destruct (calculatePhaseShift_normalized w2 w1 Hst')
    as (r' & Hs' & Hr' & k' & Hk').
  exists r, r'. repeat (split; [assumption|]).
  assert (Hsum : r + r' = 360 * IZR (k + k')) by (rewrite plus_IZR; lra).
  assert (Hlo : (-1 < k + k')%Z) by (apply lt_IZR; simpl; lra).
  assert (Hhi : (k + k' < 2)%Z) by (apply lt_IZR; simpl; lra).
  assert (Hz : (k + k' = 0 \/ k + k' = 1)%Z) by lia.
  destruct Hz as [Hz|Hz]; rewrite Hz in Hsum; simpl in Hsum.
  - left. lra.
  - right. lra.
Qed.

Lemma calculatePhaseShift_self (w : WaveFunction) :
  calculatePhaseShift w w = Some 0.
Proof.
  pose proof PHASE_STALL_large as HS.
  destruct (calculatePhaseShift_normalized w w) as (r & Hs & Hr & k & Hk).
  { rewrite Rminus_diag, Rabs_R0. lra. }
  assert (Hlo : (-1 < k)%Z) by (apply lt_IZR; simpl; lra).
  assert (Hhi : (k < 1)%Z) by (apply lt_IZR; simpl; lra).
  assert (k = 0%Z) by lia. subst k. simpl in Hk.
  rewrite Hs. f_equal. lra.
Qed.

Lemma withinOfSome_iff (tol fi : R) (later : list WaveFunction) :
  withinOfSome tol fi later = true
  <-> exists j wj, nth_error later j = Some wj
                   /\ Rabs (fi - getFrequency wj) <= tol.
Proof.
  induction later as [|w later IH]; simpl.
  - split; [discriminate|]. intros (j & wj & Hj & _). destruct j; discriminate.
  - destruct (Rle_dec (Rabs (fi - getFrequency w)) tol) as [Hc|Hc].
    + split; [|reflexivity]. intros _. exists 0%nat, w. auto.
    + rewrite IH. split.
      * intros (j & wj & Hj & Hd). exists (S j), wj. auto.
      * intros (j & wj & Hj & Hd). destruct j as [|j]; simpl in Hj.
        -- injection Hj as <-. contradiction.
        -- exists j, wj. auto.
Qed.

Lemma resonantPair_iff (tol : R) (waves : list WaveFunction) :
  resonantPair tol waves = true
  <-> exists i j wi wj,
        i <> j /\ nth_error waves i = Some wi /\ nth_error waves j = Some wj
        /\ Rabs (getFrequency wi - getFrequency wj) <= tol.
Proof.
  induction waves as [|w waves IH]; simpl.
  - split; [discriminate|].
    intros (i & j & wi & wj & _ & Hi & _). destruct i; discriminate.
  - destruct (withinOfSome tol (getFrequency w) waves) eqn:Hc.
    + split; [|reflexivity]. intros _.
      apply withinOfSome_iff in Hc. destruct Hc as (j & wj & Hj & Hd).
      exists 0%nat, (S j), w, wj. repeat split; auto.
    + rewrite IH. split.
      * intros (i & j & wi & wj & Hij & Hi & Hj & Hd).
        exists (S i), (S j), wi, wj. repeat split; auto.
      * intros (i & j & wi & wj & Hij & Hi & Hj & Hd).
        assert (Hno : forall k wk, nth_error waves k = Some wk ->
                        ~ Rabs (getFrequency w - getFrequency wk) <= tol).
        { intros k wk Hk Hd'.
          assert (withinOfSome tol (getFrequency w) waves = true)
            by (apply withinOfSome_iff; exists k, wk; auto).
          congruence. }
        destruct i as [|i], j as [|j]; simpl in Hi, Hj.
        -- congruence.
        -- injection Hi as <-. exfalso. eapply Hno; eauto.
        -- injection Hj as <-. exfalso. eapply Hno; eauto.
           now rewrite Rabs_minus_sym.
        -- exists i, j, wi, wj. repeat split; auto.
Qed.

End ExtremaAndPhases.

(** X13.  [findLocalExtrema] reports index [i] exactly when [i] is an
    interior index ([1 <= i] and [i + 1 < size]) whose sample is strictly
    above (for maxima) or strictly below (for minima) both neighbours; the
    first and the last sample are never reported. *)
Theorem findLocalExtrema_interior (data : list R) (findMaxima : bool)
        (i : nat) :
  In i (InterferenceCalculator.findLocalExtrema data findMaxima)
  <-> (1 <= i)%nat /\ (i + 1 < length data)%nat
      /\ strictExtremum findMaxima (nth (i - 1) data 0) (nth i data 0)
                        (nth (i + 1) data 0).
Proof.
  unfold InterferenceCalculator.findLocalExtrema. rewrite extremaLoop_In.
  split.
  - intros (j & -> & Hj & Hext).
    replace (1 + j - 1)%nat with j by lia.
    replace (1 + j + 1)%nat with (j + 2)%nat by lia.
    replace (1 + j)%nat with (j + 1)%nat by lia.
    split; [lia|]. split; [lia|exact Hext].
  - intros (Hi & Hlen & Hext). exists (i - 1)%nat.
    split; [lia|]. split; [lia|].
    replace (i - 1 + 1)%nat with i by lia.
    replace (i - 1 + 2)%nat with (i + 1)%nat by lia. exact Hext.
Qed.

(** X13 on five samples with a peak at index 2. *)
Lemma findLocalExtrema_interior_witness :
  In 2%nat (InterferenceCalculator.findLocalExtrema [0; 1; 3; 1; 0] true).
Proof.
  apply (findLocalExtrema_interior [0; 1; 3; 1; 0] true 2).
  split; [lia|]. split; [simpl; lia|]. simpl. lra.
Defined.

(** X14.  For two waves whose phases are at most [PHASE_STALL] apart
    (further apart [calculatePhaseShift] does not return), [areInPhase]
    and [areOutOfPhase] answer, and give the same answer whichever of the
    two waves comes first; with a tolerance below 90 degrees the two waves
    are never both in phase and out of phase; and a wave is in phase with
    itself for every tolerance that is not negative. *)
Theorem phase_relations_symmetric (w1 w2 : WaveFunction) (tolerance : R) :
  Rabs (getPhase w2 - getPhase w1) <= InterferenceCalculator.PHASE_STALL ->
  exists inPhase outOfPhase : bool,
    InterferenceCalculator.areInPhase w1 w2 tolerance = Some inPhase
    /\ InterferenceCalculator.areInPhase w2 w1 tolerance = Some inPhase
    /\ InterferenceCalculator.areOutOfPhase w1 w2 tolerance = Some outOfPhase
    /\ InterferenceCalculator.areOutOfPhase w2 w1 tolerance = Some outOfPhase
    /\ (tolerance < 90 -> inPhase = true -> outOfPhase = false)
    /\ (0 <= tolerance ->
        InterferenceCalculator.areInPhase w1 w1 tolerance = Some true).
Proof.
  intros Hst.
  unfold InterferenceCalculator.areInPhase, InterferenceCalculator.areOutOfPhase.
  destruct (calculatePhaseShift_reverse w1 w2 Hst)
    as (r & r' & -> & -> & Hr & Hr' & Hrev).
  eexists. eexists. split; [reflexivity|].
  split; [|split; [reflexivity|split; [|split]]].
  - f_equal. unfold Rleb, Rabs.
    destruct (Rcase_abs (r - 360)); destruct (Rcase_abs (r' - 360));
      destruct (Rle_dec r tolerance); destruct (Rle_dec r' tolerance);
      destruct (Rle_dec _ tolerance); destruct (Rle_dec _ tolerance);
      try reflexivity; lra.
  - f_equal. unfold Rleb, Rabs.
    destruct (Rcase_abs (r - 180)); destruct (Rcase_abs (r' - 180));
      destruct (Rle_dec _ tolerance); destruct (Rle_dec _ tolerance);
      try reflexivity; lra.
  - intros Htol. unfold Rleb, Rabs.
    destruct (Rcase_abs (r - 360)); destruct (Rcase_abs (r - 180));
      destruct (Rle_dec r tolerance); destruct (Rle_dec _ tolerance);
      destruct (Rle_dec _ tolerance); cbn [orb];
      try reflexivity; try discriminate; lra.
  - intros Htol. rewrite calculatePhaseShift_self. f_equal. unfold Rleb.
    destruct (Rle_dec 0 tolerance); [reflexivity|lra].
Qed.

(** X14 at two sinusoids 350 degrees apart, tolerance 15. *)
Lemma phase_relations_symmetric_witness :
  InterferenceCalculator.areInPhase
    (SinusoidalWave 1 1 0) (SinusoidalWave 1 1 350) 15
  = InterferenceCalculator.areInPhase
      (SinusoidalWave 1 1 350) (SinusoidalWave 1 1 0) 15
  /\ InterferenceCalculator.areOutOfPhase
       (SinusoidalWave 1 1 0) (SinusoidalWave 1 1 350) 15
     = InterferenceCalculator.areOutOfPhase
         (SinusoidalWave 1 1 350) (SinusoidalWave 1 1 0) 15
  /\ InterferenceCalculator.areInPhase
       (SinusoidalWave 1 1 0) (SinusoidalWave 1 1 0) 15 = Some true.
Proof.
  destruct (phase_relations_symmetric
              (SinusoidalWave 1 1 0) (SinusoidalWave 1 1 350) 15)
    as (a & b & Ha & Ha' & Hb & Hb' & _ & Hself).
  - cbn [getPhase]. unfold InterferenceCalculator.PHASE_STALL, Rabs.
    destruct (Rcase_abs (350 - 0)); lra.
  - split; [now rewrite Ha, Ha'|]. split; [now rewrite Hb, Hb'|].
    apply Hself. lra.
Defined.

(** X15.  [detectResonance] answers true exactly when two different waves
    of the vector have frequencies at most [frequencyTolerance] apart (a
    vector of fewer than two waves has no such pair).  Whenever the
    engine's [detectPhenomenon] reports "Resonance", [detectResonance] with
    its default tolerance 0.01 agrees on the same waves. *)
Theorem detectResonance_close_pair (waves : list WaveFunction)
        (frequencyTolerance : R) :
  (InterferenceCalculator.detectResonance waves frequencyTolerance = true
   <-> exists i j wi wj,
         i <> j /\ nth_error waves i = Some wi /\ nth_error waves j = Some wj
         /\ Rabs (getFrequency wi - getFrequency wj) <= frequencyTolerance)
  /\ (forall v t,
        WaveEngine.detectPhenomenon (WaveEngine.mkEngine waves v t)
        = "Resonance"%string ->
        InterferenceCalculator.detectResonance
          waves InterferenceCalculator.defaultFrequencyTolerance = true).
Proof.
  assert (Hiff : forall tol,
            InterferenceCalculator.detectResonance waves tol = true
            <-> exists i j wi wj,
                  i <> j /\ nth_error waves i = Some wi
                  /\ nth_error waves j = Some wj
                  /\ Rabs (getFrequency wi - getFrequency wj) <= tol).
  { intros tol. unfold InterferenceCalculator.detectResonance.
    destruct (Nat.ltb_spec (length waves) 2) as [Hlen|Hlen].
    - split; [discriminate|].
      intros (i & j & wi & wj & Hij & Hi & Hj & _).
      assert (i < length waves)%nat by (apply nth_error_Some; congruence).
      assert (j < length waves)%nat by (apply nth_error_Some; congruence).
      lia.
    - apply resonantPair_iff. }
  split; [apply Hiff|].
  intros v t Hres. apply Hiff.
  unfold WaveEngine.detectPhenomenon in Hres. cbn [WaveEngine.waves_] in Hres.
  destruct (length waves =? 0)%nat; [discriminate|].
  destruct (length waves =? 1)%nat; [discriminate|].
  destruct (_ && _); [discriminate|].
  destruct (WaveEngine.hasResonance (map getFrequency waves)) eqn:Hhas;
    [|discriminate].
  apply hasResonance_iff in Hhas.
  destruct Hhas as (i & j & fi & fj & Hij & Hi & Hj & Hd).
  rewrite nth_error_map in Hi, Hj.
  destruct (nth_error waves i) as [wi|] eqn:Hwi; [|discriminate].
  destruct (nth_error waves j) as [wj|] eqn:Hwj; [|discriminate].
  injection Hi as <-. injection Hj as <-.
  exists i, j, wi, wj. repeat split; auto.
  unfold InterferenceCalculator.defaultFrequencyTolerance. lra.
Qed.

(** X15 on the two waves of 5 Hz of [resonantEngine]. *)
Lemma detectResonance_close_pair_witness :
  InterferenceCalculator.detectResonance
    (WaveEngine.waves_ resonantEngine)
    InterferenceCalculator.defaultFrequencyTolerance = true.
Proof.
  apply (proj2 (detectResonance_close_pair
                  (WaveEngine.waves_ resonantEngine) 0) 1 0).
  change (WaveEngine.detectPhenomenon resonantEngine = "Resonance"%string).
  unfold WaveEngine.detectPhenomenon.
  change (length (WaveEngine.waves_ resonantEngine)) with 2%nat.
  cbn [Nat.eqb].
  destruct (_ && _) eqn:Ht.
  - apply beat_test_spec in Ht. rewrite beat_of_resonantEngine in Ht. lra.
  - destruct (WaveEngine.hasResonance _) eqn:Hr; [reflexivity|].
    assert (Hc : closePair
                   (map getFrequency (WaveEngine.waves_ resonantEngine))).
    { exists 0%nat, 1%nat, 5, 5. simpl.
      repeat split; auto. rewrite Rminus_diag, Rabs_R0. lra. }
    apply hasResonance_iff in Hc. congruence.
Defined.

(** ** Interference of several waves *)

Section SeveralWaves.

Import InterferenceCalculator.

Lemma calculateTotalAmplitude_Rsum (waves : list WaveFunction) (x time : R) :
  calculateTotalAmplitude waves x time
  = Rsum (map (fun w => evaluate w x time) waves).
Proof. unfold calculateTotalAmplitude. rewrite fold_left_plus. ring. Qed.

Lemma Rsum_abs_le (l : list R) : Rabs (Rsum l) <= Rsum (map Rabs l).
Proof.
  induction l as [|a l IH]; simpl.
  - rewrite Rabs_R0. lra.
  - pose proof (Rabs_triang a (Rsum l)). lra.
Qed.

Lemma Rsum_le {A : Type} (g h : A -> R) (l : list A) :
  (forall w, In w l -> g w <= h w) -> Rsum (map g l) <= Rsum (map h l).
Proof.
  induction l as [|a l IH]; intros H; simpl; [lra|].
  pose proof (H a (or_introl eq_refl)).
  assert (Rsum (map g l) <= Rsum (map h l))
    by (apply IH; intros; apply H; now right).
  lra.
Qed.

(** The peak of the sampled sum of several waves. *)
Lemma multiWave_peak (waves : list WaveFunction) (time len : R)
      (numPoints : Z) :
  (1 <= numPoints)%Z ->
  std_max
    (Rabs (minElement (map (fun x => calculateTotalAmplitude waves x time)
                           (samplePositions len numPoints))))
    (Rabs (maxElement (map (fun x => calculateTotalAmplitude waves x time)
                           (samplePositions len numPoints))))
  = Rabs (calculateTotalAmplitude waves 0 time).
Proof.
  intros Hn. apply flat_peak.
  - intros Hnil. apply map_eq_nil in Hnil.
    now apply (samplePositions_nonempty len numPoints).
  - intros v Hv. apply in_map_iff in Hv. now destruct Hv as (x & <- & _).
Qed.

(** Two sinusoids of one amplitude and frequency, half a turn apart, cancel
    at every instant. *)
Lemma antiphase_cancel (a f x t : R) :
  evaluate (SinusoidalWave a f 0) x t + evaluate (SinusoidalWave a f 180) x t
  = 0.
Proof.
  cbn [evaluate]. unfold Physics.DEG_TO_RAD, Physics.PI.
  replace (180 * (PI / 180)) with PI by (field; lra).
  rewrite neg_sin.
  replace (Physics.TWO_PI * f * t + 0 * (PI / 180))
    with (Physics.TWO_PI * f * t) by (field; lra).
  ring.
Qed.

End SeveralWaves.

(** X16.  [calculateMultiWaveInterference] with [numPoints] other than 0
    fails only on a negative [numPoints] with two or more waves (the
    [reserve] of a negative count).  When it returns, the type is never
    DESTRUCTIVE; it is NO_INTERFERENCE exactly for fewer than two waves and
    CONSTRUCTIVE exactly when [detectResonance] finds two frequencies within
    0.01; and no node or antinode is reported. *)
Theorem multiWave_classification (unset : R) (waves : list WaveFunction)
        (time len : R) (numPoints : Z) :
  numPoints <> 0%Z ->
  (InterferenceCalculator.calculateMultiWaveInterference
     unset waves time len numPoints = None
   <-> (2 <= length waves)%nat /\ (numPoints < 0)%Z)
  /\ forall r,
       InterferenceCalculator.calculateMultiWaveInterference
         unset waves time len numPoints = Some r ->
       InterferenceCalculator.type r <> InterferenceCalculator.DESTRUCTIVE
       /\ (InterferenceCalculator.type r
           = InterferenceCalculator.NO_INTERFERENCE
           <-> (length waves < 2)%nat)
       /\ (InterferenceCalculator.type r = InterferenceCalculator.CONSTRUCTIVE
           <-> InterferenceCalculator.detectResonance
                 waves InterferenceCalculator.defaultFrequencyTolerance = true)
       /\ InterferenceCalculator.nodePositions r = []
       /\ InterferenceCalculator.antinodePositions r = [].
Proof.
  intros _.
  unfold InterferenceCalculator.calculateMultiWaveInterference.
  destruct waves as [|w0 [|w1 rest]].
  - split.
    + split; [discriminate|]. simpl. lia.
    + intros r [= <-]. cbn.
      repeat split; try discriminate; try lia.
  - split.
    + split; [discriminate|]. simpl. lia.
    + intros r [= <-]. cbn.
      repeat split; try discriminate; try lia.
  - rewrite !findInterferenceNodes_nil. cbn [filter map].
    unfold reserved. destruct (Z.ltb_spec numPoints 0) as [Hneg|Hpos].
    + split; [|discriminate]. split; [|reflexivity].
      intros _. split; [simpl; lia|exact Hneg].
    + split; [split; [discriminate|lia]|].
      intros r [= <-].
      destruct (InterferenceCalculator.detectResonance _ _) eqn:Hres.
      * cbn. repeat split; try discriminate; try (simpl; lia).
      * destruct (_ && _); cbn;
          repeat split; try discriminate; try (simpl; lia).
Qed.

(** X16 on two waves of 5 Hz and a negative count. *)
Lemma multiWave_classification_witness :
  InterferenceCalculator.calculateMultiWaveInterference
    0 [SinusoidalWave 1 5 0; CosineWave 2 5 0] 0 1 (-1) = None.
Proof.
  apply (proj1 (multiWave_classification
                  0 [SinusoidalWave 1 5 0; CosineWave 2 5 0] 0 1 (-1)
                  ltac:(lia))).
  split; [simpl; lia|lia].
Defined.

(** X17.  Two sinusoids of the same amplitude [a] and frequency, 180
    degrees apart, sampled on at least one point: their sum has peak
    amplitude 0.  [calculateTwoWaveInterference] returns and calls the
    pair DESTRUCTIVE when [a > 0.05] and CONSTRUCTIVE when [a <= 0.05] (the
    first test of [classifyInterference] wins), while
    [calculateMultiWaveInterference] on the same two waves calls it
    CONSTRUCTIVE for every [a], with the same peak amplitude 0. *)
Theorem antiphase_pair_classification (unset a f time len : R)
        (numPoints : Z) :
  (1 <= numPoints)%Z ->
  let w1 := SinusoidalWave a f 0 in
  let w2 := SinusoidalWave a f 180 in
  (exists two,
     InterferenceCalculator.calculateTwoWaveInterference
       w1 w2 time len numPoints = Some two
     /\ InterferenceCalculator.amplitude two = 0
     /\ (0.05 < a ->
         InterferenceCalculator.type two = InterferenceCalculator.DESTRUCTIVE)
     /\ (a <= 0.05 ->
         InterferenceCalculator.type two
         = InterferenceCalculator.CONSTRUCTIVE))
  /\ exists r,
       InterferenceCalculator.calculateMultiWaveInterference
         unset [w1; w2] time len numPoints = Some r
       /\ InterferenceCalculator.type r = InterferenceCalculator.CONSTRUCTIVE
       /\ InterferenceCalculator.amplitude r = 0.
Proof.
  intros Hn w1 w2. split.
  - destruct (twoWave_returns w1 w2 time len numPoints) as (two & Htwo);
      [lia| |].
    { unfold w1, w2. cbn [getPhase].
      unfold InterferenceCalculator.PHASE_STALL, Rabs.
      destruct (Rcase_abs (180 - 0)); lra. }
    exists two. split; [exact Htwo|].
    destruct (twoWave_peak w1 w2 time len numPoints two Hn Htwo)
      as (_ & _ & Hpeak).
    assert (Hamp : InterferenceCalculator.amplitude two = 0).
    { rewrite Hpeak. unfold w1, w2. rewrite antiphase_cancel.
      apply Rabs_R0. }
    assert (Htype : InterferenceCalculator.type two
                    = InterferenceCalculator.classifyInterference
                        a a (InterferenceCalculator.amplitude two)
                        InterferenceCalculator.defaultTolerance).
    { revert Htwo.
      unfold InterferenceCalculator.calculateTwoWaveInterference.
      destruct (numPoints <? 0)%Z; [discriminate|].
      destruct (InterferenceCalculator.calculatePhaseShift w1 w2);
        [|discriminate].
      intros [= <-]. reflexivity. }
    rewrite Hamp in Htype.
    unfold InterferenceCalculator.classifyInterference,
      InterferenceCalculator.defaultTolerance in Htype.
    rewrite Rminus_diag, Rabs_R0 in Htype.
    split; [exact Hamp|]. split.
    + intros Ha. rewrite Htype.
      destruct (Rge_dec 0 (a + a - 0.1)); [lra|].
      destruct (Rle_dec 0 (0 + 0.1)); [reflexivity|lra].
    + intros Ha. rewrite Htype.
      destruct (Rge_dec 0 (a + a - 0.1)); [reflexivity|lra].
  - unfold InterferenceCalculator.calculateMultiWaveInterference.
    unfold reserved. destruct (Z.ltb_spec numPoints 0) as [Hneg|_]; [lia|].
    assert (Hres : InterferenceCalculator.detectResonance
                     [w1; w2] InterferenceCalculator.defaultFrequencyTolerance
                   = true).
    { unfold InterferenceCalculator.detectResonance,
        InterferenceCalculator.defaultFrequencyTolerance.
      cbn [length Nat.ltb Nat.leb InterferenceCalculator.resonantPair
           InterferenceCalculator.withinOfSome].
      unfold w1, w2. cbn [getFrequency]. rewrite Rminus_diag, Rabs_R0.
      destruct (Rle_dec 0 0.01); [reflexivity|lra]. }
    rewrite Hres. eexists. split; [reflexivity|].
    cbn [InterferenceCalculator.type InterferenceCalculator.amplitude].
    split; [reflexivity|].
    rewrite multiWave_peak by exact Hn.
    unfold InterferenceCalculator.calculateTotalAmplitude. cbn [fold_left].
    unfold w1, w2. rewrite Rplus_0_l, antiphase_cancel. apply Rabs_R0.
Qed.

(** X17 with amplitude 1, frequency 2, on 5 points. *)
Lemma antiphase_pair_classification_witness :
  exists two,
    InterferenceCalculator.calculateTwoWaveInterference
      (SinusoidalWave 1 2 0) (SinusoidalWave 1 2 180) 0 1 5 = Some two
    /\ InterferenceCalculator.type two = InterferenceCalculator.DESTRUCTIVE.
Proof.
  destruct (antiphase_pair_classification 0 1 2 0 1 5)
    as ((two & Htwo & _ & H & _) & _); [lia|].
  exists two. split; [exact Htwo|]. apply H. lra.
Defined.

(** ** Standing waves, amplification, beats *)

Section StandingAndBeats.

Import InterferenceCalculator.

(** A forward and a backward wave of one amplitude add up to a product. *)
Lemma forward_backward_product (a kx wt : R) :
  a * sin (kx - wt) + a * sin (kx + wt + 0) = 2 * a * sin kx * cos wt.
Proof. rewrite Rplus_0_r, sin_minus, sin_plus. ring. Qed.

Lemma Rsum_map_zero {A : Type} (g : A -> R) (l : list A) :
  (forall w, In w l -> g w = 0) -> Rsum (map g l) = 0.
Proof.
  induction l as [|a l IH]; intros H; simpl; [reflexivity|].
  rewrite (H a (or_introl eq_refl)), IH; [ring|].
  intros; apply H; now right.
Qed.

Lemma individualSum_Rsum (waves : list WaveFunction) :
  fold_left (fun sum wave => sum + getAmplitude wave) waves 0
  = Rsum (map getAmplitude waves).
Proof. rewrite fold_left_plus. ring. Qed.

(** The sum of the waves never exceeds the sum of their amplitudes when no
    amplitude is negative. *)
Lemma total_le_individual (waves : list WaveFunction) (x t : R) :
  (forall w, In w waves -> 0 <= getAmplitude w) ->
  Rabs (calculateTotalAmplitude waves x t) <= Rsum (map getAmplitude waves).
Proof.
  intros Hpos. rewrite calculateTotalAmplitude_Rsum.
  eapply Rle_trans; [apply Rsum_abs_le|].
  rewrite map_map. apply Rsum_le. intros w Hw.
  eapply Rle_trans; [apply evaluate_abs_le|].
  rewrite Rabs_pos_eq; [lra|now apply Hpos].
Qed.

Lemma sumSquares_nonneg (data : list R) : 0 <= sumSquares data.
Proof.
  rewrite sumSquares_Rsum. apply Rsum_nonneg.
  intros v Hv. apply in_map_iff in Hv. destruct Hv as (u & <- & _). nra.
Qed.

Lemma sumSquares_zero_iff (data : list R) :
  sumSquares data = 0 <-> forall v, In v data -> v = 0.
Proof.
  rewrite sumSquares_Rsum, Rsum_zero_iff.
  - split.
    + intros H v Hv. assert (v * v = 0) by (apply H, in_map_iff; eauto). nra.
    + intros H s Hs. apply in_map_iff in Hs. destruct Hs as (u & <- & Hu).
      rewrite (H u Hu). ring.
  - intros v Hv. apply in_map_iff in Hv. destruct Hv as (u & <- & _). nra.
Qed.

End StandingAndBeats.

(** X18.  [calculateStandingWave] with equal amplitudes [a], no phase shift
    and at least two points returns [numPoints] samples, sample [i] being
    [2 a sin(k x_i) cos(omega t)] with [k = omega = 2 pi frequency] and
    [x_i = i * length / (numPoints - 1)]: the shape in space times one
    factor in time.  Its first sample, at [x = 0], is 0 at every time. *)
Theorem standingWave_product (a frequency len time : R) (numPoints : Z) :
  (2 <= numPoints)%Z ->
  exists wave,
    InterferenceCalculator.calculateStandingWave
      a a frequency 0 len numPoints time = Some wave
    /\ length wave = Z.to_nat numPoints
    /\ (forall i, (i < Z.to_nat numPoints)%nat ->
          nth i wave 0
          = 2 * a
            * sin (Physics.TWO_PI * frequency
                   * (INR i * (len / IZR (numPoints - 1))))
            * cos (Physics.TWO_PI * frequency * time))
    /\ nth 0 wave 0 = 0.
Proof.
  intros Hn. unfold InterferenceCalculator.calculateStandingWave, reserved.
  destruct (Z.ltb_spec numPoints 0) as [Hneg|_]; [lia|].
  eexists. split; [reflexivity|].
  rewrite length_map, length_seq. split; [reflexivity|].
  assert (Hnth : forall i, (i < Z.to_nat numPoints)%nat ->
            nth i (map (fun i0 : nat =>
                     a * sin (Physics.TWO_PI * frequency
                              * (INR i0 * (len / IZR (numPoints - 1)))
                              - Physics.TWO_PI * frequency * time)
                     + a * sin (Physics.TWO_PI * frequency
                                * (INR i0 * (len / IZR (numPoints - 1)))
                                + Physics.TWO_PI * frequency * time + 0))
                   (seq 0 (Z.to_nat numPoints))) 0
            = 2 * a
              * sin (Physics.TWO_PI * frequency
                     * (INR i * (len / IZR (numPoints - 1))))
              * cos (Physics.TWO_PI * frequency * time)).
  { intros i Hi. rewrite nth_map_seq by exact Hi.
    apply forward_backward_product. }
  split; [exact Hnth|].
  rewrite Hnth by lia. simpl INR. rewrite Rmult_0_l, Rmult_0_r, sin_0. ring.
Qed.

(** X18 on five points of a string of length 1. *)
Lemma standingWave_product_witness :
  exists wave,
    InterferenceCalculator.calculateStandingWave 1 1 1 0 1 5 0 = Some wave
    /\ length wave = 5%nat.
Proof.
  destruct (standingWave_product 1 1 1 0 5) as (wave & Hw & Hlen & _);
    [lia|].
  exists wave. split; [exact Hw|exact Hlen].
Defined.

(** X19.  [calculateResonanceAmplification] of waves whose amplitudes are
    not negative lies between 0 and 1.  It measures the waves at position 0
    and time 0 only, so sinusoids with phase 0, however well they
    reinforce each other later, are given amplification 0. *)
Theorem resonanceAmplification_range (waves : list WaveFunction) :
  (forall w, In w waves -> 0 <= getAmplitude w) ->
  0 <= InterferenceCalculator.calculateResonanceAmplification waves <= 1
  /\ ((forall w, In w waves -> exists a f, w = SinusoidalWave a f 0) ->
      InterferenceCalculator.calculateResonanceAmplification waves = 0).
Proof.
  intros Hpos.
  unfold InterferenceCalculator.calculateResonanceAmplification.
  destruct waves as [|w0 rest]; [split; [lra|reflexivity]|].
  set (waves := w0 :: rest) in *.
  rewrite individualSum_Rsum.
  pose proof (total_le_individual waves 0 0 Hpos) as Hle.
  pose proof (Rabs_pos (InterferenceCalculator.calculateTotalAmplitude
                          waves 0 0)) as Habs.
  destruct (Rgt_dec (Rsum (map getAmplitude waves)) 0) as [Hs|Hs].
  - split.
    + split.
      * apply Rmult_le_pos; [exact Habs|].
        apply Rlt_le, Rinv_0_lt_compat. lra.
      * apply Rmult_le_reg_r with (Rsum (map getAmplitude waves)); [lra|].
        unfold Rdiv. rewrite Rmult_assoc, Rinv_l by lra. lra.
    + intros Hsin.
      rewrite calculateTotalAmplitude_Rsum, Rsum_map_zero.
      * rewrite Rabs_R0. unfold Rdiv. ring.
      * intros w Hw. destruct (Hsin w Hw) as (a & f & ->).
        cbn [evaluate]. rewrite Rmult_0_r, Rmult_0_l, Rplus_0_l, sin_0. ring.
  - split; [lra|reflexivity].
Qed.

(** X19 on two in-phase sinusoids of 5 Hz. *)
Lemma resonanceAmplification_range_witness :
  InterferenceCalculator.calculateResonanceAmplification
    [SinusoidalWave 1 5 0; SinusoidalWave 2 5 0] = 0.
Proof.
  apply (resonanceAmplification_range
           [SinusoidalWave 1 5 0; SinusoidalWave 2 5 0]).
  - intros w [<-|[<-|[]]]; cbn [getAmplitude]; lra.
  - intros w [<-|[<-|[]]]; eauto.
Defined.

(** X20.  [calculateRMSAmplitude] is the RMS that the engine's
    [analyzeWaves] reports for the same samples; it is never negative, and
    it is 0 exactly when every sample is 0. *)
Theorem calculateRMSAmplitude_zero (data : list R) :
  (forall e rate,
     InterferenceCalculator.calculateRMSAmplitude data
     = WaveEngine.rmsAmplitude (WaveEngine.analyzeWaves e data rate))
  /\ 0 <= InterferenceCalculator.calculateRMSAmplitude data
  /\ (InterferenceCalculator.calculateRMSAmplitude data = 0
      <-> forall v, In v data -> v = 0).
Proof.
  unfold InterferenceCalculator.calculateRMSAmplitude, WaveEngine.analyzeWaves.
  destruct data as [|d0 rest].
  - split; [reflexivity|]. split; [lra|].
    split; [intros _ v []|reflexivity].
  - set (data := d0 :: rest).
    split; [reflexivity|]. split; [apply sqrt_pos|].
    assert (Hn : 0 < INR (length data)) by (apply lt_0_INR; simpl; lia).
    pose proof (sumSquares_nonneg data) as Hss.
    rewrite <- sumSquares_zero_iff. split.
    + intros Hz. apply sqrt_eq_0 in Hz.
      * unfold Rdiv in Hz. apply Rmult_integral in Hz.
        destruct Hz as [Hz|Hz]; [exact Hz|].
        pose proof (Rinv_0_lt_compat _ Hn). lra.
      * apply Rmult_le_pos; [exact Hss|].
        apply Rlt_le, Rinv_0_lt_compat, Hn.
    + intros ->. unfold Rdiv. rewrite Rmult_0_l. apply sqrt_0.
Qed.

(** X21.  [calculateBeatPeriod] is the reciprocal of the beat frequency
    [|f1 - f2|] when the frequencies differ and 0 when they are equal, so
    it never divides by zero; it is never negative and does not depend on
    the order of the two frequencies. *)
Theorem calculateBeatPeriod_reciprocal (f1 f2 : R) :
  (f1 = f2 -> InterferenceCalculator.calculateBeatPeriod f1 f2 = 0)
  /\ (f1 <> f2 ->
      InterferenceCalculator.calculateBeatPeriod f1 f2
      * InterferenceCalculator.calculateBeatFrequency f1 f2 = 1)
  /\ 0 <= InterferenceCalculator.calculateBeatPeriod f1 f2
  /\ InterferenceCalculator.calculateBeatPeriod f1 f2
     = InterferenceCalculator.calculateBeatPeriod f2 f1.
Proof.
  unfold InterferenceCalculator.calculateBeatPeriod,
    InterferenceCalculator.calculateBeatFrequency.
  rewrite (Rabs_minus_sym f2 f1).
  pose proof (Rabs_pos (f1 - f2)) as Hpos.
  split; [|split; [|split]].
  - intros ->. rewrite Rminus_diag, Rabs_R0.
    destruct (Rgt_dec 0 0); [lra|reflexivity].
  - intros Hne.
    assert (Rabs (f1 - f2) <> 0) by (apply Rabs_no_R0; lra).
    destruct (Rgt_dec (Rabs (f1 - f2)) 0); [|lra].
    field. assumption.
  - destruct (Rgt_dec (Rabs (f1 - f2)) 0) as [Hgt|]; [|lra].
    unfold Rdiv. rewrite Rmult_1_l. apply Rlt_le, Rinv_0_lt_compat. lra.
  - reflexivity.
Qed.

(** X21 at 440 Hz and 442 Hz. *)
Lemma calculateBeatPeriod_reciprocal_witness :
  InterferenceCalculator.calculateBeatPeriod 440 442
  * InterferenceCalculator.calculateBeatFrequency 440 442 = 1.
Proof.
  apply (calculateBeatPeriod_reciprocal 440 442). lra.
Defined.



(** ** The transform of a real signal *)

Section RealSignals.

Import FourierAnalyzer.

Lemma fft_padded (signal : list R) : fft signal = fftRecursive (padded signal).
Proof.
  unfold fft, padded, resize. cbv zeta.
  destruct (nextPowerOfTwo_spec (length signal)) as (j & _ & Hle & _).
  assert (Hn : (length signal <= nextPowerOfTwo (length signal))%nat).
  { destruct (nextPowerOfTwo_spec (length signal)) as (j' & -> & H & _).
    exact H. }
  rewrite firstn_all2 by (rewrite length_map; exact Hn).
  now rewrite length_map.
Qed.

Lemma padded_length (signal : list R) :
  length (padded signal) = nextPowerOfTwo (length signal).
Proof.
  unfold padded. rewrite length_app, length_map, repeat_length.
  destruct (nextPowerOfTwo_spec (length signal)) as (j & -> & H & _). lia.
Qed.

Lemma padded_real (signal : list R) (j : nat) :
  imag (nth j (padded signal) C0) = 0.
Proof.
  unfold padded.
  destruct (Nat.lt_ge_cases j (length signal)) as [Hj|Hj].
  - rewrite app_nth1 by (now rewrite length_map).
    rewrite map_nth_in with (d := 0) by exact Hj. reflexivity.
  - rewrite app_nth2 by (now rewrite length_map).
    destruct (nth_in_or_default (j - length (map ofReal signal))
                (repeat C0 (nextPowerOfTwo (length signal) - length signal))
                C0) as [Hin| ->]; [|reflexivity].
    apply repeat_spec in Hin. now rewrite Hin.
Qed.

Lemma map_repeat {A B : Type} (f : A -> B) (a : A) (n : nat) :
  map f (repeat a n) = repeat (f a) n.
Proof. induction n as [|n IH]; simpl; [reflexivity|now rewrite IH]. Qed.

Lemma Rsum_repeat_zero (n : nat) : Rsum (repeat 0 n) = 0.
Proof. induction n as [|n IH]; simpl; [reflexivity|rewrite IH; ring]. Qed.

(** The sum of the samples of a vector, by components. *)
Lemma Csum_list (l : list Complex) :
  Csum (fun j => nth j l C0) (length l)
  = mkComplex (Rsum (map real l)) (Rsum (map imag l)).
Proof.
  induction l as [|a l IH] using rev_ind; [reflexivity|].
  rewrite length_app, Nat.add_comm. cbn [length Nat.add Csum].
  rewrite (Csum_ext _ (fun j => nth j l C0))
    by (intros i Hi; now apply app_nth1).
  rewrite IH, nth_middle, !map_app, !Rsum_app. cbn [map Rsum fold_right].
  sample_eq.
Qed.

(** A point of the unit circle times its conjugate is 1. *)
Lemma twiddle_unit (e n : nat) :
  Cmul (twiddle e n) (Cconj (twiddle e n)) = Cone.
Proof.
  rewrite twiddle_cis. set (a := _ / _).
  apply Complex_ext; cbn [real imag Cmul Cconj cis Cone].
  - pose proof (sin2_cos2 a) as H. unfold Rsqr in H. lra.
  - ring.
Qed.

(** The twiddle factor of the mirrored index is the conjugate. *)
Lemma twiddle_mirror (n j k : nat) :
  (0 < n)%nat -> (k <= n)%nat ->
  twiddle (j * (n - k)) n = Cconj (twiddle (j * k) n).
Proof.
  intros Hn Hk.
  assert (Hone : Cmul (twiddle (j * (n - k)) n) (twiddle (j * k) n) = Cone).
  { rewrite <- twiddle_add.
    replace (j * (n - k) + j * k)%nat with (n * j + 0)%nat by nia.
    rewrite twiddle_period by exact Hn. rewrite twiddle_zero. reflexivity. }
  pose proof (twiddle_unit (j * k) n) as Hunit.
  transitivity (Cmul (twiddle (j * (n - k)) n)
                     (Cmul (twiddle (j * k) n) (Cconj (twiddle (j * k) n)))).
  - rewrite Hunit. ring.
  - transitivity (Cmul (Cmul (twiddle (j * (n - k)) n) (twiddle (j * k) n))
                       (Cconj (twiddle (j * k) n))); [ring|].
    rewrite Hone. ring.
Qed.

(** The round trip on any real signal gives the padded samples back. *)
Lemma ifft_fft_is_padded (signal : list R) :
  ifft (fft signal) = padded signal.
Proof.
  rewrite fft_padded.
  destruct (nextPowerOfTwo_spec (length signal)) as (j & Hj & _).
  apply (ifft_fftRecursive j). now rewrite padded_length.
Qed.

Lemma padded_realParts (signal : list R) :
  realParts (padded signal)
  = signal ++ repeat 0 (nextPowerOfTwo (length signal) - length signal).
Proof.
  unfold realParts, padded.
  rewrite map_app, map_map, map_repeat. cbn [ofReal real C0].
  now rewrite map_id.
Qed.

(** Bin 0 of the defining sum is the sum of the samples. *)
Lemma padded_dc (signal : list R) :
  dft (padded signal) 0 = mkComplex (Rsum signal) 0.
Proof.
  unfold dft. rewrite (Csum_ext _ (fun j => nth j (padded signal) C0)).
  - rewrite Csum_list. unfold padded.
    rewrite !map_app, !map_map, !map_repeat, !Rsum_app.
    cbn [ofReal real imag C0]. rewrite map_id, !Rsum_repeat_zero.
    apply Complex_eq; [ring|].
    rewrite Rplus_0_r. apply Rsum_map_zero. reflexivity.
  - intros j _. rewrite Nat.mul_0_r, twiddle_zero.
    destruct (nth j (padded signal) C0). sample_eq.
Qed.

End RealSignals.

(** X23.  For a real signal of any length, [ifft (fft signal)] is the
    signal followed by the zeros [fft] padded it with up to the next power
    of two: the first [length signal] real parts are the signal itself and
    every imaginary part is 0. *)
Theorem ifft_fft_padded (signal : list R) :
  FourierAnalyzer.realParts (FourierAnalyzer.ifft (FourierAnalyzer.fft signal))
  = signal
    ++ repeat 0 (FourierAnalyzer.nextPowerOfTwo (length signal)
                 - length signal)
  /\ firstn (length signal)
            (FourierAnalyzer.realParts
               (FourierAnalyzer.ifft (FourierAnalyzer.fft signal)))
     = signal
  /\ forall c,
       In c (FourierAnalyzer.ifft (FourierAnalyzer.fft signal)) -> imag c = 0.
Proof.
  pose proof (ifft_fft_is_padded signal) as Hround.
  pose proof (padded_realParts signal) as Hreal.
  rewrite Hround, Hreal. split; [reflexivity|]. split.
  - rewrite firstn_app, Nat.sub_diag, firstn_all. cbn [firstn].
    apply app_nil_r.
  - intros c Hc. apply (In_nth _ _ C0) in Hc.
    destruct Hc as (j & _ & <-). apply padded_real.
Qed.

(** X24.  The transform of a real signal: bin 0 is the sum of the samples,
    with imaginary part 0, and the bins mirror each other, bin [N - k]
    being the complex conjugate of bin [k] for [0 < k < N]. *)
Theorem fft_real_signal_symmetry (signal : list R) :
  let N := length (FourierAnalyzer.fft signal) in
  nth 0 (FourierAnalyzer.fft signal) C0 = mkComplex (Rsum signal) 0
  /\ forall k, (0 < k < N)%nat ->
       nth (N - k) (FourierAnalyzer.fft signal) C0
       = Cconj (nth k (FourierAnalyzer.fft signal) C0).
Proof.
  cbv zeta. rewrite fft_length, fft_padded.
  destruct (nextPowerOfTwo_spec (length signal)) as (m & Hm & _).
  assert (Hlen : length (padded signal) = (2 ^ m)%nat)
    by (now rewrite padded_length).
  assert (Hpos : (0 < 2 ^ m)%nat)
    by (pose proof (pow2_le_mono 0 m); simpl in *; lia).
  rewrite Hm. split.
  - rewrite (fftRecursive_dft m) by assumption. apply padded_dc.
  - intros k Hk.
    rewrite !(fftRecursive_dft m) by (try assumption; lia).
    unfold dft. rewrite Csum_conj, Hlen. apply Csum_ext. intros j Hj.
    rewrite twiddle_mirror by lia. rewrite Cconj_mul. f_equal.
    pose proof (padded_real signal j) as Him.
    destruct (nth j (padded signal) C0) as [re im]. cbn [imag] in Him.
    subst im. sample_eq.
Qed.

(** X24 at the four-sample tone: bin 3 is the conjugate of bin 1. *)
Lemma fft_real_signal_symmetry_witness :
  nth 3 (FourierAnalyzer.fft tone) C0
  = Cconj (nth 1 (FourierAnalyzer.fft tone) C0).
Proof.
  apply (proj2 (fft_real_signal_symmetry tone) 1%nat).
  rewrite fft_tone. simpl. lia.
Defined.

(** ** The frequency axis, the window, the dominant frequency *)

Section AxisAndWindow.

Import FourierAnalyzer.

Lemma nextPowerOfTwo_pos (n : nat) : (1 <= nextPowerOfTwo n)%nat.
Proof.
  destruct (nextPowerOfTwo_spec n) as (j & -> & _).
  pose proof (pow2_le_mono 0 j). simpl in *. lia.
Qed.

(** From two samples on, the padded size is even and its half is positive. *)
Lemma nextPowerOfTwo_even (n : nat) :
  (2 <= n)%nat ->
  exists h, (0 < h)%nat /\ nextPowerOfTwo n = (2 * h)%nat.
Proof.
  intros Hn. destruct (nextPowerOfTwo_spec n) as (j & -> & Hle & _).
  destruct j as [|j]; [simpl in Hle; lia|].
  exists (2 ^ j)%nat. split; [|simpl; lia].
  pose proof (pow2_le_mono 0 j). simpl in *. lia.
Qed.

Lemma mapi_from_nth {A B : Type} (f : nat -> A -> B) (k : nat) (l : list A)
      (i : nat) (d : A) (d' : B) :
  (i < length l)%nat ->
  nth i (mapi_from f k l) d' = f (k + i)%nat (nth i l d).
Proof.
  revert k i. induction l as [|a l IH]; intros k i Hi; [simpl in Hi; lia|].
  destruct i as [|i]; cbn [mapi_from nth].
  - now rewrite Nat.add_0_r.
  - rewrite IH by (simpl in Hi; lia). f_equal. lia.
Qed.

Lemma hanning_range (n i : nat) : 0 <= hanning n i <= 1.
Proof.
  unfold hanning.
  pose proof (COS_bound (Physics.TWO_PI * INR i / INR (n - 1))). lra.
Qed.

Lemma hamming_range (n i : nat) : 0.08 <= hamming n i <= 1.
Proof.
  unfold hamming.
  pose proof (COS_bound (Physics.TWO_PI * INR i / INR (n - 1))). lra.
Qed.

Lemma hanning_ends (n : nat) :
  (2 <= n)%nat -> hanning n 0 = 0 /\ hanning n (n - 1) = 0.
Proof.
  intros Hn. unfold hanning, Physics.TWO_PI, Physics.PI. split.
  - replace (2 * PI * INR 0 / INR (n - 1)) with 0
      by (simpl; unfold Rdiv; ring).
    rewrite cos_0. lra.
  - assert (INR (n - 1) <> 0) by (apply not_0_INR; lia).
    replace (2 * PI * INR (n - 1) / INR (n - 1)) with (2 * PI)
      by (field; assumption).
    rewrite cos_2PI. lra.
Qed.

Lemma window_shrinks (v c : R) : 0 <= c <= 1 -> Rabs (v * c) <= Rabs v.
Proof.
  intros Hc. rewrite Rabs_mult, (Rabs_pos_eq c) by lra.
  pose proof (Rabs_pos v). nra.
Qed.

(** The bins of [getSpectrum] behind the DC bin carry the frequencies
    [i * sampleRate / N], [1 <= i <= N / 2]. *)
Lemma getSpectrum_tail_bins (signal : list R) (rate : R) (b : FrequencyBin) :
  In b (tl (bins (getSpectrum signal rate))) ->
  exists i, (1 <= i <= nextPowerOfTwo (length signal) / 2)%nat
            /\ bin_frequency b
               = INR i * (rate / INR (nextPowerOfTwo (length signal))).
Proof.
  destruct signal as [|s0 signal]; [intros []|].
  unfold getSpectrum. cbv zeta. cbn [bins].
  rewrite fft_length, applyWindow_length.
  set (N := nextPowerOfTwo (length (s0 :: signal))).
  rewrite Nat.add_1_r. cbn [seq map tl]. rewrite <- seq_shift, map_map.
  intros Hb. apply in_map_iff in Hb. destruct Hb as (i & <- & Hi).
  apply in_seq in Hi. exists (S i). split; [lia|].
  unfold spectrumBin. cbn [bin_frequency]. reflexivity.
Qed.

End AxisAndWindow.

(** X25.  [getFrequencyAxis] for the padded size [N] of a signal has
    [N/2 + 1] entries, starts at 0 and rises by [sampleRate / N] from one
    entry to the next; for a non-empty signal it is the list of the bin
    frequencies of [getSpectrum], and from two samples on its last entry is
    the Nyquist frequency [sampleRate / 2]. *)
Theorem getFrequencyAxis_of_spectrum (signal : list R) (rate : R) :
  let N := FourierAnalyzer.nextPowerOfTwo (length signal) in
  let axis := FourierAnalyzer.getFrequencyAxis N rate in
  length axis = (N / 2 + 1)%nat
  /\ nth 0 axis 0 = 0
  /\ (forall i, (i < N / 2)%nat ->
        nth (S i) axis 0 - nth i axis 0 = rate / INR N)
  /\ (signal <> [] ->
      axis = map bin_frequency
                 (bins (FourierAnalyzer.getSpectrum signal rate)))
  /\ ((2 <= length signal)%nat -> nth (N / 2) axis 0 = rate / 2).
Proof.
  cbv zeta. unfold FourierAnalyzer.getFrequencyAxis.
  set (N := FourierAnalyzer.nextPowerOfTwo (length signal)).
  rewrite length_map, length_seq.
  split; [reflexivity|]. split; [|split; [|split]].
  - rewrite nth_map_seq by lia. simpl. ring.
  - intros i Hi. rewrite !nth_map_seq by lia. rewrite S_INR. ring.
  - intros Hne. destruct signal as [|s0 signal]; [congruence|].
    unfold FourierAnalyzer.getSpectrum. cbv zeta. cbn [bins].
    rewrite map_map, fft_length, applyWindow_length. fold N.
    apply map_ext. intros i. unfold FourierAnalyzer.spectrumBin.
    cbn [bin_frequency]. reflexivity.
  - intros Hlen. rewrite nth_map_seq by lia.
    destruct (nextPowerOfTwo_even (length signal) Hlen) as (h & Hh & HN).
    fold N in HN. rewrite HN.
    replace (2 * h / 2)%nat with h by (rewrite Nat.mul_comm, Nat.div_mul; lia).
    rewrite mult_INR. assert (INR h <> 0) by (apply not_0_INR; lia).
    simpl. field. assumption.
Qed.

(** X25 on three samples taken at 8 Hz. *)
Lemma getFrequencyAxis_of_spectrum_witness :
  nth (FourierAnalyzer.nextPowerOfTwo 3 / 2)
      (FourierAnalyzer.getFrequencyAxis (FourierAnalyzer.nextPowerOfTwo 3) 8) 0
  = 8 / 2.
Proof.
  apply (getFrequencyAxis_of_spectrum [1; 2; 3] 8). simpl. lia.
Defined.

(** X26.  [applyWindow] keeps the length of the signal.  On two samples or
    more, the Hanning window brings the first and the last sample to 0,
    and neither it nor the Hamming window ever raises the absolute value
    of a sample.  A window name other than "hanning", "hamming" and
    "blackman" leaves the signal as it is. *)
Theorem applyWindow_taper (signal : list R) :
  (2 <= length signal)%nat ->
  let n := length signal in
  let hann := FourierAnalyzer.applyWindow signal "hanning" in
  let hamm := FourierAnalyzer.applyWindow signal "hamming" in
  length hann = n
  /\ nth 0 hann 0 = 0
  /\ nth (n - 1) hann 0 = 0
  /\ (forall i, (i < n)%nat ->
        Rabs (nth i hann 0) <= Rabs (nth i signal 0)
        /\ Rabs (nth i hamm 0) <= Rabs (nth i signal 0))
  /\ (forall name : string,
        name <> "hanning"%string -> name <> "hamming"%string ->
        name <> "blackman"%string ->
        FourierAnalyzer.applyWindow signal name = signal).
Proof.
  intros Hn. cbv zeta.
  split; [apply applyWindow_length|].
  destruct (hanning_ends (length signal) Hn) as (H0 & Hlast).
  unfold FourierAnalyzer.applyWindow, FourierAnalyzer.mapi.
  cbn [String.eqb Ascii.eqb Bool.eqb andb].
  split; [|split; [|split]].
  - rewrite mapi_from_nth with (d := 0) by lia.
    cbn [Nat.add]. rewrite H0. ring.
  - rewrite mapi_from_nth with (d := 0) by lia.
    cbn [Nat.add]. rewrite Hlast. ring.
  - intros i Hi. rewrite !mapi_from_nth with (d := 0) by exact Hi.
    cbn [Nat.add]. split; apply window_shrinks.
    + apply hanning_range.
    + pose proof (hamming_range (length signal) i). lra.
  - intros name H1 H2 H3.
    apply String.eqb_neq in H1, H2, H3. now rewrite H1, H2, H3.
Qed.

(** X26 on three samples. *)
Lemma applyWindow_taper_witness :
  nth 0 (FourierAnalyzer.applyWindow [1; 2; 3] "hanning") 0 = 0
  /\ FourierAnalyzer.applyWindow [1; 2; 3] "rectangular" = [1; 2; 3].
Proof.
  destruct (applyWindow_taper [1; 2; 3]) as (_ & H0 & _ & _ & Hname);
    [simpl; lia|].
  split; [exact H0|]. apply Hname; discriminate.
Defined.

(** X27.  [findDominantFrequency] answers 0 when no bin behind the DC bin
    has a positive magnitude, and otherwise the frequency of the first such
    bin of largest magnitude.  On the spectrum that [getSpectrum] computes
    at a sample rate that is not negative, it is a whole multiple of the
    resolution between 0 and the Nyquist frequency. *)
Theorem findDominantFrequency_first_peak (sp : FrequencySpectrum) :
  ((forall b, In b (tl (bins sp)) -> bin_magnitude b <= 0) ->
   FourierAnalyzer.findDominantFrequency sp = 0)
  /\ ((exists b, In b (tl (bins sp)) /\ 0 < bin_magnitude b) ->
      exists pre b post,
        tl (bins sp) = pre ++ b :: post
        /\ 0 < bin_magnitude b
        /\ (forall b', In b' pre -> bin_magnitude b' < bin_magnitude b)
        /\ (forall b', In b' post -> bin_magnitude b' <= bin_magnitude b)
        /\ FourierAnalyzer.findDominantFrequency sp = bin_frequency b)
  /\ (forall signal rate,
        sp = FourierAnalyzer.getSpectrum signal rate -> 0 <= rate ->
        let N := FourierAnalyzer.nextPowerOfTwo (length signal) in
        (exists i, (i <= N / 2)%nat
                   /\ FourierAnalyzer.findDominantFrequency sp
                      = INR i * (rate / INR N))
        /\ 0 <= FourierAnalyzer.findDominantFrequency sp <= rate / 2).
Proof.
  pose proof (peak_fold (tl (bins sp)) 0 0) as Hpeak. cbv zeta in Hpeak.
  assert (Hdom : FourierAnalyzer.findDominantFrequency sp
                 = snd (fold_left FourierAnalyzer.peakStep (tl (bins sp))
                                  (0, 0))).
  { unfold FourierAnalyzer.findDominantFrequency, FourierAnalyzer.findPeak.
    destruct (bins sp); reflexivity. }
  split; [|split].
  - intros Hflat. rewrite Hdom.
    destruct Hpeak as [(_ & ->)|(pre & b & post & Hl & Hm & _)];
      [reflexivity|].
    assert (Hin : In b (tl (bins sp))) by (rewrite Hl; apply in_elt).
    specialize (Hflat b Hin). lra.
  - intros (b1 & Hin1 & Hpos1). rewrite Hdom.
    destruct Hpeak
      as [(Hall & _)|(pre & b & post & Hl & Hm & Hpre & Hpost & ->)].
    + specialize (Hall b1 Hin1). lra.
    + exists pre, b, post. repeat split; auto.
  - intros signal rate Hsp Hrate. cbv zeta.
    set (N := FourierAnalyzer.nextPowerOfTwo (length signal)).
    assert (HN : (1 <= N)%nat) by apply nextPowerOfTwo_pos.
    assert (HNR : 0 < INR N) by (apply lt_0_INR; lia).
    assert (Hex : exists i, (i <= N / 2)%nat
                   /\ FourierAnalyzer.findDominantFrequency sp
                      = INR i * (rate / INR N)).
    { rewrite Hdom.
      destruct Hpeak as [(_ & ->)|(pre & b & post & Hl & _ & _ & _ & ->)].
      - exists 0%nat. split; [lia|]. simpl. ring.
      - assert (Hin : In b (tl (bins sp))) by (rewrite Hl; apply in_elt).
        rewrite Hsp in Hin. apply getSpectrum_tail_bins in Hin.
        destruct Hin as (i & Hi & Hf). exists i. split; [fold N in Hi; lia|].
        exact Hf. }
    split; [exact Hex|].
    destruct Hex as (i & Hi & ->).
    assert (Hstep : 0 <= rate / INR N).
    { apply Rmult_le_pos; [exact Hrate|].
      apply Rlt_le, Rinv_0_lt_compat, HNR. }
    split; [apply Rmult_le_pos; [apply pos_INR|exact Hstep]|].
    assert (H2i : INR i * 2 <= INR N).
    { assert (Hle : (i * 2 <= N)%nat)
        by (pose proof (Nat.div_mod_eq N 2); lia).
      apply le_INR in Hle. rewrite mult_INR in Hle. simpl in Hle. lra. }
    apply Rmult_le_reg_r with (INR N); [exact HNR|].
    unfold Rdiv. rewrite <- Rmult_assoc, Rmult_assoc, Rmult_assoc.
    rewrite Rinv_l by lra. nra.
Qed.

(** X27 on the two-tone spectrum, whose strongest bin is at 1 Hz. *)
Lemma findDominantFrequency_first_peak_witness :
  exists pre b post,
    tl (bins twoToneSpectrum) = pre ++ b :: post
    /\ 0 < bin_magnitude b
    /\ (forall b', In b' pre -> bin_magnitude b' < bin_magnitude b)
    /\ (forall b', In b' post -> bin_magnitude b' <= bin_magnitude b)
    /\ FourierAnalyzer.findDominantFrequency twoToneSpectrum
       = bin_frequency b.
Proof.
  apply (findDominantFrequency_first_peak twoToneSpectrum).
  exists (mkBin 1 1 0). split; [simpl; auto|simpl; lra].
Defined.

(** ** Harmonics and distortion *)

Section HarmonicLists.

Import FourierAnalyzer.

(** What [harmonicsLoop] reports, whatever list of orders it is given. *)
Lemma harmonicsLoop_In (sp : FrequencySpectrum) (th f : R) (orders : list Z)
      (h : Harmonic) :
  bins sp <> [] ->
  In h (harmonicsLoop sp th f orders) ->
  In (h_order h) orders
  /\ h_amplitude h >= th
  /\ IZR (h_order h) * f <= maxFrequency sp
  /\ Rabs (h_frequency h - IZR (h_order h) * f) <= frequencyResolution sp * 2
  /\ exists b, In b (bins sp)
               /\ h = mkHarmonic (bin_frequency b) (bin_magnitude b)
                                 (bin_phase b) (h_order h).
Proof.
  intros Hne. induction orders as [|o rest IH]; [intros []|].
  cbn [harmonicsLoop]. cbv zeta.
  destruct (Rgt_dec (IZR o * f) (maxFrequency sp)) as [Hout|Hin];
    [intros []|].
  pose proof (findClosest_nearest (bins sp) (IZR o * f) Hne) as Hnear.
  destruct (findClosest (bins sp) (IZR o * f)) as [c d].
  destruct Hnear as (Hc & Hd & _).
  intros Hh. apply in_app_or in Hh. destruct Hh as [Hh|Hh].
  - destruct (Rle_dec d (frequencyResolution sp * 2)) as [Hd2|]; [|destruct Hh].
    destruct (Rge_dec (bin_magnitude (nth c (bins sp) dummyBin)) th)
      as [Hth|]; [|destruct Hh].
    destruct Hh as [<-|[]]. cbn [h_order h_amplitude h_frequency].
    split; [now left|]. split; [exact Hth|]. split; [lra|].
    split; [rewrite <- Hd; exact Hd2|].
    exists (nth c (bins sp) dummyBin). split; [now apply nth_In|reflexivity].
  - destruct (IH Hh) as (Ho & Hrest). split; [now right|exact Hrest].
Qed.

Lemma harmonicsLoop_length (sp : FrequencySpectrum) (th f : R)
      (orders : list Z) :
  (length (harmonicsLoop sp th f orders) <= length orders)%nat.
Proof.
  induction orders as [|o rest IH]; [simpl; lia|].
  cbn [harmonicsLoop]. cbv zeta.
  destruct (Rgt_dec _ _); [simpl; lia|].
  destruct (findClosest _ _) as [c d].
  rewrite length_app.
  destruct (Rle_dec _ _); [destruct (Rge_dec _ _)|]; simpl; lia.
Qed.

(** The orders reported rise with the orders visited. *)
Lemma harmonicsLoop_sorted (sp : FrequencySpectrum) (th f : R)
      (orders : list Z) :
  bins sp <> [] ->
  StronglySorted Z.lt orders ->
  StronglySorted Z.lt (map h_order (harmonicsLoop sp th f orders)).
Proof.
  intros Hne. induction orders as [|o rest IH]; intros Hs; [constructor|].
  apply StronglySorted_inv in Hs. destruct Hs as (Hrest & Hall).
  cbn [harmonicsLoop]. cbv zeta.
  destruct (Rgt_dec _ _); [constructor|].
  destruct (findClosest _ _) as [c d].
  assert (Htail : Forall (Z.lt o)
                    (map h_order (harmonicsLoop sp th f rest))).
  { apply Forall_forall. intros z Hz. apply in_map_iff in Hz.
    destruct Hz as (h & <- & Hh).
    apply (harmonicsLoop_In sp th f rest h Hne) in Hh.
    destruct Hh as (Ho & _).
    rewrite Forall_forall in Hall. now apply Hall. }
  destruct (Rle_dec _ _); [destruct (Rge_dec _ _)|]; cbn [app map];
    try (now apply IH).
  constructor; [now apply IH|exact Htail].
Qed.

Lemma orders_1_10_sorted : StronglySorted Z.lt orders_1_10.
Proof.
  unfold orders_1_10.
  repeat (constructor; [|repeat (constructor; [lia|]); constructor]).
  constructor.
Qed.

(** The loop of [calculateTHD] from any starting pair: the second
    component gathers the powers of the harmonics of order other than 1. *)
Lemma thd_fold_harmonic (hs : list Harmonic) (fp hp : R) :
  snd (fold_left thdStep hs (fp, hp))
  = hp + Rsum (map (fun h => if (h_order h =? 1)%Z then 0
                             else h_amplitude h * h_amplitude h) hs).
Proof.
  revert fp hp. induction hs as [|h hs IH]; intros fp hp; simpl; [ring|].
  unfold thdStep at 2. cbn [fst snd].
  destruct (h_order h =? 1)%Z; rewrite IH; ring.
Qed.

(** Without a harmonic of order 1 the first component stays what it was. *)
Lemma thd_fold_fundamental (hs : list Harmonic) (fp hp : R) :
  (forall h, In h hs -> h_order h <> 1%Z) ->
  fst (fold_left thdStep hs (fp, hp)) = fp.
Proof.
  revert fp hp. induction hs as [|h hs IH]; intros fp hp Hno; [reflexivity|].
  cbn [fold_left]. unfold thdStep at 2. cbn [fst snd].
  destruct (Z.eqb_spec (h_order h) 1) as [He|_].
  - exfalso. apply (Hno h); [now left|exact He].
  - apply IH. intros h' Hh'. apply Hno. now right.
Qed.

Lemma thd_fold_nonneg (hs : list Harmonic) (fp hp : R) :
  0 <= fp -> 0 <= hp ->
  0 <= fst (fold_left thdStep hs (fp, hp))
  /\ 0 <= snd (fold_left thdStep hs (fp, hp)).
Proof.
  revert fp hp. induction hs as [|h hs IH]; intros fp hp Hf Hh; [auto|].
  cbn [fold_left]. unfold thdStep at 2 4. cbn [fst snd].
  destruct (h_order h =? 1)%Z; apply IH; nra.
Qed.

End HarmonicLists.

(** X28.  Every harmonic that [findHarmonics] reports is a bin of the
    spectrum (its frequency, magnitude and phase) with an order between 1
    and 10 and a magnitude that reaches the threshold; its frequency lies
    within twice the resolution of [order] times the frequency that
    [findDominantFrequency] answers, and that target does not exceed
    [maxFrequency].  The orders are reported in strictly rising order, so
    no order is reported twice and there are at most 10 harmonics. *)
Theorem findHarmonics_reported (sp : FrequencySpectrum) (threshold : R) :
  let hs := FourierAnalyzer.findHarmonics sp threshold in
  let f0 := FourierAnalyzer.findDominantFrequency sp in
  (length hs <= 10)%nat
  /\ StronglySorted Z.lt (map h_order hs)
  /\ forall h, In h hs ->
       (1 <= h_order h <= 10)%Z
       /\ h_amplitude h >= threshold
       /\ IZR (h_order h) * f0 <= maxFrequency sp
       /\ Rabs (h_frequency h - IZR (h_order h) * f0)
          <= frequencyResolution sp * 2
       /\ exists b, In b (bins sp)
                    /\ h = mkHarmonic (bin_frequency b) (bin_magnitude b)
                                      (bin_phase b) (h_order h).
Proof.
  cbv zeta.
  unfold FourierAnalyzer.findHarmonics, FourierAnalyzer.findDominantFrequency.
  destruct (bins sp) as [|b0 rest] eqn:Hb.
  - split; [simpl; lia|]. split; [constructor|intros h []].
  - rewrite <- Hb.
    assert (Hne : bins sp <> []) by (rewrite Hb; discriminate).
    destruct (FourierAnalyzer.findPeak (bins sp)) as [maxMagnitude f].
    cbn [snd].
    destruct (Req_dec_T f 0);
      [split; [simpl; lia|]; split; [constructor|intros h []]|].
    destruct (Rlt_dec maxMagnitude threshold);
      [split; [simpl; lia|]; split; [constructor|intros h []]|].
    split; [|split].
    + apply (harmonicsLoop_length sp threshold f FourierAnalyzer.orders_1_10).
    + apply harmonicsLoop_sorted; [exact Hne|apply orders_1_10_sorted].
    + intros h Hh. apply harmonicsLoop_In in Hh; [|exact Hne].
      destruct Hh as (Ho & Hrest). split; [|exact Hrest].
      unfold FourierAnalyzer.orders_1_10 in Ho. simpl in Ho.
      repeat (destruct Ho as [<-|Ho]; [lia|]). destruct Ho.
Qed.

(** X28 on the two-tone spectrum with the default threshold. *)
Lemma findHarmonics_reported_witness :
  (1 <= h_order (mkHarmonic 1 1 0 1) <= 10)%Z
  /\ h_amplitude (mkHarmonic 1 1 0 1) >= FourierAnalyzer.defaultThreshold.
Proof.
  destruct (findHarmonics_reported twoToneSpectrum
                                   FourierAnalyzer.defaultThreshold)
    as (_ & _ & Hall).
  destruct (Hall (mkHarmonic 1 1 0 1)) as (Ho & Ha & _); [|auto].
  unfold FourierAnalyzer.findHarmonics, FourierAnalyzer.findPeak,
    FourierAnalyzer.peakStep, FourierAnalyzer.defaultThreshold,
    twoToneSpectrum.
  cbn [bins tl fold_left fst snd bin_magnitude bin_frequency].
  repeat (real_cases; cbn [fst snd bin_magnitude bin_frequency]).
  unfold FourierAnalyzer.orders_1_10. cbn [FourierAnalyzer.harmonicsLoop].
  cbn [maxFrequency frequencyResolution bins].
  repeat (real_cases; cbn [fst snd bin_magnitude bin_frequency]).
  unfold FourierAnalyzer.findClosest.
  cbn [tl nth FourierAnalyzer.closestLoop bin_frequency snd].
  unfold Rabs.
  repeat (real_cases; cbn [fst snd bin_magnitude bin_frequency bin_phase nth
                           app In]).
  left. f_equal.
Defined.

(** X29.  [calculateTHD] is never negative and is 0 for a list without a
    harmonic of order 1.  For a list that starts with the fundamental
    (order 1, amplitude other than 0) and holds no other entry of order 1,
    it is 100 times the root of the sum of the squared amplitudes of the
    other harmonics, over the absolute amplitude of the fundamental. *)
Theorem calculateTHD_ratio (hs : list Harmonic) :
  0 <= FourierAnalyzer.calculateTHD hs
  /\ ((forall h, In h hs -> h_order h <> 1%Z) ->
      FourierAnalyzer.calculateTHD hs = 0)
  /\ (forall fund rest,
        hs = fund :: rest -> h_order fund = 1%Z ->
        (forall h, In h rest -> h_order h <> 1%Z) ->
        h_amplitude fund <> 0 ->
        FourierAnalyzer.calculateTHD hs
        = sqrt (Rsum (map (fun h => h_amplitude h * h_amplitude h) rest))
          / Rabs (h_amplitude fund) * 100).
Proof.
  split; [|split].
  - unfold FourierAnalyzer.calculateTHD. destruct hs as [|h0 hs]; [lra|].
    destruct (fold_left FourierAnalyzer.thdStep (h0 :: hs) (0, 0))
      as [fp hp].
    destruct (Req_dec_T fp 0); [lra|].
    pose proof (sqrt_pos (hp / fp)). lra.
  - intros Hno. unfold FourierAnalyzer.calculateTHD.
    destruct hs as [|h0 hs]; [reflexivity|].
    pose proof (thd_fold_fundamental (h0 :: hs) 0 0 Hno) as Hfst.
    destruct (fold_left FourierAnalyzer.thdStep (h0 :: hs) (0, 0))
      as [fp hp].
    cbn [fst] in Hfst. subst fp.
    destruct (Req_dec_T 0 0); [reflexivity|lra].
  - intros fund rest -> Hfund Hrest Hamp.
    unfold FourierAnalyzer.calculateTHD. cbn [fold_left].
    unfold FourierAnalyzer.thdStep at 2. cbn [fst snd]. rewrite Hfund.
    cbn [Z.eqb Pos.eqb].
    set (a := h_amplitude fund) in *.
    pose proof (thd_fold_fundamental rest (a * a) 0 Hrest) as Hfst.
    pose proof (thd_fold_harmonic rest (a * a) 0) as Hsnd.
    destruct (fold_left FourierAnalyzer.thdStep rest (a * a, 0)) as [fp hp].
    cbn [fst snd] in Hfst, Hsnd. subst fp.
    assert (Hsum : hp = Rsum (map (fun h => h_amplitude h * h_amplitude h)
                                  rest)).
    { rewrite Hsnd, Rplus_0_l. f_equal. apply map_ext_in. intros h Hh.
      destruct (Z.eqb_spec (h_order h) 1) as [He|_]; [|reflexivity].
      exfalso. now apply (Hrest h). }
    rewrite <- Hsum.
    assert (Hpos : 0 < a * a) by nra.
    destruct (Req_dec_T (a * a) 0); [lra|].
    rewrite sqrt_div_alt by exact Hpos.
    change (a * a) with (Rsqr a). now rewrite sqrt_Rsqr_abs.
Qed.

(** X29 on a fundamental of amplitude 2 with one harmonic of amplitude 1. *)
Lemma calculateTHD_ratio_witness :
  FourierAnalyzer.calculateTHD [mkHarmonic 1 2 0 1; mkHarmonic 2 1 0 2]
  = sqrt (Rsum (map (fun h => h_amplitude h * h_amplitude h)
                    [mkHarmonic 2 1 0 2]))
    / Rabs (h_amplitude (mkHarmonic 1 2 0 1)) * 100.
Proof.
  apply (proj2 (proj2 (calculateTHD_ratio
                         [mkHarmonic 1 2 0 1; mkHarmonic 2 1 0 2]))
               (mkHarmonic 1 2 0 1) [mkHarmonic 2 1 0 2]).
  - reflexivity.
  - reflexivity.
  - intros h [<-|[]]. simpl. lia.
  - simpl. lra.
Defined.

(** ** The filters inside the range of the spectrum *)

Section FiltersInRange.

Import FourierAnalyzer.

Lemma toSizeT_bounds (d : R) (a b : Z) :
  0 <= d -> IZR a <= d -> d <= IZR b -> (a <= toSizeT d <= b)%Z.
Proof.
  intros Hd Ha Hb. unfold toSizeT. destruct (Rlt_dec d 0); [lra|].
  destruct (base_Int_part d) as (Hle & Hgt). split.
  - assert (IZR a < IZR (Int_part d + 1)) by (rewrite plus_IZR; lra).
    apply lt_IZR in H. lia.
  - apply le_IZR. lra.
Qed.

Lemma toSizeT_below (d : R) (b : Z) :
  0 <= d -> d < IZR b -> (0 <= toSizeT d < b)%Z.
Proof.
  intros Hd Hb. unfold toSizeT. destruct (Rlt_dec d 0); [lra|].
  destruct (base_Int_part d) as (Hle & Hgt). split.
  - assert (IZR 0 < IZR (Int_part d + 1)) by (rewrite plus_IZR; simpl; lra).
    apply lt_IZR in H. lia.
  - apply lt_IZR. lra.
Qed.

Lemma ifft_length (s : list Complex) : length (ifft s) = length s.
Proof.
  rewrite ifft_unfold. now rewrite length_map, fftRecursive_length, length_map.
Qed.

Lemma realParts_ifft_length (s : list Complex) :
  length (realParts (ifft s)) = length s.
Proof. unfold realParts. now rewrite length_map, ifft_length. Qed.

(** Past the cutoff bin the high-pass loop is over. *)
Lemma zeroBelow_done {A : Type} (zero : A) (fuel : nat) (i cutoffBin : Z)
      (s : list A) :
  (cutoffBin < i)%Z -> zeroBelow zero fuel i cutoffBin s = Done s.
Proof.
  intros Hi. destruct fuel; cbn [zeroBelow];
    destruct (Z.leb_spec i cutoffBin); try lia; reflexivity.
Qed.

(** With cutoff bin 0 the high-pass loop zeroes bin 0 and nothing else. *)
Lemma zeroBelow_dc {A : Type} (zero : A) (fuel : nat) (s : list A) :
  (0 < Z.of_nat (length s))%Z ->
  zeroBelow zero (S fuel) 0 0 s = Done (zero :: skipn 1 s).
Proof.
  intros Hs. cbn [zeroBelow Z.leb Z.compare Z.ltb].
  unfold writeAt.
  destruct (Z.ltb_spec 0 (Z.of_nat (length s))) as [_|Hbad]; [|lia].
  cbn [Z.leb Z.compare andb bindOutcome Z.to_nat].
  rewrite Z.mod_small by (unfold SIZE_MOD; lia).
  rewrite zeroBelow_done by lia. reflexivity.
Qed.

(** The bin of [cutoffFreq], as a fraction of the padded size. *)
Lemma cutoff_fraction (cutoffFreq rate n : R) :
  0 < rate -> cutoffFreq * n / rate = cutoffFreq / rate * n.
Proof. intros Hr. field. lra. Qed.

(** A sum over a spectrum whose bin 0 has been zeroed. *)
Lemma Csum_without_dc (X : list Complex) (c : nat -> Complex) (n : nat) :
  (0 < n)%nat ->
  Csum (fun j => Cmul (nth j (C0 :: skipn 1 X) C0) (c j)) n
  = Csub (Csum (fun j => Cmul (nth j X C0) (c j)) n)
         (Cmul (nth 0 X C0) (c 0%nat)).
Proof.
  induction n as [|n IH]; intros Hn; [lia|].
  destruct n as [|n].
  - cbn [Csum nth]. ring.
  - cbn [Csum] in *. rewrite IH by lia.
    assert (Hsame : nth (S n) (C0 :: skipn 1 X) C0 = nth (S n) X C0)
      by (destruct X; [destruct n|]; reflexivity).
    rewrite Hsame. ring.
Qed.

(** Zeroing bin 0 of the transform subtracts the mean from every sample. *)
Lemma ifft_without_dc (signal : list R) (k : nat) :
  (k < nextPowerOfTwo (length signal))%nat ->
  real (nth k (ifft (C0 :: skipn 1 (fft signal))) C0)
  = real (nth k (padded signal) C0)
    - Rsum signal / INR (nextPowerOfTwo (length signal)).
Proof.
  intros Hk.
  destruct (nextPowerOfTwo_spec (length signal)) as (m & Hm & _).
  set (N := nextPowerOfTwo (length signal)) in *.
  assert (Hp : length (padded signal) = (2 ^ m)%nat)
    by (now rewrite padded_length).
  assert (HX : length (fft signal) = (2 ^ m)%nat)
    by (now rewrite fft_length).
  assert (Hpos : (0 < 2 ^ m)%nat) by lia.
  assert (HY : length (C0 :: skipn 1 (fft signal)) = (2 ^ m)%nat).
  { cbn [length]. rewrite length_skipn, HX. lia. }
  rewrite (ifft_inverse_dft m) by (try exact HY; lia).
  unfold inverse_dft. rewrite HY, Csum_without_dc by exact Hpos.
  pose proof (inverse_dft_dft m (padded signal) (fft signal) k Hp HX
                ltac:(lia)) as Hinv.
  unfold inverse_dft in Hinv. rewrite HX in Hinv.
  assert (Hdft : forall j, (j < 2 ^ m)%nat ->
                   nth j (fft signal) C0 = dft (padded signal) j)
    by (intros j Hj; rewrite fft_padded; now apply (fftRecursive_dft m)).
  specialize (Hinv Hdft).
  rewrite (Hdft 0%nat Hpos), padded_dc.
  cbn [Nat.mul]. rewrite twiddle_zero.
  set (S1 := Csum _ _) in *.
  assert (HS : real (Cmul (mkComplex (/ INR (2 ^ m)) 0) S1)
               = real (nth k (padded signal) C0)) by (now rewrite Hinv).
  rewrite <- HS, Hm. destruct S1 as [re im].
  cbn [real imag Cmul Csub Cconj]. unfold Rdiv. ring.
Qed.

End FiltersInRange.

(** X30.  With a positive sample rate and a padded size [N] below [2^64],
    [lowPassFilter] for [0 <= cutoffFreq <= sampleRate] and [highPassFilter]
    for [0 <= cutoffFreq < sampleRate] write inside the spectrum only and
    return [N] samples, as [bandPassFilter] always does.  A low-pass cutoff
    from the Nyquist frequency up returns the zero-padded signal unchanged
    (two samples or more), and a high-pass cutoff below [sampleRate / N]
    subtracts the mean of the padded signal from every sample. *)
Theorem filters_within_range (signal : list R) (cutoffFreq rate : R) :
  let N := FourierAnalyzer.nextPowerOfTwo (length signal) in
  let pad := signal ++ repeat 0 (N - length signal) in
  (Z.of_nat N < FourierAnalyzer.SIZE_MOD)%Z -> 0 < rate ->
  (0 <= cutoffFreq <= rate ->
   exists out,
     FourierAnalyzer.lowPassFilter signal cutoffFreq rate
     = FourierAnalyzer.Done out /\ length out = N)
  /\ (0 <= cutoffFreq < rate ->
      exists out,
        FourierAnalyzer.highPassFilter signal cutoffFreq rate
        = FourierAnalyzer.Done out /\ length out = N)
  /\ (forall lowFreq highFreq,
        length (FourierAnalyzer.bandPassFilter signal lowFreq highFreq rate)
        = N)
  /\ ((2 <= length signal)%nat -> rate / 2 <= cutoffFreq <= rate ->
      FourierAnalyzer.lowPassFilter signal cutoffFreq rate
      = FourierAnalyzer.Done pad)
  /\ (0 <= cutoffFreq * INR N < rate ->
      FourierAnalyzer.highPassFilter signal cutoffFreq rate
      = FourierAnalyzer.Done (map (fun v => v - Rsum signal / INR N) pad)).
Proof.
  cbv zeta. intros Hsz Hrate.
  set (N := FourierAnalyzer.nextPowerOfTwo (length signal)) in *.
  assert (HX : length (FourierAnalyzer.fft signal) = N) by apply fft_length.
  assert (HN : (1 <= N)%nat) by apply nextPowerOfTwo_pos.
  assert (HNR : 0 < INR N) by (apply lt_0_INR; lia).
  assert (HNZ : INR N = IZR (Z.of_nat N)) by apply INR_IZR_INZ.
  split; [|split; [|split; [|split]]].
  - intros Hc. unfold FourierAnalyzer.lowPassFilter. rewrite HX.
    set (c := FourierAnalyzer.toSizeT (cutoffFreq * INR N / rate)).
    assert (Hcb : (0 <= c <= Z.of_nat N)%Z).
    { apply toSizeT_bounds.
      - rewrite cutoff_fraction by exact Hrate.
        apply Rmult_le_pos; [|lra].
        apply Rmult_le_pos; [lra|]. apply Rlt_le, Rinv_0_lt_compat, Hrate.
      - rewrite cutoff_fraction by exact Hrate. simpl.
        apply Rmult_le_pos; [|lra].
        apply Rmult_le_pos; [lra|]. apply Rlt_le, Rinv_0_lt_compat, Hrate.
      - rewrite <- HNZ, cutoff_fraction by exact Hrate.
        assert (cutoffFreq / rate <= 1).
        { apply Rmult_le_reg_r with rate; [exact Hrate|].
          unfold Rdiv. rewrite Rmult_assoc, Rinv_l by lra. lra. }
        nra. }
    destruct (zeroRange_in_range C0 (S N) c
                (FourierAnalyzer.size_sub (Z.of_nat N) c)
                (FourierAnalyzer.fft signal))
      as (s' & Hs' & Hlen'); rewrite ?HX; try lia.
    { unfold FourierAnalyzer.size_sub.
      rewrite Z.mod_small by (unfold FourierAnalyzer.SIZE_MOD in *; lia).
      lia. }
    rewrite Hs'. cbn [FourierAnalyzer.bindOutcome].
    eexists. split; [reflexivity|].
    now rewrite realParts_ifft_length, Hlen', HX.
  - intros Hc. unfold FourierAnalyzer.highPassFilter. rewrite HX.
    set (c := FourierAnalyzer.toSizeT (cutoffFreq * INR N / rate)).
    assert (Hcb : (0 <= c < Z.of_nat N)%Z).
    { apply toSizeT_below.
      - rewrite cutoff_fraction by exact Hrate.
        apply Rmult_le_pos; [|lra].
        apply Rmult_le_pos; [lra|]. apply Rlt_le, Rinv_0_lt_compat, Hrate.
      - rewrite <- HNZ, cutoff_fraction by exact Hrate.
        assert (cutoffFreq / rate < 1).
        { apply Rmult_lt_reg_r with rate; [exact Hrate|].
          unfold Rdiv. rewrite Rmult_assoc, Rinv_l by lra. lra. }
        nra. }
    destruct (zeroBelow_in_range C0 (S N) 0 c (FourierAnalyzer.fft signal))
      as (s' & Hs' & Hlen'); rewrite ?HX; try lia.
    rewrite Hs'. cbn [FourierAnalyzer.bindOutcome].
    eexists. split; [reflexivity|].
    now rewrite realParts_ifft_length, Hlen', HX.
  - intros lowFreq highFreq. unfold FourierAnalyzer.bandPassFilter.
    rewrite realParts_ifft_length.
    unfold FourierAnalyzer.bandPassZero, FourierAnalyzer.mapi.
    now rewrite mapi_from_length.
  - intros Hlen Hc. unfold FourierAnalyzer.lowPassFilter. rewrite HX.
    destruct (nextPowerOfTwo_even (length signal) Hlen) as (h & Hh & HNh).
    fold N in HNh.
    set (c := FourierAnalyzer.toSizeT (cutoffFreq * INR N / rate)).
    assert (Hcb : (Z.of_nat h <= c <= Z.of_nat N)%Z).
    { assert (Hhalf : INR N = 2 * INR h)
        by (rewrite HNh, mult_INR; simpl; ring).
      assert (Hfrac : 1 / 2 <= cutoffFreq / rate <= 1).
      { split.
        - apply Rmult_le_reg_r with rate; [exact Hrate|].
          unfold Rdiv at 2. rewrite Rmult_assoc, Rinv_l by lra. lra.
        - apply Rmult_le_reg_r with rate; [exact Hrate|].
          unfold Rdiv. rewrite Rmult_assoc, Rinv_l by lra. lra. }
      pose proof (pos_INR h) as Hh0.
      apply toSizeT_bounds.
      - rewrite cutoff_fraction by exact Hrate. nra.
      - rewrite <- INR_IZR_INZ, cutoff_fraction by exact Hrate. nra.
      - rewrite <- HNZ, cutoff_fraction by exact Hrate. nra. }
    cbn [FourierAnalyzer.zeroRange].
    assert (Hsub : FourierAnalyzer.size_sub (Z.of_nat N) c
                   = (Z.of_nat N - c)%Z).
    { unfold FourierAnalyzer.size_sub.
      apply Z.mod_small. unfold FourierAnalyzer.SIZE_MOD in *. lia. }
    rewrite Hsub.
    destruct (Z.ltb_spec c (Z.of_nat N - c)) as [Hlt|_]; [lia|].
    cbn [FourierAnalyzer.bindOutcome].
    now rewrite ifft_fft_is_padded, padded_realParts.
  - intros Hc. unfold FourierAnalyzer.highPassFilter. rewrite HX.
    assert (Hbin : FourierAnalyzer.toSizeT (cutoffFreq * INR N / rate) = 0%Z).
    { apply toSizeT_floor.
      - simpl. split.
        + apply Rmult_le_pos; [lra|]. apply Rlt_le, Rinv_0_lt_compat, Hrate.
        + apply Rmult_lt_reg_r with rate; [exact Hrate|].
          unfold Rdiv. rewrite Rmult_assoc, Rinv_l by lra. lra.
      - apply Rmult_le_pos; [lra|]. apply Rlt_le, Rinv_0_lt_compat, Hrate. }
    rewrite Hbin, zeroBelow_dc by (rewrite HX; lia).
    cbn [FourierAnalyzer.bindOutcome]. f_equal.
    apply nth_ext with (d := 0) (d' := 0).
    + rewrite realParts_ifft_length. cbn [length].
      rewrite length_skipn, HX, length_map, length_app, repeat_length.
      destruct (nextPowerOfTwo_spec (length signal)) as (j & Hj & Hle & _).
      fold N in Hj. lia.
    + intros k Hk. rewrite realParts_ifft_length in Hk.
      cbn [length] in Hk. rewrite length_skipn, HX in Hk.
      assert (HkN : (k < N)%nat) by lia.
      unfold FourierAnalyzer.realParts.
      rewrite map_nth_in with (d := C0)
        by (rewrite ifft_length; cbn [length];
            rewrite length_skipn, HX; lia).
      rewrite ifft_without_dc by exact HkN. fold N.
      rewrite <- padded_realParts. fold N.
      rewrite map_nth_in with (d := 0)
        by (unfold FourierAnalyzer.realParts;
            rewrite length_map, padded_length; exact HkN).
      unfold FourierAnalyzer.realParts.
      rewrite map_nth_in with (d := C0)
        by (rewrite padded_length; exact HkN).
      reflexivity.
Qed.

(** X30 on the tone sampled at 4 Hz: a low-pass cutoff of 2 Hz, the
    Nyquist frequency, returns the tone. *)
Lemma filters_within_range_witness :
  FourierAnalyzer.lowPassFilter tone 2 4 = FourierAnalyzer.Done tone.
Proof.
  destruct (filters_within_range tone 2 4) as (_ & _ & _ & Hlow & _).
  - unfold FourierAnalyzer.SIZE_MOD. simpl. lia.
  - lra.
  - apply Hlow; [simpl; lia|lra].
Defined.
